(** * node-file-server: a content-addressed object store over HTTP

    Shallow embedding of [main.mjs]: the public root and the directory
    made for it at the start, the path-safety check [resolveSafePath],
    the stream hasher [computeFileSha256Hex], the multer storage
    callbacks [storage.destination] and [storage.filename], and the
    handlers of [POST /:bucket] and [PUT /:bucket/:key].

    The platform is modelled next to the program:
    - Node's [path], POSIX flavour ([path.sep] is ["/"]): [join],
      [normalize], [resolve], [dirname] and [extname].  [dirname] and
      [extname] follow the character scans of Node; [normalizeString]
      is written on the pieces between separators.
    - [crypto.createHash("sha256")], after FIPS 180-4, on bytes.
    - [fs]: a finite map from absolute paths to files and directories
      with the calls the program makes ([access], [unlink], [mkdir]
      recursive, [rename], read and write streams).  A call fails for a
      reason the tree shows (a missing entry, a file where a directory
      is needed, ...), with the error code Node reports.  The tree
      takes a name of any length and has no permissions and no quota:
      a call that a file system refuses for such a reason
      ([ENAMETOOLONG], [EACCES], [ENOSPC]) is outside the model, and
      the outcomes of a request are stated for paths within the limits
      of the file system.
    - Express and multer: a handler receives the request once it is
      parsed ([req.params], the text fields of [req.body], [req.file])
      and returns the status and the JSON object it sends.  Multer's
      disk storage is modelled for one file part: it runs the two
      callbacks and writes the part where they say.

    A handler is a function from the tree before to the tree after and
    the answer; its [await]s run in order.  The interleaving of two
    requests is modelled apart, for the block that finalizes an upload.

    Layout: the platform, the program, the vocabulary of the
    specification, examples, and then facts and theorems by topic. *)

From Stdlib Require Import ZArith Ascii String Lia.
From Stdlib Require Strings.Byte.
From stdpp Require Import base option strings list gmap.

Local Open Scope Z_scope.
Local Open Scope stdpp_scope.

(* ===================================================================== *)
(** * JavaScript strings *)
(* ===================================================================== *)

Module Js.

(** [s.startsWith(pre)] *)
Fixpoint startsWith (s pre : string) : bool :=
  match pre with
  | EmptyString => true
  | String a pre' =>
      match s with
      | EmptyString => false
      | String b s' => bool_decide (a = b) && startsWith s' pre'
      end
  end.

(** [s.endsWith(suf)]: some tail of [s] is [suf]. *)
Fixpoint endsWith (s suf : string) : bool :=
  bool_decide (s = suf) ||
  match s with
  | EmptyString => false
  | String _ s' => endsWith s' suf
  end.

(** Truthiness of a string: only the empty string is falsy. *)
Definition truthy (s : string) : bool := negb (bool_decide (s = "")).

(** [a || b] on strings. *)
Definition or (a b : string) : string := if truthy a then a else b.

(** [o || b] where [o] is a property read that may be [undefined]. *)
Definition or_undef (o : option string) (b : option string) : option string :=
  match o with
  | Some s => if truthy s then Some s else b
  | None => b
  end.

(** [s.replace(/\\/g, "/")] *)
Fixpoint replace_backslashes (s : string) : string :=
  match s with
  | EmptyString => EmptyString
  | String c s' =>
      String (if bool_decide (c = "\"%char) then "/"%char else c)
             (replace_backslashes s')
  end.

(** [s.slice(from, to)] for [0 <= from <= to]. *)
Definition slice (from to : nat) (s : string) : string :=
  String.substring from (to - from) s.

End Js.

(* ===================================================================== *)
(** * Node's [path] module, POSIX flavour *)
(* ===================================================================== *)

Module Path.

Definition sep : string := "/".

Definition is_sep (c : ascii) : bool := bool_decide (c = "/"%char).

(** Whether the first character is a forward slash. *)
Definition isAbsolute (p : string) : bool :=
  match p with
  | String c _ => is_sep c
  | EmptyString => false
  end.

(** The pieces of a path between separators; ["a//b/"] gives
    [["a"; ""; "b"; ""]]. *)
Fixpoint split (s : string) : list string :=
  match s with
  | EmptyString => [EmptyString]
  | String c s' =>
      if is_sep c then EmptyString :: split s'
      else match split s' with
           | h :: t => String c h :: t
           | [] => [String c EmptyString]
           end
  end.

(** Pieces glued back with one separator between neighbours. *)
Fixpoint join_sep (l : list string) : string :=
  match l with
  | [] => EmptyString
  | [x] => x
  | x :: l' => x +:+ sep +:+ join_sep l'
  end.

(** One piece of [normalizeString]: [stack] holds the pieces kept so
    far, last one first.  Empty pieces and ["."] are dropped; [".."]
    removes the last kept piece unless that is itself [".."] or there is
    none, in which case it is kept only when [allowAboveRoot]. *)
Definition normalize_step (allowAboveRoot : bool)
    (stack : list string) (seg : string) : list string :=
  if bool_decide (seg = "") then stack
  else if bool_decide (seg = ".") then stack
  else if bool_decide (seg = "..") then
    match stack with
    | top :: rest =>
        if bool_decide (top = "..")
        then (if allowAboveRoot then seg :: stack else stack)
        else rest
    | [] => if allowAboveRoot then [seg] else []
    end
  else seg :: stack.

Definition normalize_segments (allowAboveRoot : bool)
    (segs : list string) : list string :=
  reverse (fold_left (normalize_step allowAboveRoot) segs []).

(** [normalizeString(path, allowAboveRoot, "/", isPosixPathSeparator)]:
    resolves [.] and [..] and drops repeated separators; the result has
    no leading and no trailing separator. *)
Definition normalizeString (path : string) (allowAboveRoot : bool) : string :=
  join_sep (normalize_segments allowAboveRoot (split path)).

(** [path.posix.normalize] *)
Definition normalize (path : string) : string :=
  if bool_decide (path = "") then "."
  else
    let isAbs := isAbsolute path in
    let trailingSeparator := Js.endsWith path sep in
    let p := normalizeString path (negb isAbs) in
    if bool_decide (p = "") then
      (if isAbs then "/" else if trailingSeparator then "./" else ".")
    else
      let p' := if trailingSeparator then p +:+ "/" else p in
      if isAbs then "/" +:+ p' else p'.

(** The loop of [path.posix.join]: non-empty arguments separated by
    ["/"]; [None] is JavaScript's [undefined]. *)
Fixpoint join_args (joined : option string) (args : list string) : option string :=
  match args with
  | [] => joined
  | arg :: rest =>
      if Js.truthy arg then
        join_args (Some (match joined with
                         | None => arg
                         | Some j => j +:+ "/" +:+ arg
                         end)) rest
      else join_args joined rest
  end.

(** [path.posix.join(...args)] *)
Definition join (args : list string) : string :=
  match join_args None args with
  | None => "."
  | Some joined => normalize joined
  end.

(** The loop of [path.posix.resolve], from the last argument to the
    first and then the working directory, until an absolute piece has
    been prepended.  [rargs] is the argument list reversed. *)
Fixpoint resolve_loop (cwd : string) (rargs : list string)
    (resolvedPath : string) : string * bool :=
  match rargs with
  | [] =>
      if bool_decide (cwd = "") then (resolvedPath, false)
      else (cwd +:+ "/" +:+ resolvedPath, isAbsolute cwd)
  | p :: rest =>
      if bool_decide (p = "") then resolve_loop cwd rest resolvedPath
      else
        let resolvedPath' := p +:+ "/" +:+ resolvedPath in
        if isAbsolute p then (resolvedPath', true)
        else resolve_loop cwd rest resolvedPath'
  end.

(** [path.posix.resolve(...args)]; [cwd] is [process.cwd()]. *)
Definition resolve (cwd : string) (args : list string) : string :=
  let '(resolvedPath, resolvedAbsolute) := resolve_loop cwd (reverse args) "" in
  let p := normalizeString resolvedPath (negb resolvedAbsolute) in
  if resolvedAbsolute then "/" +:+ p
  else if bool_decide (p = "") then "." else p.

(** The backwards scan of [path.posix.dirname]: [i] runs from the last
    index down to 1; the answer is the index [end] of the separator
    that closes the directory part, if any. *)
Fixpoint dirname_loop (path : string) (i : nat) (matchedSlash : bool) : option nat :=
  match i with
  | O => None
  | S i' =>
      match String.get i path with
      | Some c =>
          if is_sep c then
            (if matchedSlash then dirname_loop path i' matchedSlash else Some i)
          else dirname_loop path i' false
      | None => dirname_loop path i' matchedSlash
      end
  end.

(** [path.posix.dirname] *)
Definition dirname (path : string) : string :=
  if bool_decide (path = "") then "."
  else
    let hasRoot := isAbsolute path in
    match dirname_loop path (String.length path - 1) true with
    | None => if hasRoot then "/" else "."
    | Some e =>
        if hasRoot && bool_decide (e = 1%nat) then "//"
        else Js.slice 0 e path
    end.

(** State of the backwards scan of [path.posix.extname]. *)
Record ext_state := ExtState {
  startDot : option nat;
  startPart : nat;
  end_ : option nat;
  matchedSlash : bool;
  preDotState : Z
}.

(** One character of the scan (index [i], character [c]); the result
    tells whether the loop goes on ([inl]) or breaks ([inr]). *)
Definition extname_step (i : nat) (c : ascii) (st : ext_state)
    : ext_state + ext_state :=
  if is_sep c then
    if negb (matchedSlash st)
    then inr (ExtState (startDot st) (S i) (end_ st) (matchedSlash st) (preDotState st))
    else inl st
  else
    let st1 :=
      match end_ st with
      | None => ExtState (startDot st) (startPart st) (Some (S i)) false (preDotState st)
      | Some _ => st
      end in
    if bool_decide (c = "."%char) then
      match startDot st1 with
      | None => inl (ExtState (Some i) (startPart st1) (end_ st1) (matchedSlash st1) (preDotState st1))
      | Some _ =>
          if bool_decide (preDotState st1 ≠ 1)
          then inl (ExtState (startDot st1) (startPart st1) (end_ st1) (matchedSlash st1) 1)
          else inl st1
      end
    else
      match startDot st1 with
      | Some _ => inl (ExtState (startDot st1) (startPart st1) (end_ st1) (matchedSlash st1) (-1))
      | None => inl st1
      end.

(** The loop itself: [n] characters are still to be looked at, the next
    one at index [n - 1]. *)
Fixpoint extname_loop (path : string) (n : nat) (st : ext_state) : ext_state :=
  match n with
  | O => st
  | S i =>
      match String.get i path with
      | Some c =>
          match extname_step i c st with
          | inl st' => extname_loop path i st'
          | inr st' => st'
          end
      | None => extname_loop path i st
      end
  end.

(** [path.posix.extname] *)
Definition extname (path : string) : string :=
  let st := extname_loop path (String.length path) (ExtState None 0 None true 0) in
  match startDot st, end_ st with
  | Some sd, Some e =>
      if bool_decide (preDotState st = 0)
         || (bool_decide (preDotState st = 1)
             && bool_decide (sd = (e - 1)%nat)
             && bool_decide (sd = (startPart st + 1)%nat))
      then ""
      else Js.slice sd e path
  | _, _ => ""
  end.

End Path.


(* ===================================================================== *)
(** * [crypto.createHash("sha256")]: SHA-256 after FIPS 180-4 *)
(* ===================================================================== *)

Module Sha256.

Abbreviation byte := Corelib.Init.Byte.byte.

Definition mask32 : Z := 0xFFFFFFFF.
Definition w32 (x : Z) : Z := Z.land x mask32.
Definition add32 (x y : Z) : Z := w32 (x + y).
Definition rotr (n x : Z) : Z := Z.lor (Z.shiftr x n) (w32 (Z.shiftl x (32 - n))).
Definition shr (n x : Z) : Z := Z.shiftr x n.
Definition not32 (x : Z) : Z := Z.lxor x mask32.

Definition Ch (x y z : Z) : Z := Z.lxor (Z.land x y) (Z.land (not32 x) z).
Definition Maj (x y z : Z) : Z :=
  Z.lxor (Z.lxor (Z.land x y) (Z.land x z)) (Z.land y z).
Definition bsig0 (x : Z) : Z := Z.lxor (Z.lxor (rotr 2 x) (rotr 13 x)) (rotr 22 x).
Definition bsig1 (x : Z) : Z := Z.lxor (Z.lxor (rotr 6 x) (rotr 11 x)) (rotr 25 x).
Definition ssig0 (x : Z) : Z := Z.lxor (Z.lxor (rotr 7 x) (rotr 18 x)) (shr 3 x).
Definition ssig1 (x : Z) : Z := Z.lxor (Z.lxor (rotr 17 x) (rotr 19 x)) (shr 10 x).

(** The round constants, four to a row. *)
Definition K : list Z :=
  concat
    [ [0x428a2f98; 0x71374491; 0xb5c0fbcf; 0xe9b5dba5];
      [0x3956c25b; 0x59f111f1; 0x923f82a4; 0xab1c5ed5];
      [0xd807aa98; 0x12835b01; 0x243185be; 0x550c7dc3];
      [0x72be5d74; 0x80deb1fe; 0x9bdc06a7; 0xc19bf174];
      [0xe49b69c1; 0xefbe4786; 0x0fc19dc6; 0x240ca1cc];
      [0x2de92c6f; 0x4a7484aa; 0x5cb0a9dc; 0x76f988da];
      [0x983e5152; 0xa831c66d; 0xb00327c8; 0xbf597fc7];
      [0xc6e00bf3; 0xd5a79147; 0x06ca6351; 0x14292967];
      [0x27b70a85; 0x2e1b2138; 0x4d2c6dfc; 0x53380d13];
      [0x650a7354; 0x766a0abb; 0x81c2c92e; 0x92722c85];
      [0xa2bfe8a1; 0xa81a664b; 0xc24b8b70; 0xc76c51a3];
      [0xd192e819; 0xd6990624; 0xf40e3585; 0x106aa070];
      [0x19a4c116; 0x1e376c08; 0x2748774c; 0x34b0bcb5];
      [0x391c0cb3; 0x4ed8aa4a; 0x5b9cca4f; 0x682e6ff3];
      [0x748f82ee; 0x78a5636f; 0x84c87814; 0x8cc70208];
      [0x90befffa; 0xa4506ceb; 0xbef9a3f7; 0xc67178f2] ].


(** The eight working words. *)
Record regs := Regs { ra : Z; rb : Z; rc : Z; rd : Z; re : Z; rf : Z; rg : Z; rh : Z }.

Definition H0 : regs :=
  Regs 0x6a09e667 0xbb67ae85 0x3c6ef372 0xa54ff53a
       0x510e527f 0x9b05688c 0x1f83d9ab 0x5be0cd19.

Definition byteZ (b : byte) : Z := Z.of_N (Byte.to_N b).

(** Padding: a 1 bit, zero bits up to 56 mod 64 bytes, then the bit
    length on 8 bytes, most significant first. *)
Definition be_bytes (n : nat) (x : Z) : list Z :=
  map (fun i => Z.land (Z.shiftr x (8 * Z.of_nat i)) 0xFF) (rev (seq 0 n)).

Definition pad (msg : list Z) : list Z :=
  let len := Z.of_nat (length msg) in
  let zeros := Z.to_nat ((55 - len) mod 64) in
  msg ++ [0x80] ++ repeat 0 zeros ++ be_bytes 8 (8 * len).

(** Big-endian 32-bit words of a byte list (whole words only). *)
Fixpoint words_of (fuel : nat) (bs : list Z) : list Z :=
  match fuel, bs with
  | S fuel', b0 :: b1 :: b2 :: b3 :: rest =>
      (Z.shiftl b0 24 + Z.shiftl b1 16 + Z.shiftl b2 8 + b3) :: words_of fuel' rest
  | _, _ => []
  end.

(** Message schedule: [extend n ws] appends [n] words to the words so
    far (most recent first in [rws]). *)
Fixpoint extend (n : nat) (rws : list Z) : list Z :=
  match n with
  | O => rws
  | S n' =>
      let wt :=
        add32 (add32 (ssig1 (nth 1 rws 0)) (nth 6 rws 0))
              (add32 (ssig0 (nth 14 rws 0)) (nth 15 rws 0)) in
      extend n' (wt :: rws)
  end.

Definition schedule (block : list Z) : list Z := rev (extend 48 (rev block)).

Definition round (r : regs) (kw : Z * Z) : regs :=
  let '(k, w) := kw in
  let t1 := add32 (add32 (add32 (add32 (rh r) (bsig1 (re r))) (Ch (re r) (rf r) (rg r))) k) w in
  let t2 := add32 (bsig0 (ra r)) (Maj (ra r) (rb r) (rc r)) in
  Regs (add32 t1 t2) (ra r) (rb r) (rc r) (add32 (rd r) t1) (re r) (rf r) (rg r).

Definition compress (h : regs) (block : list Z) : regs :=
  let r := fold_left round (combine K (schedule block)) h in
  Regs (add32 (ra h) (ra r)) (add32 (rb h) (rb r)) (add32 (rc h) (rc r))
       (add32 (rd h) (rd r)) (add32 (re h) (re r)) (add32 (rf h) (rf r))
       (add32 (rg h) (rg r)) (add32 (rh h) (rh r)).

Fixpoint blocks (fuel : nat) (h : regs) (ws : list Z) : regs :=
  match fuel, ws with
  | S fuel', _ :: _ => blocks fuel' (compress h (take 16 ws)) (drop 16 ws)
  | _, _ => h
  end.

Definition sha256 (msg : list byte) : regs :=
  let bs := pad (map byteZ msg) in
  let ws := words_of (length bs) bs in
  blocks (length ws) H0 ws.

(** Lowercase hexadecimal, as [digest("hex")] and [toString("hex")]
    give it. *)
Definition hex_digit (n : Z) : ascii :=
  match n with
  | 0 => "0" | 1 => "1" | 2 => "2" | 3 => "3" | 4 => "4" | 5 => "5"
  | 6 => "6" | 7 => "7" | 8 => "8" | 9 => "9" | 10 => "a" | 11 => "b"
  | 12 => "c" | 13 => "d" | 14 => "e" | _ => "f"
  end%char.

Definition nibble (x : Z) (i : Z) : ascii :=
  hex_digit (Z.land (Z.shiftr x (4 * i)) 0xF).

Definition word_hex (x : Z) (rest : string) : string :=
  String (nibble x 7) (String (nibble x 6) (String (nibble x 5)
  (String (nibble x 4) (String (nibble x 3) (String (nibble x 2)
  (String (nibble x 1) (String (nibble x 0) rest))))))).

Definition regs_hex (r : regs) : string :=
  word_hex (ra r) (word_hex (rb r) (word_hex (rc r) (word_hex (rd r)
  (word_hex (re r) (word_hex (rf r) (word_hex (rg r) (word_hex (rh r) ""))))))).

Fixpoint bytes_hex (bs : list byte) : string :=
  match bs with
  | [] => ""
  | b :: rest =>
      String (nibble (byteZ b) 1) (String (nibble (byteZ b) 0) (bytes_hex rest))
  end.

(** The [Hash] object: the bytes fed so far. *)
Record Hash := MkHash { fed : list byte }.

Definition createHash : Hash := MkHash [].
Definition update (h : Hash) (chunk : list byte) : Hash := MkHash (fed h ++ chunk).
Definition digest_hex (h : Hash) : string := regs_hex (sha256 (fed h)).

End Sha256.

Definition bytes_of_string (s : string) : list Sha256.byte :=
  String.list_byte_of_string s.


(* ===================================================================== *)
(** * The file system the server writes to *)
(* ===================================================================== *)

Module Fs.

Abbreviation byte := Sha256.byte.

(** What lives at a path: a regular file with its bytes, or a
    directory. *)
Inductive node :=
  | File (content : list byte)
  | Dir.

Inductive errno := ENOENT | EEXIST | ENOTDIR | EISDIR | ENOTEMPTY | EINVAL.

(** A system error as Node reports it: code, system call, the path
    when the call was made with one and, for a rename, the
    destination. *)
Record fs_error := FsError {
  code : errno;
  syscall : string;
  epath : option string;
  edest : option string
}.

Definition errno_text (c : errno) : string :=
  match c with
  | ENOENT => "ENOENT: no such file or directory"
  | EEXIST => "EEXIST: file already exists"
  | ENOTDIR => "ENOTDIR: not a directory"
  | EISDIR => "EISDIR: illegal operation on a directory"
  | ENOTEMPTY => "ENOTEMPTY: directory not empty"
  | EINVAL => "EINVAL: invalid argument"
  end.

Definition error_message (e : fs_error) : string :=
  let message := errno_text (code e) +:+ ", " +:+ syscall e in
  let message :=
    match epath e with
    | Some p => message +:+ " '" +:+ p +:+ "'"
    | None => message
    end in
  match edest e with
  | Some d => message +:+ " -> '" +:+ d +:+ "'"
  | None => message
  end.

(** The tree: absolute normalized paths to nodes; the root directory is
    always there and needs no entry. *)
Abbreviation tree := (gmap string node).

Definition lookup_node (t : tree) (p : string) : option node :=
  if bool_decide (p = "/") then Some Dir else t !! p.

(** [fs.promises.access(p, F_OK)] *)
Definition access (t : tree) (p : string) : unit + fs_error :=
  match lookup_node t p with
  | Some _ => inl tt
  | None => inr (FsError ENOENT "access" (Some p) None)
  end.

(** [fs.promises.unlink(p)] *)
Definition unlink (t : tree) (p : string) : tree + fs_error :=
  match lookup_node t p with
  | Some (File _) => inl (delete p t)
  | Some Dir => inr (FsError EISDIR "unlink" (Some p) None)
  | None => inr (FsError ENOENT "unlink" (Some p) None)
  end.

(** [fs.promises.mkdir(p, { recursive: true })]: nothing to do when [p]
    is a directory; otherwise the parent is made first.  [p0] is the
    path the call was made with and is the one named in an error. *)
Fixpoint mkdir_p (fuel : nat) (p0 : string) (t : tree) (p : string) : tree + fs_error :=
  match lookup_node t p with
  | Some Dir => inl t
  | Some (File _) =>
      inr (FsError (if bool_decide (p = p0) then EEXIST else ENOTDIR) "mkdir" (Some p0) None)
  | None =>
      match fuel with
      | O => inr (FsError ENOENT "mkdir" (Some p0) None)
      | S fuel' =>
          match mkdir_p fuel' p0 t (Path.dirname p) with
          | inl t' => inl (<[p := Dir]> t')
          | inr e => inr e
          end
      end
  end.

Definition mkdir_recursive (t : tree) (p : string) : tree + fs_error :=
  mkdir_p (String.length p) p t p.

(** Entries strictly below directory [d]. *)
Definition below (d : string) (p : string) : bool := Js.startsWith p (d +:+ "/").

Definition subtree (t : tree) (d : string) : tree :=
  filter (fun kv => below d (fst kv) = true) t.

Definition outside (t : tree) (d : string) : tree :=
  filter (fun kv => below d (fst kv) = false) t.

Definition rebase (src dst : string) (p : string) : string :=
  dst +:+ Js.slice (String.length src) (String.length p) p.

(** [fs.promises.rename(src, dst)] after rename(2): a regular file
    replaces a regular file at [dst] in one step; a directory moves with
    everything below it. *)
Definition rename (t : tree) (src dst : string) : tree + fs_error :=
  let err c := inr (FsError c "rename" (Some src) (Some dst)) in
  match lookup_node t src with
  | None => err ENOENT
  | Some n =>
      if bool_decide (src = dst) then inl t
      else
        match lookup_node t (Path.dirname dst) with
        | None => err ENOENT
        | Some (File _) => err ENOTDIR
        | Some Dir =>
            match n, lookup_node t dst with
            | File c, Some Dir => err EISDIR
            | File c, _ => inl (<[dst := File c]> (delete src t))
            | Dir, Some (File _) => err ENOTDIR
            | Dir, _ =>
                if bool_decide (src = "/") || below src dst then err EINVAL
                else if negb (bool_decide (subtree t dst = ∅)) then err ENOTEMPTY
                else
                  let moved : tree :=
                    list_to_map (map (fun kv => (rebase src dst (fst kv), snd kv))
                                     (map_to_list (subtree t src))) in
                  inl (<[dst := Dir]> (moved ∪ delete src (outside t src)))
            end
        end
  end.

(** The chunks a read stream hands out, [highWaterMark] bytes at a
    time. *)
Fixpoint chunks_of (fuel : nat) (n : nat) (bs : list byte) : list (list byte) :=
  match fuel, bs with
  | S fuel', _ :: _ => take n bs :: chunks_of fuel' n (drop n bs)
  | _, _ => []
  end.

Definition highWaterMark : nat := 64 * 1024.

(** [fs.createReadStream(p)] read to its end: the ["data"] chunks, or
    the ["error"].  A directory can be opened; it is the first [read]
    that fails, and its error names no path. *)
Definition createReadStream (t : tree) (p : string) : list (list byte) + fs_error :=
  match lookup_node t p with
  | Some (File c) => inl (chunks_of (length c) highWaterMark c)
  | Some Dir => inr (FsError EISDIR "read" None None)
  | None => inr (FsError ENOENT "open" (Some p) None)
  end.

(** [fs.createWriteStream(p, { flags: "w" })]: the file is created or
    cut to length zero when the stream opens. *)
Definition open_w (t : tree) (p : string) : tree + fs_error :=
  match lookup_node t p with
  | Some Dir => inr (FsError EISDIR "open" (Some p) None)
  | _ =>
      match lookup_node t (Path.dirname p) with
      | Some Dir => inl (<[p := File []]> t)
      | Some (File _) => inr (FsError ENOTDIR "open" (Some p) None)
      | None => inr (FsError ENOENT "open" (Some p) None)
      end
  end.

(** One chunk written at the end of the open file. *)
Definition write_chunk (t : tree) (p : string) (chunk : list byte) : tree :=
  match t !! p with
  | Some (File c) => <[p := File (c ++ chunk)]> t
  | _ => t
  end.

(** [source.pipe(fs.createWriteStream(p, { flags: "w" }))] run until
    ["finish"] or ["error"]. *)
Definition pipe_to_file (t : tree) (p : string) (chunks : list (list byte)) : tree + fs_error :=
  match open_w t p with
  | inl t' => inl (fold_left (fun t c => write_chunk t p c) chunks t')
  | inr e => inr e
  end.

End Fs.

(* ===================================================================== *)
(** * Errors, results and the effect of a handler on the tree *)
(* ===================================================================== *)

(** What a [throw] or a rejected promise carries. *)
Inductive error :=
  | InvalidPathError
  | IoError (e : Fs.fs_error).

(** [err.message] *)
Definition message (e : error) : string :=
  match e with
  | InvalidPathError => "Invalid path"
  | IoError e => Fs.error_message e
  end.

Inductive result (A : Type) :=
  | Ok (a : A)
  | Err (e : error).
Arguments Ok {A} a.
Arguments Err {A} e.

(** A computation that may change the tree and may throw. *)
Definition M (A : Type) : Type := Fs.tree → Fs.tree * result A.

Definition ret {A} (a : A) : M A := fun t => (t, Ok a).
Definition throw {A} (e : error) : M A := fun t => (t, Err e).
Definition bind {A B} (m : M A) (k : A → M B) : M B :=
  fun t => match m t with
           | (t', Ok a) => k a t'
           | (t', Err e) => (t', Err e)
           end.
Definition try_catch {A} (m : M A) (handler : error → M A) : M A :=
  fun t => match m t with
           | (t', Ok a) => (t', Ok a)
           | (t', Err e) => handler e t'
           end.
Definition lift {A} (r : result A) : M A := fun t => (t, r).

Notation "'let*' x ':=' m 'in' k" := (bind m (fun x => k))
  (at level 10, x pattern, m at level 100, k at level 200).
Notation "'await' m 'in' k" := (bind m (fun _ => k))
  (at level 10, m at level 100, k at level 200).

(** The [fs.promises] calls as computations. *)
Definition fs_access (p : string) : M unit :=
  fun t => match Fs.access t p with
           | inl u => (t, Ok u)
           | inr e => (t, Err (IoError e))
           end.
Definition fs_update (op : Fs.tree → Fs.tree + Fs.fs_error) : M unit :=
  fun t => match op t with
           | inl t' => (t', Ok tt)
           | inr e => (t, Err (IoError e))
           end.
Definition fs_unlink (p : string) : M unit := fs_update (fun t => Fs.unlink t p).
Definition fs_mkdir_recursive (p : string) : M unit :=
  fs_update (fun t => Fs.mkdir_recursive t p).
Definition fs_rename (src dst : string) : M unit :=
  fs_update (fun t => Fs.rename t src dst).

(* ===================================================================== *)
(** * HTTP requests and responses *)
(* ===================================================================== *)

Inductive json :=
  | JString (s : string)
  | JNumber (n : Z)
  | JBool (b : bool).

(** A response: status and either the members of the JSON object sent
    with [res.json], or the page of the framework's own error handler. *)
Inductive payload :=
  | JsonBody (members : list (string * json))
  | ErrorPage (text : string).

Record response := Response { status : Z; body : payload }.

Fixpoint assoc (k : string) (l : list (string * json)) : option json :=
  match l with
  | [] => None
  | (k', v) :: l' => if bool_decide (k = k') then Some v else assoc k l'
  end.

(** A member of the JSON object of a response. *)
Definition member (r : response) (k : string) : option json :=
  match body r with
  | JsonBody ms => assoc k ms
  | ErrorPage _ => None
  end.

(** [req.file] as multer leaves it. *)
Record uploaded_file := UploadedFile {
  originalname : string;
  filename : string;
  size : Z
}.

(** A request to [POST /:bucket] once the upload middleware has run. *)
Record post_request := PostRequest {
  post_bucket : string;                       (* req.params.bucket *)
  post_body : option (gmap string string);    (* req.body, text fields *)
  post_file : option uploaded_file            (* req.file *)
}.

(** A request to [PUT /:bucket/:key]. *)
Record put_request := PutRequest {
  put_bucket : string;                        (* req.params.bucket *)
  put_key : option string;                    (* req.params.key *)
  put_stream : list (list Fs.byte)            (* the body, chunk by chunk *)
}.

(** [(req.body && (req.body.key || req.body.Key)) || ""] *)
Definition rawKey (body : option (gmap string string)) : string :=
  match body with
  | Some b => default "" (Js.or_undef (b !! "key") (b !! "Key"))
  | None => ""
  end.

(* ===================================================================== *)
(** * main.mjs *)
(* ===================================================================== *)

Section Server.

(** [process.cwd()] and the directory of [main.mjs]. *)
Variable cwd : string.
Variable __dirname : string.

Definition publicRoot : string := Path.resolve cwd [__dirname; "public"].

Definition resolveSafePath (rootDir : string) (segments : list string) : result string :=
  let unsafePath := Path.join segments in
  let resolved := Path.resolve cwd [rootDir; unsafePath] in
  let normalizedRoot :=
    if Js.endsWith rootDir Path.sep then rootDir else rootDir +:+ Path.sep in
  if negb (Js.startsWith (resolved +:+ Path.sep) normalizedRoot)
  then Err InvalidPathError
  else Ok resolved.

Definition computeFileSha256Hex (filePath : string) : M string :=
  fun t =>
    let hash := Sha256.createHash in
    match Fs.createReadStream t filePath with
    | inl chunks => (t, Ok (Sha256.digest_hex (fold_left Sha256.update chunks hash)))
    | inr e => (t, Err (IoError e))
    end.

(** [storage.destination]: the result is what the callback [cb] is
    called with. *)
Definition storage_destination (req : post_request) : M string :=
  let bucket := post_bucket req in
  let rawKey := rawKey (post_body req) in
  let key := rawKey in
  let dirName := if Js.truthy key then Path.dirname key else "" in
  let finalDir := if bool_decide (dirName = ".") then "" else dirName in
  let* destDir := lift (resolveSafePath publicRoot [bucket; finalDir]) in
  await fs_mkdir_recursive destDir in
  ret destDir.

(** [storage.filename]; [randomBytes] is what [crypto.randomBytes(16)]
    returned. *)
Definition storage_filename (randomBytes : list Fs.byte)
    (req : post_request) (file_originalname : string) : string :=
  let rawKey := rawKey (post_body req) in
  let key := Js.or rawKey "" in
  let extSource := Js.or (Js.or key file_originalname) "" in
  let ext := Path.extname extSource in
  let hash := Sha256.bytes_hex randomBytes in
  let hashedName := hash +:+ ext in
  hashedName.

(** The inner [try]/[catch] of the upload route: an existing object
    keeps its place and the staged file goes; otherwise the staged file
    takes the final name. *)
Definition finalize (tempPath finalPath : string) : M unit :=
  try_catch
    (await fs_access finalPath in
     fs_unlink tempPath)
    (fun _ =>
     await fs_mkdir_recursive (Path.dirname finalPath) in
     fs_rename tempPath finalPath).

(** [app.post("/:bucket", upload.single("file"), ...)], the handler. *)
Definition post_handler (req : post_request) : Fs.tree → Fs.tree * response :=
  fun t =>
  let bucket := post_bucket req in
  let rawKey := rawKey (post_body req) in
  let fullKey := Js.or rawKey "" in
  let dirName := if Js.truthy fullKey then Path.dirname fullKey else "" in
  let finalDir := if bool_decide (dirName = ".") then "" else dirName in
  let savedFileName := default "" (filename <$> post_file req) in
  if negb (Js.truthy savedFileName) then
    (t, Response 400 (JsonBody [("error", JString "Missing uploaded file")]))
  else
    let tempKey :=
      if Js.truthy finalDir then Path.join [finalDir; savedFileName] else savedFileName in
    let ext :=
      Path.extname (Js.or (Js.or (default "" (originalname <$> post_file req)) fullKey) "") in
    let run : M response :=
      let* tempPath := lift (resolveSafePath publicRoot [bucket; tempKey]) in
      let* sha256Hex := computeFileSha256Hex tempPath in
      let hashedName := sha256Hex +:+ ext in
      let finalKey :=
        if Js.truthy finalDir then Path.join [finalDir; hashedName] else hashedName in
      let* finalPath := lift (resolveSafePath publicRoot [bucket; finalKey]) in
      await finalize tempPath finalPath in
      let urlPath :=
        Js.replace_backslashes ("/public/" +:+ bucket +:+ "/" +:+ finalKey) in
      ret (Response 200 (JsonBody
             [("bucket", JString bucket); ("key", JString finalKey);
              ("path", JString finalPath); ("url", JString urlPath);
              ("size", JNumber (default 0 (size <$> post_file req)));
              ("sha256", JString sha256Hex)]))
    in
    match run t with
    | (t', Ok r) => (t', r)
    | (t', Err err) => (t', Response 400 (JsonBody [("error", JString (message err))]))
    end.

(** [app.put] for [/:bucket/:key] *)
Definition put_handler (req : put_request) : Fs.tree → Fs.tree * response :=
  fun t =>
  let bucket := put_bucket req in
  let key := default "" (put_key req) in
  if negb (Js.truthy key) then
    (t, Response 400 (JsonBody [("error", JString "Missing key")]))
  else
    let prepare : M string :=
      let* outPath := lift (resolveSafePath publicRoot [bucket; key]) in
      await fs_mkdir_recursive (Path.dirname outPath) in
      ret outPath in
    match prepare t with
    | (t1, Ok outPath) =>
        match Fs.pipe_to_file t1 outPath (put_stream req) with
        | inl t2 =>
            (* writeStream.on("finish") *)
            let urlPath :=
              Js.replace_backslashes ("/public/" +:+ bucket +:+ "/" +:+ key) in
            (t2, Response 200 (JsonBody
                   [("bucket", JString bucket); ("key", JString key);
                    ("path", JString outPath); ("url", JString urlPath)]))
        | inr err =>
            (* writeStream.on("error") *)
            (t1, Response 500 (JsonBody [("error", JString (Fs.error_message err))]))
        end
    | (t1, Err err) =>
        (t1, Response 400 (JsonBody [("error", JString (message err))]))
    end.

End Server.

(* ===================================================================== *)
(** * Vocabulary of the specification *)
(* ===================================================================== *)

(** ** Path containment *)

(** [p] names the directory [rootDir] itself; [rootDir] may or may not
    be written with a separator at its end. *)
Definition same_path (rootDir p : string) : Prop :=
  p = rootDir ∨ p +:+ "/" = rootDir.

(** [p] is a path-separator-bounded descendant of [rootDir]: it
    continues [rootDir], and a separator stands where [rootDir] ends. *)
Definition descendant (rootDir p : string) : Prop :=
  ∃ rest, p = rootDir +:+ rest ∧ rest ≠ "" ∧
          (Js.endsWith rootDir "/" = true ∨ Js.startsWith rest "/" = true).

Definition within (rootDir p : string) : Prop :=
  same_path rootDir p ∨ descendant rootDir p.

(** A string without separator. *)
Fixpoint no_sep (s : string) : bool :=
  match s with
  | EmptyString => true
  | String c s' => negb (Path.is_sep c) && no_sep s'
  end.

(** A path component proper: a name, neither empty nor [.] nor [..]. *)
Definition plain (seg : string) : Prop :=
  seg ≠ "" ∧ seg ≠ "." ∧ seg ≠ ".." ∧ no_sep seg = true.

(** The absolute path with the given components. *)
Definition abs_path (comps : list string) : string := "/" +:+ Path.join_sep comps.

(** A lexically normalized absolute path. *)
Definition canonical (p : string) : Prop :=
  ∃ comps, Forall plain comps ∧ p = abs_path comps.

(** Every component followed by a separator. *)
Fixpoint join_all (l : list string) : string :=
  match l with
  | [] => ""
  | x :: l' => x +:+ "/" +:+ join_all l'
  end.

(** What the loop of [path.join] appends for the remaining arguments. *)
Fixpoint join_tail (args : list string) : string :=
  match args with
  | [] => ""
  | arg :: rest =>
      if Js.truthy arg then "/" +:+ arg +:+ join_tail rest else join_tail rest
  end.

(** What the scan of [extname] keeps true while [n] characters are
    still to be looked at. *)
Definition ext_ok (path : string) (n : nat) (st : Path.ext_state) : Prop :=
  (∀ sd, Path.startDot st = Some sd → ∃ e, Path.end_ st = Some e ∧ (n ≤ sd < e)%nat) ∧
  (∀ e, Path.end_ st = Some e →
     Path.matchedSlash st = false ∧ (n ≤ e)%nat ∧
     ∀ j ch, (n ≤ j < e)%nat → String.get j path = Some ch → Path.is_sep ch = false).

(** What it has established at its end. *)
Definition ext_done (path : string) (st : Path.ext_state) : Prop :=
  ∀ sd e, Path.startDot st = Some sd → Path.end_ st = Some e →
    ∀ j ch, (sd ≤ j < e)%nat → String.get j path = Some ch → Path.is_sep ch = false.


(** ** Uploads *)

(** The logical key of an upload, [fullKey]. *)
Definition upload_key (req : post_request) : string :=
  Js.or (rawKey (post_body req)) "".

(** The directory an upload goes to inside its bucket, [finalDir]: the
    directory part of the logical key, [.] standing for none. *)
Definition upload_dir (req : post_request) : string :=
  let fullKey := upload_key req in
  let dirName := if Js.truthy fullKey then Path.dirname fullKey else "" in
  if bool_decide (dirName = ".") then "" else dirName.

(** The name multer stored the upload under, [savedFileName]. *)
Definition upload_saved_name (req : post_request) : string :=
  default "" (filename <$> post_file req).

(** The name the client gave the file. *)
Definition upload_original_name (req : post_request) : string :=
  default "" (originalname <$> post_file req).

(** Where the extension of the final name is taken from: the name the
    client gave the file, and the logical key when that name is empty. *)
Definition upload_ext_source (req : post_request) : string :=
  Js.or (Js.or (upload_original_name req) (upload_key req)) "".

(** The extension of the final name, [ext]. *)
Definition upload_ext (req : post_request) : string :=
  Path.extname (upload_ext_source req).

(** A name inside the upload directory: [tempKey], [finalKey]. *)
Definition key_in (finalDir name : string) : string :=
  if Js.truthy finalDir then Path.join [finalDir; name] else name.

(** The final key of an upload whose content has fingerprint [sha]. *)
Definition final_key (req : post_request) (sha : string) : string :=
  key_in (upload_dir req) (sha +:+ upload_ext req).

(** The last component of a key: its leaf name. *)
Definition leaf (key : string) : string :=
  default "" (last (Path.split key)).

(** The answer to an upload that went through. *)
Definition post_success (req : post_request) (sha finalPath : string) : response :=
  Response 200 (JsonBody
    [("bucket", JString (post_bucket req));
     ("key", JString (final_key req sha));
     ("path", JString finalPath);
     ("url", JString (Js.replace_backslashes
               ("/public/" +:+ post_bucket req +:+ "/" +:+ final_key req sha)));
     ("size", JNumber (default 0 (size <$> post_file req)));
     ("sha256", JString sha)]).

(** The staged path and the final path of an upload, as the handler
    resolves them under the public root; [cwd] is the working directory
    and [dir] the directory of [main.mjs]. *)
Definition staged_path (cwd dir : string) (req : post_request) : result string :=
  resolveSafePath cwd (publicRoot cwd dir)
    [post_bucket req; key_in (upload_dir req) (upload_saved_name req)].

Definition final_path (cwd dir : string) (req : post_request) (sha : string)
    : result string :=
  resolveSafePath cwd (publicRoot cwd dir) [post_bucket req; final_key req sha].

(** The answer to a failed request, with the status it is sent under. *)
Definition failure (code : Z) (text : string) : response :=
  Response code (JsonBody [("error", JString text)]).

(** ** Direct writes *)

(** The answer to a direct write that finished. *)
Definition put_success (req : put_request) (key outPath : string) : response :=
  Response 200 (JsonBody
    [("bucket", JString (put_bucket req)); ("key", JString key);
     ("path", JString outPath);
     ("url", JString (Js.replace_backslashes
                        ("/public/" +:+ put_bucket req +:+ "/" +:+ key)))]).


(** ** A server to run the examples on *)

(** [main.mjs] lives in [/srv/app]; its public root is there already. *)
Definition app_dir : string := "/srv/app".

Definition tree0 : Fs.tree :=
  {[ "/srv" := Fs.Dir; "/srv/app" := Fs.Dir; "/srv/app/public" := Fs.Dir ]}.

(** The bucket [docs] with the upload directory [a/b]. *)
Definition hello_dir_tree : Fs.tree :=
  <["/srv/app/public/docs" := Fs.Dir]>
  (<["/srv/app/public/docs/a" := Fs.Dir]>
  (<["/srv/app/public/docs/a/b" := Fs.Dir]> tree0)).

(** An upload of ["hello"] under the key [a/b/file.txt], stored by
    multer under the name [saved]. *)
Definition hello_request (saved : string) : post_request :=
  PostRequest "docs" (Some {[ "key" := "a/b/file.txt" ]})
    (Some (UploadedFile "file.txt" saved 5)).

(** The tree with such uploads staged under the given names. *)
Definition hello_staged (names : list string) : Fs.tree :=
  foldr (fun n t =>
           <["/srv/app/public/docs/a/b/" +:+ n := Fs.File (bytes_of_string "hello")]> t)
    hello_dir_tree names.

Definition hello_sha : string :=
  "2cf24dba5fb0a30e26e83b2ac5b9e29e1b161e5c1fa7425e73043362938b9824".

Definition hello_final : string :=
  "/srv/app/public/docs/a/b/" +:+ hello_sha +:+ ".txt".

(** ** Fingerprints *)

(** A lowercase hexadecimal digit. *)
Definition is_lower_hex (c : ascii) : bool :=
  match c with
  | "0" | "1" | "2" | "3" | "4" | "5" | "6" | "7" | "8" | "9"
  | "a" | "b" | "c" | "d" | "e" | "f" => true
  | _ => false
  end%char.

Fixpoint all_chars (P : ascii → bool) (s : string) : bool :=
  match s with
  | EmptyString => true
  | String c s' => P c && all_chars P s'
  end.

(** The content fingerprint of a byte sequence. *)
Definition fingerprint (content : list Fs.byte) : string :=
  Sha256.regs_hex (Sha256.sha256 content).

(** ** Pieces of a path *)

(** A piece that [normalizeString] passes over: empty, or [.]. *)
Definition skipped (seg : string) : Prop := seg = "" ∨ seg = ".".

(** A piece it looks at: any other one. *)
Definition kept (seg : string) : Prop := seg ≠ "" ∧ seg ≠ ".".

(** The components of [path.resolve(root, u)] where [root] is the
    normalized absolute path with the components [R]: the pieces of [u]
    are gone through from [R], and from nothing when [u] is absolute. *)
Definition resolved_pieces (R : list string) (u : string) : list string :=
  reverse (fold_left (Path.normalize_step false) (Path.split u)
             (if Path.isAbsolute u then [] else reverse R)).

(** ** Trees *)

(** Every entry of the tree lies in a directory. *)
Definition tree_ok (t : Fs.tree) : Prop :=
  ∀ p n, t !! p = Some n → Fs.lookup_node t (Path.dirname p) = Some Fs.Dir.

(** The same, as a test on the entries of a given tree. *)
Definition is_dir (o : option Fs.node) : bool :=
  match o with
  | Some Fs.Dir => true
  | _ => false
  end.

Definition tree_okb (t : Fs.tree) : bool :=
  forallb (fun kv => is_dir (Fs.lookup_node t (Path.dirname (fst kv)))) (map_to_list t).

(** The tree is one the server runs on: its entries lie in directories
    and [root] is a directory. *)
Definition served (root : string) (t : Fs.tree) : Prop :=
  tree_ok t ∧ Fs.lookup_node t root = Some Fs.Dir.

(** [q] is [p] or a directory above it, both normalized absolute
    paths. *)
Definition above (q p : string) : Prop :=
  ∃ C1 C2, Forall plain (C1 ++ C2) ∧ q = abs_path C1 ∧ p = abs_path (C1 ++ C2).

(** [q] is strictly below [root]. *)
Definition inside (root q : string) : Prop := above root q ∧ q ≠ root.

(** ** Staging *)

(** The request as the handler sees it once [file] has been stored. *)
Definition with_file (req : post_request) (file : uploaded_file) : post_request :=
  PostRequest (post_bucket req) (post_body req) (Some file).

(** What multer's disk storage does with the file part of an upload:
    it asks [storage.destination] for the directory and
    [storage.filename] for the name, writes the part to
    [path.join(destination, filename)], and leaves the record that
    becomes [req.file].  [req] is the request as it is when the part
    arrives, [originalname] the file name the client sent and [stream]
    the bytes of the part, chunk by chunk. *)
Definition storage_handleFile (cwd dir : string) (randomBytes : list Fs.byte)
    (req : post_request) (file_originalname : string) (stream : list (list Fs.byte))
    : M uploaded_file :=
  let* destination := storage_destination cwd dir req in
  let filename := storage_filename randomBytes req file_originalname in
  let finalPath := Path.join [destination; filename] in
  await fs_update (fun t => Fs.pipe_to_file t finalPath stream) in
  ret (UploadedFile file_originalname filename (Z.of_nat (length (concat stream)))).

(** ** Start *)

(** [fs.mkdirSync(publicRoot, { recursive: true })], run once when the
    module is loaded. *)
Definition startup (cwd dir : string) : M unit :=
  fs_mkdir_recursive (publicRoot cwd dir).

(** ** Clean keys *)

(** A string without backslash. *)
Fixpoint no_backslash (s : string) : bool :=
  match s with
  | EmptyString => true
  | String c s' => negb (bool_decide (c = "\"%char)) && no_backslash s'
  end.

(** A name that [path] and the URL read alike. *)
Definition clean (seg : string) : Prop := plain seg ∧ no_backslash seg = true.

(** ** Paths a file system takes *)

(** The tree takes any string as a path.  A file system does not: a
    call with a path of [PATH_MAX] bytes or more, or with a component
    of more than [NAME_MAX] bytes, fails with [ENAMETOOLONG], and Node
    refuses a path that holds a NUL byte before it makes any call.  The
    limits are those of Linux. *)
Definition NAME_MAX : nat := 255.
Definition PATH_MAX : nat := 4096.

Fixpoint no_nul (s : string) : bool :=
  match s with
  | EmptyString => true
  | String c s' => negb (bool_decide (c = "000"%char)) && no_nul s'
  end.

(** [p] is within these limits. *)
Definition fits (p : string) : bool :=
  no_nul p
  && bool_decide (String.length p < PATH_MAX)%nat
  && forallb (λ seg, bool_decide (String.length seg ≤ NAME_MAX)%nat) (Path.split p).

(** ** Uploads that finalize at the same time *)

(** The handler runs on one thread and gives way at each [await]: the
    file-system calls of two requests interleave, each call being one
    step.  A task is the [finalize] block of one request, stopped before
    its next call. *)
Inductive pc :=
  | AtAccess                (* before [access(finalPath)] *)
  | AtUnlink                (* before [unlink(tempPath)] *)
  | AtMkdir                 (* in the [catch], before [mkdir] *)
  | AtRename                (* before [rename(tempPath, finalPath)] *)
  | Resolved                (* the block is through *)
  | Rejected (e : error).   (* the block threw [e] *)

Record task := Task {
  task_temp : string;
  task_final : string;
  task_pc : pc
}.

Inductive fs_call :=
  | CallAccess (p : string)
  | CallUnlink (p : string)
  | CallMkdir (p : string)
  | CallRename (src dst : string).

(** One call, with whether it succeeded. *)
Record event := Event {
  ev_call : fs_call;
  ev_ok : bool
}.

(** The next call of a task: the tree after it, the task after it, and
    what happened. *)
Definition task_step (tk : task) (t : Fs.tree) : Fs.tree * task * option event :=
  let tempPath := task_temp tk in
  let finalPath := task_final tk in
  let at_ p := Task tempPath finalPath p in
  match task_pc tk with
  | AtAccess =>
      match Fs.access t finalPath with
      | inl _ => (t, at_ AtUnlink, Some (Event (CallAccess finalPath) true))
      | inr _ => (t, at_ AtMkdir, Some (Event (CallAccess finalPath) false))
      end
  | AtUnlink =>
      match Fs.unlink t tempPath with
      | inl t' => (t', at_ Resolved, Some (Event (CallUnlink tempPath) true))
      | inr _ => (t, at_ AtMkdir, Some (Event (CallUnlink tempPath) false))
      end
  | AtMkdir =>
      match Fs.mkdir_recursive t (Path.dirname finalPath) with
      | inl t' => (t', at_ AtRename, Some (Event (CallMkdir (Path.dirname finalPath)) true))
      | inr e =>
          (t, at_ (Rejected (IoError e)),
           Some (Event (CallMkdir (Path.dirname finalPath)) false))
      end
  | AtRename =>
      match Fs.rename t tempPath finalPath with
      | inl t' => (t', at_ Resolved, Some (Event (CallRename tempPath finalPath) true))
      | inr e =>
          (t, at_ (Rejected (IoError e)),
           Some (Event (CallRename tempPath finalPath) false))
      end
  | Resolved | Rejected _ => (t, tk, None)
  end.

(** A task run on its own for [n] calls. *)
Fixpoint task_run (n : nat) (tk : task) (t : Fs.tree) : Fs.tree * task :=
  match n with
  | O => (t, tk)
  | S n' => let '(t', tk', _) := task_step tk t in task_run n' tk' t'
  end.

(** Two requests in flight: the tree they share, their tasks, and the
    calls made so far by each, latest first. *)
Record system := System {
  sys_tree : Fs.tree;
  sys_first : task;
  sys_second : task;
  log_first : list event;
  log_second : list event
}.

Definition add_event (o : option event) (l : list event) : list event :=
  match o with
  | Some e => e :: l
  | None => l
  end.

(** The event loop resumes the first ([true]) or the second ([false])
    request for one call. *)
Definition system_step (s : system) (first : bool) : system :=
  if first then
    let '(t', tk', ev) := task_step (sys_first s) (sys_tree s) in
    System t' tk' (sys_second s) (add_event ev (log_first s)) (log_second s)
  else
    let '(t', tk', ev) := task_step (sys_second s) (sys_tree s) in
    System t' (sys_first s) tk' (log_first s) (add_event ev (log_second s)).

Definition system_run (schedule : list bool) (s : system) : system :=
  fold_left system_step schedule s.

(** Two uploads about to finalize to the same path. *)
Definition racing (t : Fs.tree) (temp1 temp2 finalPath : string) : system :=
  System t (Task temp1 finalPath AtAccess) (Task temp2 finalPath AtAccess) [] [].

(** How often a request is resumed by a schedule. *)
Definition turns (who : bool) (schedule : list bool) : nat :=
  length (filter (fun b => b = who) schedule).

(** The answer the handler sends once the block is through or has
    thrown; [None] while it is still under way. *)
Definition task_response (req : post_request) (sha : string) (tk : task)
    : option response :=
  match task_pc tk with
  | Resolved => Some (post_success req sha (task_final tk))
  | Rejected e => Some (failure 400 (message e))
  | _ => None
  end.

(** An upper bound on the calls a task has still to make when no call
    of the [catch] branch fails. *)
Definition calls_left (p : pc) : nat :=
  match p with
  | AtAccess => 3
  | AtMkdir => 2
  | AtUnlink => 1
  | AtRename => 1
  | Resolved => 0
  | Rejected _ => 0
  end.

(** The one call that may fail without harm: the check for the final
    path, which fails when no object is there yet. *)
Definition only_access_fails (ev : event) : Prop :=
  ev_ok ev = true ∨ ∃ p, ev_call ev = CallAccess p.

(** What holds at every moment while two uploads of content [c], staged
    at [temp1] and [temp2], finalize to [finalPath] in a tree that
    started as [t0], with [orig] at the final path: a regular file, a
    directory, or nothing. *)
Definition race_tree_inv (t0 : Fs.tree) (temp1 temp2 finalPath : string)
    (c : list Fs.byte) (orig : option Fs.node) (t : Fs.tree) : Prop :=
  (∀ q, q ≠ finalPath → q ≠ temp1 → q ≠ temp2 → t !! q = t0 !! q) ∧
  (Fs.lookup_node t finalPath = orig ∨
   (orig = None ∧ Fs.lookup_node t finalPath = Some (Fs.File c))).

(** What holds of a task whose staged file is [temp]. *)
Definition race_task_inv (finalPath : string)
    (c : list Fs.byte) (orig : option Fs.node)
    (temp : string) (t : Fs.tree) (tk : task) : Prop :=
  task_temp tk = temp ∧ task_final tk = finalPath ∧
  match task_pc tk with
  | AtAccess => t !! temp = Some (Fs.File c)
  | AtUnlink => t !! temp = Some (Fs.File c) ∧ is_Some (Fs.lookup_node t finalPath)
  | AtMkdir | AtRename => t !! temp = Some (Fs.File c) ∧ orig = None
  | Resolved =>
      t !! temp = None ∧
      Fs.lookup_node t finalPath = Some (default (Fs.File c) orig)
  | Rejected _ => False
  end.

(** What holds of the two requests together. *)
Definition race_system_inv (t0 : Fs.tree) (temp1 temp2 finalPath : string)
    (c : list Fs.byte) (orig : option Fs.node) (s : system) : Prop :=
  race_tree_inv t0 temp1 temp2 finalPath c orig (sys_tree s) ∧
  race_task_inv finalPath c orig temp1 (sys_tree s) (sys_first s) ∧
  race_task_inv finalPath c orig temp2 (sys_tree s) (sys_second s) ∧
  Forall only_access_fails (log_first s) ∧
  Forall only_access_fails (log_second s).

(** The platform functions are unfolded by hand in the proofs below. *)
Arguments Sha256.sha256 : simpl never.
Arguments Sha256.regs_hex : simpl never.
Arguments Sha256.digest_hex : simpl never.
Arguments fingerprint : simpl never.
Arguments Path.resolve : simpl never.
Arguments Path.join : simpl never.
Arguments Path.normalize : simpl never.
Arguments Path.normalizeString : simpl never.
Arguments Path.dirname : simpl never.
Arguments Path.extname : simpl never.
Arguments resolveSafePath : simpl never.
Arguments publicRoot : simpl never.

(** ** Tactics for closed goals *)

(** A closed equation true by evaluation of the model. *)
Ltac by_evaluation := vm_compute; reflexivity.

(** Two literals that differ. *)
Ltac distinct :=
  let H := fresh "H" in intros H; vm_compute in H; discriminate H.
(* ===================================================================== *)
(** * The platform model on the examples of its documentation *)
(* ===================================================================== *)

Section PathExamples.
Import Path.
Example ex_norm1 : normalize "/foo/bar//baz/asdf/quux/.." = "/foo/bar/baz/asdf".
Proof. reflexivity. Qed.
Example ex_norm2 : normalize "a/../../b/" = "../b/".
Proof. reflexivity. Qed.
Example ex_norm3 : normalize "./" = "./".
Proof. reflexivity. Qed.
Example ex_norm4 : normalize "/.." = "/".
Proof. reflexivity. Qed.
Example ex_join1 : join ["/foo"; "bar"; "baz/asdf"; "quux"; ".."] = "/foo/bar/baz/asdf".
Proof. reflexivity. Qed.
Example ex_join2 : join ["docs"; ""] = "docs".
Proof. reflexivity. Qed.
Example ex_join3 : join [] = ".".
Proof. reflexivity. Qed.
Example ex_join4 : join ["docs"; "/etc/passwd"] = "docs/etc/passwd".
Proof. reflexivity. Qed.
Example ex_res1 : resolve "/home/u" ["/foo/bar"; "./baz"] = "/foo/bar/baz".
Proof. reflexivity. Qed.
Example ex_res2 : resolve "/home/u" ["/foo/bar"; "/tmp/file/"] = "/tmp/file".
Proof. reflexivity. Qed.
Example ex_res3 : resolve "/home/u" ["wwwroot"; "static_files/png/"; "../gif/image.gif"] = "/home/u/wwwroot/static_files/gif/image.gif".
Proof. reflexivity. Qed.
Example ex_res4 : resolve "/home/u" ["/a"; "../../.."] = "/".
Proof. reflexivity. Qed.
Example ex_dir1 : dirname "/foo/bar/baz/asdf/quux" = "/foo/bar/baz/asdf".
Proof. reflexivity. Qed.
Example ex_dir2 : dirname "file.txt" = ".".
Proof. reflexivity. Qed.
Example ex_dir3 : dirname "a/b/" = "a".
Proof. reflexivity. Qed.
Example ex_dir4 : dirname "/a" = "/".
Proof. reflexivity. Qed.
Example ex_dir5 : dirname "//a" = "//".
Proof. reflexivity. Qed.
Example ex_dir6 : dirname "a//b" = "a/".
Proof. reflexivity. Qed.
Example ex_ext1 : extname "index.html" = ".html".
Proof. reflexivity. Qed.
Example ex_ext2 : extname "index.coffee.md" = ".md".
Proof. reflexivity. Qed.
Example ex_ext3 : extname "index." = ".".
Proof. reflexivity. Qed.
Example ex_ext4 : extname "index" = "".
Proof. reflexivity. Qed.
Example ex_ext5 : extname ".index" = "".
Proof. reflexivity. Qed.
Example ex_ext6 : extname ".index.md" = ".md".
Proof. reflexivity. Qed.
Example ex_ext7 : extname ".." = "".
Proof. reflexivity. Qed.
Example ex_ext8 : extname "a/b.txt/" = ".txt".
Proof. reflexivity. Qed.
Example ex_ext9 : extname "a.b/c" = "".
Proof. reflexivity. Qed.
Example ex_ext10 : extname "..a" = ".a".
Proof. reflexivity. Qed.
Example ex_ext11 : extname "..." = ".".
Proof. reflexivity. Qed.
End PathExamples.

Section Sha256Examples.
Import Sha256.
Example sha_empty : regs_hex (sha256 []) =
    "e3b0c44298fc1c149afbf4c8996fb92427ae41e4649b934ca495991b7852b855".
Proof. vm_compute. reflexivity. Qed.
Example sha_abc : regs_hex (sha256 (bytes_of_string "abc")) =
    "ba7816bf8f01cfea414140de5dae2223b00361a396177a9cb410ff61f20015ad".
Proof. vm_compute. reflexivity. Qed.
Example sha_hello : regs_hex (sha256 (bytes_of_string "hello")) =
    "2cf24dba5fb0a30e26e83b2ac5b9e29e1b161e5c1fa7425e73043362938b9824".
Proof. vm_compute. reflexivity. Qed.
Example sha_two_blocks : regs_hex (sha256 (bytes_of_string
    "abcdbcdecdefdefgefghfghighijhijkijkljklmklmnlmnomnopnopq")) =
    "248d6a61d20638b8e5c026930c3e6039a33ce45964ff2167f6ecedd419db06c1".
Proof. vm_compute. reflexivity. Qed.
End Sha256Examples.

Section FsExamples.
Import Fs.

(** A tree with a file, a nested directory and an empty directory. *)
Let tree_a : tree :=
  {[ "/a" := Dir; "/a/f" := File (bytes_of_string "x"); "/a/d" := Dir;
     "/a/d/g" := File []; "/b" := Dir ]}.

Let listing (r : tree + fs_error) : list (string * node) + string :=
  match r with
  | inl t => inl (map_to_list t)
  | inr e => inr (error_message e)
  end.

Example ex_mkdir_p :
  listing (mkdir_recursive tree_a "/b/x/y")
  = inl [("/a/f", File (bytes_of_string "x")); ("/a/d/g", File []); ("/a/d", Dir);
         ("/a", Dir); ("/b/x/y", Dir); ("/b/x", Dir); ("/b", Dir)].
Proof. vm_compute. reflexivity. Qed.

Example ex_mkdir_below_file :
  listing (mkdir_recursive tree_a "/a/f/x/y")
  = inr "ENOTDIR: not a directory, mkdir '/a/f/x/y'".
Proof. vm_compute. reflexivity. Qed.

Example ex_rename_over_file :
  listing (rename tree_a "/a/f" "/a/d/g")
  = inl [("/a/d/g", File (bytes_of_string "x")); ("/a/d", Dir); ("/a", Dir); ("/b", Dir)].
Proof. vm_compute. reflexivity. Qed.

Example ex_rename_onto_dir :
  listing (rename tree_a "/a/f" "/a/d")
  = inr "EISDIR: illegal operation on a directory, rename '/a/f' -> '/a/d'".
Proof. vm_compute. reflexivity. Qed.

Example ex_rename_dir :
  listing (rename tree_a "/a" "/b/c")
  = inl [("/b/c/f", File (bytes_of_string "x")); ("/b/c/d/g", File []); ("/b/c/d", Dir);
         ("/b/c", Dir); ("/b", Dir)].
Proof. vm_compute. reflexivity. Qed.

Example ex_unlink_dir :
  listing (unlink tree_a "/a/d")
  = inr "EISDIR: illegal operation on a directory, unlink '/a/d'".
Proof. vm_compute. reflexivity. Qed.

End FsExamples.

Section StagingExamples.

(** What multer is told for the upload of the running example: the
    directory [a/b] of the bucket, made on the way, and a name with the
    extension of the key. *)
Example ex_destination :
  let '(t, r) := storage_destination app_dir app_dir (hello_request "") tree0 in
  r = Ok "/srv/app/public/docs/a/b" ∧
  t !! "/srv/app/public/docs/a/b" = Some Fs.Dir ∧
  t !! "/srv/app/public/docs/a" = Some Fs.Dir ∧
  t !! "/srv/app/public/docs" = Some Fs.Dir.
Proof. vm_compute. repeat split; reflexivity. Qed.

Example ex_filename :
  storage_filename [Byte.x00; Byte.xff; Byte.x1a] (hello_request "") "photo.png"
  = "00ff1a.txt".
Proof. vm_compute. reflexivity. Qed.

End StagingExamples.
(* ===================================================================== *)
(** * Facts about strings and paths *)
(* ===================================================================== *)

Section StringFacts.

Lemma str_app_nil_l (s : string) : "" +:+ s = s.
Proof. reflexivity. Qed.

Lemma str_app_cons (a : ascii) (s t : string) : String a s +:+ t = String a (s +:+ t).
Proof. reflexivity. Qed.

Lemma str_app_nil_r (s : string) : s +:+ "" = s.
Proof. induction s as [|a s IH]; [reflexivity|]. rewrite str_app_cons, IH. reflexivity. Qed.

Lemma str_app_assoc (s t u : string) : (s +:+ t) +:+ u = s +:+ (t +:+ u).
Proof.
  induction s as [|a s IH]; [reflexivity|].
  rewrite !str_app_cons, IH. reflexivity.
Qed.

Lemma str_app_eq_nil (s t : string) : s +:+ t = "" → s = "" ∧ t = "".
Proof. destruct s; [rewrite str_app_nil_l; auto | rewrite str_app_cons; discriminate]. Qed.

Lemma str_length_app (s t : string) :
  String.length (s +:+ t) = (String.length s + String.length t)%nat.
Proof. induction s as [|a s IH]; [reflexivity|]. rewrite str_app_cons. simpl. lia. Qed.

Lemma startsWith_nil (s : string) : Js.startsWith s "" = true.
Proof. destruct s; reflexivity. Qed.

Lemma startsWith_cons (a b : ascii) (s p : string) :
  Js.startsWith (String b s) (String a p) = bool_decide (a = b) && Js.startsWith s p.
Proof. reflexivity. Qed.

(** [startsWith] is the prefix relation. *)
Lemma startsWith_spec (s p : string) :
  Js.startsWith s p = true ↔ ∃ r, s = p +:+ r.
Proof.
  revert s. induction p as [|a p IH]; intros s.
  - rewrite startsWith_nil. split; [intros _; exists s; reflexivity | auto].
  - destruct s as [|b s].
    + split; [discriminate | intros [r Hr]; rewrite str_app_cons in Hr; discriminate].
    + rewrite startsWith_cons, andb_true_iff, bool_decide_eq_true, IH.
      split.
      * intros [-> [r ->]]. exists r. reflexivity.
      * intros [r Hr]. rewrite str_app_cons in Hr. injection Hr as -> ->. eauto.
Qed.

Lemma startsWith_app (p r : string) : Js.startsWith (p +:+ r) p = true.
Proof. apply startsWith_spec. eauto. Qed.

Lemma startsWith_app_same (p s t : string) :
  Js.startsWith (p +:+ s) (p +:+ t) = Js.startsWith s t.
Proof.
  induction p as [|a p IH]; [reflexivity|].
  rewrite !str_app_cons, startsWith_cons, IH, bool_decide_true by reflexivity.
  reflexivity.
Qed.

Lemma endsWith_unfold (s suf : string) :
  Js.endsWith s suf =
  bool_decide (s = suf) ||
  match s with EmptyString => false | String _ s' => Js.endsWith s' suf end.
Proof. destruct s; reflexivity. Qed.

(** [endsWith] is the suffix relation. *)
Lemma endsWith_spec (s suf : string) :
  Js.endsWith s suf = true ↔ ∃ r, s = r +:+ suf.
Proof.
  induction s as [|a s IH]; rewrite endsWith_unfold, orb_true_iff, bool_decide_eq_true.
  - split.
    + intros [->|?]; [exists ""; reflexivity | discriminate].
    + intros [r Hr]. symmetry in Hr. apply str_app_eq_nil in Hr as [_ ->]. auto.
  - rewrite IH. split.
    + intros [->|[r ->]]; [exists ""; reflexivity | exists (String a r); reflexivity].
    + intros [[|b r] Hr].
      * left. exact Hr.
      * right. rewrite str_app_cons in Hr. injection Hr as -> ->. eauto.
Qed.

End StringFacts.
Section Containment.

Lemma str_app_snoc_inv (s t r : string) (c : ascii) :
  s +:+ String c "" = t +:+ r → r ≠ "" →
  ∃ r', r = r' +:+ String c "" ∧ s = t +:+ r'.
Proof.
  revert s. induction t as [|a t IH]; intros s H Hr.
  - exists s. rewrite str_app_nil_l in *. auto.
  - destruct s as [|b s].
    + rewrite str_app_nil_l, str_app_cons in H. injection H as _ H.
      symmetry in H. apply str_app_eq_nil in H as [_ ->]. contradiction.
    + rewrite !str_app_cons in H. injection H as -> H.
      destruct (IH s H Hr) as [r' [-> ->]]. exists r'. auto.
Qed.

Lemma endsWith_app_sep (s : string) : Js.endsWith (s +:+ "/") "/" = true.
Proof. apply endsWith_spec. eauto. Qed.

(** The test of [resolveSafePath], read as containment. *)
Lemma startsWith_within (rootDir p : string) :
  Js.startsWith (p +:+ Path.sep)
    (if Js.endsWith rootDir Path.sep then rootDir else rootDir +:+ Path.sep) = true
  ↔ within rootDir p.
Proof.
  unfold Path.sep, within, same_path, descendant.
  destruct (Js.endsWith rootDir "/") eqn:He; rewrite startsWith_spec.
  - split.
    + intros [r Hr]. destruct (decide (r = "")) as [->|Hne].
      * rewrite str_app_nil_r in Hr. auto.
      * apply str_app_snoc_inv in Hr as [r' [-> ->]]; [|done].
        destruct (decide (r' = "")) as [->|Hne'].
        -- rewrite str_app_nil_r. auto.
        -- right. exists r'. auto.
    + intros [[->| <-]|[rest [-> _]]].
      * exists "/". reflexivity.
      * exists "". rewrite str_app_nil_r. reflexivity.
      * exists (rest +:+ "/"). apply str_app_assoc.
  - split.
    + intros [r Hr]. rewrite str_app_assoc in Hr.
      apply str_app_snoc_inv in Hr as [r' [Hr' ->]]; [|done].
      destruct r' as [|c r'].
      * rewrite str_app_nil_r. auto.
      * right. exists (String c r'). split_and!; [done|done|].
        right. rewrite str_app_cons in Hr'. injection Hr' as <- _.
        rewrite startsWith_cons, startsWith_nil. reflexivity.
    + intros [[->|Hp]|[rest [-> [Hne [?|Hs]]]]].
      * exists "". rewrite str_app_nil_r. reflexivity.
      * assert (Js.endsWith rootDir "/" = true) by (rewrite <- Hp; apply endsWith_app_sep).
        congruence.
      * congruence.
      * apply startsWith_spec in Hs as [r ->]. exists (r +:+ "/").
        rewrite !str_app_assoc. reflexivity.
Qed.
End Containment.
Section PathFacts.

Lemma split_nonempty (s : string) : Path.split s ≠ [].
Proof. induction s as [|c s IH]; simpl; [done|]. destruct (Path.is_sep c), (Path.split s); done. Qed.

Lemma split_cons_sep (s : string) : Path.split (String "/" s) = "" :: Path.split s.
Proof. reflexivity. Qed.

Lemma split_cons_other (c : ascii) (s : string) :
  Path.is_sep c = false →
  ∃ h t, Path.split s = h :: t ∧ Path.split (String c s) = String c h :: t.
Proof.
  intros Hc. simpl. rewrite Hc. destruct (Path.split s) as [|h t] eqn:E.
  - by apply split_nonempty in E.
  - eauto.
Qed.

(** Splitting distributes over a separator. *)
Lemma split_app_sep (a b : string) :
  Path.split (a +:+ "/" +:+ b) = Path.split a ++ Path.split b.
Proof.
  induction a as [|c a IH].
  - reflexivity.
  - rewrite str_app_cons. simpl. destruct (Path.is_sep c).
    + rewrite IH. reflexivity.
    + rewrite IH. destruct (Path.split a) as [|h t] eqn:E.
      * by apply split_nonempty in E.
      * reflexivity.
Qed.

Lemma split_no_sep (s : string) : no_sep s = true → Path.split s = [s].
Proof.
  induction s as [|c s IH]; [reflexivity|]. simpl.
  intros [Hc Hs]%andb_true_iff. apply negb_true_iff in Hc. rewrite Hc, (IH Hs).
  reflexivity.
Qed.

Lemma split_all_no_sep (s : string) : Forall (λ x, no_sep x = true) (Path.split s).
Proof.
  induction s as [|c s IH]; simpl.
  - repeat constructor.
  - destruct (Path.is_sep c) eqn:Hc.
    + constructor; [reflexivity | exact IH].
    + destruct (Path.split s) as [|h t]; [repeat constructor; simpl; by rewrite Hc|].
      inversion IH; subst. constructor; [|done]. simpl. by rewrite Hc.
Qed.

Lemma no_sep_app (s t : string) : no_sep (s +:+ t) = no_sep s && no_sep t.
Proof.
  induction s as [|c s IH]; [reflexivity|].
  rewrite str_app_cons. simpl. rewrite IH. by rewrite andb_assoc.
Qed.

Lemma plain_no_sep (s : string) : plain s → no_sep s = true.
Proof. by intros (_ & _ & _ & ?). Qed.

(** Splitting undoes joining plain components. *)
Lemma split_join_sep (l : list string) :
  l ≠ [] → Forall (λ x, no_sep x = true) l → Path.split (Path.join_sep l) = l.
Proof.
  induction l as [|x l IH]; [done|]. intros _ Hl.
  inversion Hl as [|? ? Hx Hl']; subst.
  destruct l as [|y l].
  - simpl. by apply split_no_sep.
  - change (Path.join_sep (x :: y :: l)) with (x +:+ "/" +:+ Path.join_sep (y :: l)).
    rewrite split_app_sep, (split_no_sep x Hx), IH; done.
Qed.

Lemma join_sep_snoc (l : list string) :
  l ≠ [] → Path.join_sep l +:+ "/" = join_all l.
Proof.
  induction l as [|x l IH]; [done|]. intros _. destruct l as [|y l].
  - simpl. by rewrite str_app_nil_r.
  - change (Path.join_sep (x :: y :: l)) with (x +:+ "/" +:+ Path.join_sep (y :: l)).
    change (join_all (x :: y :: l)) with (x +:+ "/" +:+ join_all (y :: l)).
    rewrite <- IH by done. by rewrite !str_app_assoc.
Qed.

(** Two components, each closed by a separator, compare as wholes. *)
Lemma startsWith_component (a b X Y : string) :
  no_sep a = true → no_sep b = true →
  Js.startsWith (a +:+ "/" +:+ X) (b +:+ "/" +:+ Y) = true
  ↔ a = b ∧ Js.startsWith X Y = true.
Proof.
  revert a. induction b as [|d b IH]; intros a Ha Hb.
  - destruct a as [|c a].
    + rewrite !str_app_nil_l, !str_app_cons, startsWith_cons, !str_app_nil_l.
      rewrite bool_decide_true by done. simpl. intuition congruence.
    + rewrite str_app_nil_l, !str_app_cons, startsWith_cons.
      simpl in Ha. apply andb_true_iff in Ha as [Hc _].
      apply negb_true_iff in Hc. unfold Path.is_sep in Hc.
      apply bool_decide_eq_false in Hc.
      rewrite bool_decide_false by congruence. simpl. intuition congruence.
  - simpl in Hb. apply andb_true_iff in Hb as [Hd Hb].
    apply negb_true_iff, bool_decide_eq_false in Hd.
    destruct a as [|c a].
    + rewrite str_app_nil_l, !str_app_cons, startsWith_cons.
      rewrite bool_decide_false by done. simpl. intuition congruence.
    + simpl in Ha. apply andb_true_iff in Ha as [_ Ha].
      rewrite !str_app_cons, startsWith_cons, andb_true_iff, bool_decide_eq_true.
      rewrite (IH a Ha Hb). intuition congruence.
Qed.

Lemma startsWith_join_all (R C : list string) :
  Forall (λ x, no_sep x = true) R → Forall (λ x, no_sep x = true) C →
  Js.startsWith (join_all C) (join_all R) = true ↔ R `prefix_of` C.
Proof.
  intros HR. revert C. induction HR as [|r R Hr HR IH]; intros C HC.
  - simpl. rewrite startsWith_nil. split; [intros _; apply prefix_nil | done].
  - destruct HC as [|c C Hc HC].
    + simpl. split.
      * destruct r; rewrite ?str_app_nil_l, ?str_app_cons; discriminate.
      * intros [k Hk]. discriminate.
    + change (join_all (c :: C)) with (c +:+ "/" +:+ join_all C).
      change (join_all (r :: R)) with (r +:+ "/" +:+ join_all R).
      rewrite startsWith_component, (IH C HC) by done.
      split.
      * intros [-> Hp]. by apply prefix_cons.
      * intros [k Hk]. simplify_eq/=. split; [done|]. by exists k.
Qed.

End PathFacts.
Section NormalizeFacts.

Lemma normalize_step_plain (stack : list string) (seg : string) :
  Forall plain stack → no_sep seg = true →
  Forall plain (Path.normalize_step false stack seg).
Proof.
  intros Hst Hseg. unfold Path.normalize_step.
  repeat case_bool_decide; try done.
  - destruct Hst as [|top rest Htop Hrest]; [constructor|].
    case_bool_decide; [by constructor | done].
  - constructor; [|done]. by repeat split.
Qed.

Lemma fold_normalize_plain (segs stack : list string) :
  Forall plain stack → Forall (λ x, no_sep x = true) segs →
  Forall plain (fold_left (Path.normalize_step false) segs stack).
Proof.
  revert stack. induction segs as [|seg segs IH]; intros stack Hst Hsegs; [done|].
  inversion Hsegs; subst. simpl. apply IH; [|done]. by apply normalize_step_plain.
Qed.

(** Normalizing below the root leaves plain components only. *)
Lemma normalize_segments_plain (segs : list string) :
  Forall (λ x, no_sep x = true) segs →
  Forall plain (Path.normalize_segments false segs).
Proof.
  intros H. unfold Path.normalize_segments. apply Forall_reverse.
  by apply fold_normalize_plain.
Qed.

Lemma resolve_loop_absolute (cwd : string) (rargs : list string) (acc : string) :
  Path.isAbsolute cwd = true ∨ Exists (λ p, Path.isAbsolute p = true) rargs →
  snd (Path.resolve_loop cwd rargs acc) = true.
Proof.
  revert acc. induction rargs as [|p rest IH]; intros acc Habs; simpl.
  - destruct Habs as [Hcwd|Hex]; [|by inversion Hex].
    case_bool_decide as Hc; [subst; discriminate | done].
  - case_bool_decide as Hp.
    + apply IH. destruct Habs as [?|Hex]; [by left|right].
      inversion Hex; subst; [discriminate | done].
    + destruct (Path.isAbsolute p) eqn:Hp'; [done|].
      apply IH. destruct Habs as [?|Hex]; [by left|right].
      inversion Hex; subst; [congruence | done].
Qed.

(** [path.resolve] yields a normalized absolute path as soon as the
    working directory or an argument is absolute. *)
Lemma resolve_canonical (cwd : string) (args : list string) :
  Path.isAbsolute cwd = true ∨ Exists (λ p, Path.isAbsolute p = true) args →
  canonical (Path.resolve cwd args).
Proof.
  intros Hcwd. unfold Path.resolve.
  assert (Habs : snd (Path.resolve_loop cwd (reverse args) "") = true).
  { apply resolve_loop_absolute. destruct Hcwd as [?|Hex]; [by left|right].
    apply Exists_exists in Hex as (p & Hin & Hp). apply Exists_exists.
    exists p. split; [|done]. by apply elem_of_reverse. }
  destruct (Path.resolve_loop cwd (reverse args) "") as [rp abs]. simpl in Habs. subst abs.
  eexists. split; [|reflexivity].
  apply normalize_segments_plain, split_all_no_sep.
Qed.

Lemma plain_head (x : string) :
  plain x → ∃ c x', x = String c x' ∧ c ≠ "/"%char.
Proof.
  intros (Hne & _ & _ & Hns). destruct x as [|c x']; [done|].
  exists c, x'. split; [done|]. simpl in Hns.
  apply andb_true_iff in Hns as [Hc _]. apply negb_true_iff in Hc.
  by apply bool_decide_eq_false in Hc.
Qed.

Lemma abs_path_not_endsWith_sep (R : list string) :
  R ≠ [] → Forall plain R → Js.endsWith (abs_path R) "/" = false.
Proof.
  intros Hne HR. apply not_true_is_false. intros [r Hr]%endsWith_spec.
  assert (Hs : Path.split (abs_path R) = "" :: R).
  { unfold abs_path. rewrite str_app_cons, str_app_nil_l, split_cons_sep, split_join_sep; [done..|].
    eapply Forall_impl; [exact HR | apply plain_no_sep]. }
  rewrite Hr in Hs.
  assert (Hs' : Path.split (r +:+ "/") = Path.split r ++ [""]).
  { rewrite <- (str_app_nil_r "/") at 1. apply split_app_sep. }
  rewrite Hs' in Hs.
  apply (f_equal last) in Hs. rewrite last_snoc in Hs.
  destruct R as [|x R]; [done|]. rewrite last_cons_cons in Hs.
  symmetry in Hs. apply last_Some in Hs as [l' Hl']. rewrite Hl' in HR.
  apply Forall_app in HR as [_ HR]. inversion HR as [|? ? Hp _]; subst.
  by destruct Hp.
Qed.

(** Containment of normalized absolute paths is the prefix order on
    their components. *)
Lemma within_components (R C : list string) :
  Forall plain R → Forall plain C →
  within (abs_path R) (abs_path C) ↔ R `prefix_of` C.
Proof.
  intros HR HC. rewrite <- startsWith_within. unfold Path.sep.
  assert (HR' := Forall_impl _ _ _ HR plain_no_sep).
  assert (HC' := Forall_impl _ _ _ HC plain_no_sep).
  destruct R as [|r R].
  - split; [intros _; apply prefix_nil|intros _].
    change (abs_path []) with "/". change (Js.endsWith "/" "/") with true. cbv iota.
    apply startsWith_spec. unfold abs_path. eexists. apply str_app_assoc.
  - rewrite abs_path_not_endsWith_sep by done.
    unfold abs_path. rewrite !str_app_assoc, !str_app_cons, !str_app_nil_l, startsWith_cons.
    rewrite bool_decide_true by done. rewrite (join_sep_snoc (r :: R)) by done. simpl andb.
    destruct C as [|c C].
    + split.
      * inversion HR as [|? ? Hr _]; subst.
        destruct (plain_head r Hr) as (a & r' & -> & Ha).
        simpl. rewrite bool_decide_false by done. done.
      * intros [k Hk]. discriminate.
    + rewrite join_sep_snoc by done. by apply (startsWith_join_all (r :: R) (c :: C)).
Qed.

End NormalizeFacts.
Section JoinFacts.

Lemma truthy_true (s : string) : Js.truthy s = true ↔ s ≠ "".
Proof. unfold Js.truthy. rewrite negb_true_iff, bool_decide_eq_false. done. Qed.

Lemma truthy_false (s : string) : Js.truthy s = false ↔ s = "".
Proof. unfold Js.truthy. rewrite negb_false_iff, bool_decide_eq_true. done. Qed.

Lemma join_args_Some (j : string) (args : list string) :
  Path.join_args (Some j) args = Some (j +:+ join_tail args).
Proof.
  revert j. induction args as [|arg rest IH]; intros j; simpl.
  - by rewrite str_app_nil_r.
  - destruct (Js.truthy arg); [|apply IH].
    rewrite IH. by rewrite !str_app_assoc.
Qed.

Lemma join_cons (b : string) (args : list string) :
  b ≠ "" → Path.join (b :: args) = Path.normalize (b +:+ join_tail args).
Proof.
  intros Hb%truthy_true. unfold Path.join. simpl. rewrite Hb.
  by rewrite join_args_Some.
Qed.

Lemma endsWith_app_r (x y suf : string) :
  (String.length suf ≤ String.length y)%nat → y ≠ "" →
  Js.endsWith (x +:+ y) suf = Js.endsWith y suf.
Proof.
  intros Hlen Hy. induction x as [|a x IH]; [done|].
  rewrite str_app_cons, endsWith_unfold, IH.
  rewrite bool_decide_false; [done|].
  intros Heq. apply (f_equal String.length) in Heq. simpl in Heq.
  rewrite str_length_app in Heq. lia.
Qed.

Lemma endsWith_sep_app_r (x y : string) :
  y ≠ "" → Js.endsWith (x +:+ y) "/" = Js.endsWith y "/".
Proof.
  intros Hy. apply endsWith_app_r; [|done]. destruct y; [done|simpl; lia].
Qed.

Lemma isAbsolute_app (b s : string) :
  b ≠ "" → Path.isAbsolute (b +:+ s) = Path.isAbsolute b.
Proof. by destruct b. Qed.

Lemma normalize_segments_app_empty (allow : bool) (l1 l2 : list string) :
  Path.normalize_segments allow (l1 ++ "" :: l2) = Path.normalize_segments allow (l1 ++ l2).
Proof. unfold Path.normalize_segments. by rewrite !fold_left_app. Qed.

(** A doubled separator is as good as a single one. *)
Lemma normalize_double_sep (b s : string) :
  b ≠ "" → s ≠ "" →
  Path.normalize (b +:+ "/" +:+ "/" +:+ s) = Path.normalize (b +:+ "/" +:+ s).
Proof.
  intros Hb Hs. unfold Path.normalize.
  rewrite (bool_decide_false (b +:+ "/" +:+ "/" +:+ s = ""))
    by (intros [? _]%str_app_eq_nil; done).
  rewrite (bool_decide_false (b +:+ "/" +:+ s = "")) by (intros [? _]%str_app_eq_nil; done).
  rewrite !isAbsolute_app by done.
  unfold Path.sep.
  rewrite (endsWith_sep_app_r b ("/" +:+ "/" +:+ s)), (endsWith_sep_app_r b ("/" +:+ s)),
    (endsWith_sep_app_r "/" ("/" +:+ s)) by done.
  unfold Path.normalizeString.
  rewrite (split_app_sep b ("/" +:+ s)), (split_app_sep b s).
  change (Path.split ("/" +:+ s)) with ("" :: Path.split s).
  by rewrite normalize_segments_app_empty.
Qed.

Lemma normalize_absolute (p : string) :
  Path.isAbsolute p = true → Path.isAbsolute (Path.normalize p) = true.
Proof.
  intros Hp. unfold Path.normalize. rewrite Hp.
  case_bool_decide; [subst; done|]. case_bool_decide; done.
Qed.

Lemma normalize_nonempty (p : string) : Path.normalize p ≠ "".
Proof.
  unfold Path.normalize. case_bool_decide; [done|].
  case_bool_decide as Hn.
  - by destruct (Path.isAbsolute p), (Js.endsWith p Path.sep).
  - destruct (Path.isAbsolute p); [done|].
    destruct (Js.endsWith p Path.sep); [|done].
    intros [? _]%str_app_eq_nil. done.
Qed.

(** An absolute last argument is where [path.resolve] starts from. *)
Lemma resolve_absolute_last (cwd rootDir u : string) :
  Path.isAbsolute u = true →
  Path.resolve cwd [rootDir; u] = "/" +:+ Path.normalizeString (u +:+ "/") false.
Proof.
  intros Hu. unfold Path.resolve. simpl.
  rewrite bool_decide_false by (intros ->; done). rewrite Hu.
  by rewrite str_app_nil_r.
Qed.

End JoinFacts.
(* ===================================================================== *)
(** * Path safety *)
(* ===================================================================== *)

Section PathSafety.

Lemma resolveSafePath_test (cwd rootDir : string) (segments : list string) :
  resolveSafePath cwd rootDir segments =
  let resolved := Path.resolve cwd [rootDir; Path.join segments] in
  if Js.startsWith (resolved +:+ Path.sep)
       (if Js.endsWith rootDir Path.sep then rootDir else rootDir +:+ Path.sep)
  then Ok resolved else Err InvalidPathError.
Proof. unfold resolveSafePath. cbv zeta. by destruct (Js.startsWith _ _). Qed.

Lemma resolveSafePath_Ok_iff (cwd rootDir : string) (segments : list string) :
  let resolved := Path.resolve cwd [rootDir; Path.join segments] in
  resolveSafePath cwd rootDir segments = Ok resolved ↔ within rootDir resolved.
Proof.
  cbv zeta. rewrite resolveSafePath_test, <- startsWith_within. cbv zeta.
  destruct (Js.startsWith _ _); split; done.
Qed.

Lemma resolveSafePath_Err_iff (cwd rootDir : string) (segments : list string) :
  let resolved := Path.resolve cwd [rootDir; Path.join segments] in
  resolveSafePath cwd rootDir segments = Err InvalidPathError ↔ ¬ within rootDir resolved.
Proof.
  cbv zeta. rewrite resolveSafePath_test, <- startsWith_within. cbv zeta.
  destruct (Js.startsWith _ _); split; intros H; try done; by destruct H.
Qed.

(** Whatever [resolveSafePath] returns is the resolved path. *)
Lemma resolveSafePath_Ok_inv (cwd rootDir : string) (segments : list string) (p : string) :
  resolveSafePath cwd rootDir segments = Ok p →
  p = Path.resolve cwd [rootDir; Path.join segments] ∧ within rootDir p.
Proof.
  rewrite resolveSafePath_test. cbv zeta.
  destruct (Js.startsWith _ _) eqn:E; [|done]. intros [= <-].
  split; [done|]. by apply startsWith_within.
Qed.

(** C1. [resolveSafePath] returns the lexically normalized absolute
    path [resolved] exactly when [resolved] is [rootDir] or a
    path-separator-bounded descendant of it, and fails with
    [InvalidPathError] otherwise.  For a normalized absolute [rootDir]
    this is the prefix order on path components, so a segment list whose
    [..] components lead out of [rootDir] is rejected; a sibling that
    merely continues the last component of [rootDir] is rejected; and the
    function is pure: as a step of a handler it leaves the tree as it
    was. *)
Theorem resolveSafePath_contained (cwd rootDir : string) (segments : list string) :
  let resolved := Path.resolve cwd [rootDir; Path.join segments] in
  ((within rootDir resolved ∧
    resolveSafePath cwd rootDir segments = Ok resolved) ∨
   (¬ within rootDir resolved ∧
    resolveSafePath cwd rootDir segments = Err InvalidPathError))
  ∧ (∀ R, Forall plain R → rootDir = abs_path R →
       ∃ C, Forall plain C ∧ resolved = abs_path C ∧
            (R `prefix_of` C → resolveSafePath cwd rootDir segments = Ok resolved) ∧
            (¬ R `prefix_of` C →
               resolveSafePath cwd rootDir segments = Err InvalidPathError))
  ∧ (∀ c more, Js.endsWith rootDir "/" = false → c ≠ "/"%char →
       resolved = rootDir +:+ String c more →
       resolveSafePath cwd rootDir segments = Err InvalidPathError)
  ∧ (∀ t : Fs.tree, fst (lift (resolveSafePath cwd rootDir segments) t) = t).
Proof.
  intros resolved. split_and!.
  - destruct (resolveSafePath cwd rootDir segments) as [p|e] eqn:E.
    + left. apply resolveSafePath_Ok_inv in E as [-> Hw]. done.
    + right. rewrite resolveSafePath_test in E. cbv zeta in E.
      destruct (Js.startsWith _ _) eqn:Hs; [done|]. injection E as <-.
      split; [|done]. intros Hw%startsWith_within. subst resolved. congruence.
  - subst resolved. intros R HR ->.
    destruct (resolve_canonical cwd [abs_path R; Path.join segments]) as (C & HC & HCeq).
    { right. apply Exists_cons_hd. reflexivity. }
    exists C. split; [done|]. split; [done|]. split; intros Hpre.
    + apply resolveSafePath_Ok_iff. rewrite HCeq.
      by apply within_components.
    + apply resolveSafePath_Err_iff. rewrite HCeq.
      by rewrite within_components.
  - subst resolved. intros c more Hend Hc Hres.
    apply resolveSafePath_Err_iff. rewrite <- startsWith_within.
    unfold Path.sep. rewrite Hend, Hres, !str_app_assoc, startsWith_app_same.
    rewrite !str_app_cons, startsWith_cons, bool_decide_false by congruence. done.
  - done.
Qed.

(** A path inside [rootDir], a traversal out of it, and a sibling that
    shares [rootDir] as a string prefix. *)
Lemma resolveSafePath_contained_witness :
  resolveSafePath "/" "/data/ab" ["docs"; "a/../x"] = Ok "/data/ab/docs/x" ∧
  resolveSafePath "/" "/data/ab" ["docs"; "../../../etc/passwd"] = Err InvalidPathError ∧
  resolveSafePath "/" "/data/ab" [".."; "abc"] = Err InvalidPathError.
Proof.
  pose proof (resolveSafePath_contained "/" "/data/ab" ["docs"; "a/../x"]) as (_ & H1 & _).
  pose proof (resolveSafePath_contained "/" "/data/ab" ["docs"; "../../../etc/passwd"])
    as (_ & H2 & _).
  pose proof (resolveSafePath_contained "/" "/data/ab" [".."; "abc"]) as (_ & _ & H3 & _).
  assert (Hplain : Forall plain ["data"; "ab"]) by (repeat constructor; done).
  split_and!.
  - destruct (H1 ["data"; "ab"] Hplain eq_refl) as (C & _ & _ & Hok & Herr).
    destruct (decide (["data"; "ab"] `prefix_of` C)) as [Hp|Hn].
    + exact (Hok Hp).
    + specialize (Herr Hn). vm_compute in Herr. discriminate Herr.
  - destruct (H2 ["data"; "ab"] Hplain eq_refl) as (C & _ & HC & Hok & Herr).
    destruct (decide (["data"; "ab"] `prefix_of` C)) as [Hp|Hn].
    + specialize (Hok Hp). vm_compute in Hok. discriminate Hok.
    + exact (Herr Hn).
  - apply (H3 "c"%char ""); [reflexivity | done | reflexivity].
Defined.

End PathSafety.
Section AbsoluteSegments.

(** C7, counterexample.  An absolute key segment is accepted after a
    bucket, and accepted on its own when it denotes a place inside
    [rootDir]. *)
Lemma absolute_segment_accepted :
  resolveSafePath "/" "/srv/public" ["docs"; "/etc/passwd"]
    = Ok "/srv/public/docs/etc/passwd" ∧
  resolveSafePath "/" "/srv/public" ["/srv/public/docs/x"]
    = Ok "/srv/public/docs/x".
Proof. split; vm_compute; reflexivity. Qed.

(** C7, as the code has it.  A key segment that is an absolute path is
    not rejected for being absolute.  After a non-empty segment (the
    bucket) it is joined as if it were relative, so the outcome is that
    of the segment without its leading separator; an absolute first
    segment takes the place of [rootDir] as the base of the resolution.
    In either case [resolveSafePath] fails with [InvalidPathError]
    exactly when the normalized result is neither [rootDir] nor a
    descendant of it. *)
Theorem absolute_segment_joined_as_relative
    (cwd rootDir b k : string) (rest : list string) :
  b ≠ "" → k ≠ "" →
  resolveSafePath cwd rootDir (b :: ("/" +:+ k) :: rest)
    = resolveSafePath cwd rootDir (b :: k :: rest)
  ∧ (∀ rootDir' cwd',
       Path.resolve cwd [rootDir; Path.join (("/" +:+ k) :: rest)]
       = Path.resolve cwd' [rootDir'; Path.join (("/" +:+ k) :: rest)])
  ∧ (∀ segments,
       resolveSafePath cwd rootDir segments = Err InvalidPathError
       ↔ ¬ within rootDir (Path.resolve cwd [rootDir; Path.join segments])).
Proof.
  intros Hb Hk. split_and!.
  - unfold resolveSafePath.
    assert (Hj : Path.join (b :: ("/" +:+ k) :: rest) = Path.join (b :: k :: rest)).
    { rewrite !join_cons by done. simpl.
      rewrite (proj2 (truthy_true k) Hk). change (Js.truthy ("/" +:+ k)) with true.
      cbv iota. rewrite !str_app_assoc.
      apply normalize_double_sep; [done|]. intros [? _]%str_app_eq_nil. done. }
    by rewrite Hj.
  - intros rootDir' cwd'.
    assert (Habs : Path.isAbsolute (Path.join (("/" +:+ k) :: rest)) = true).
    { rewrite join_cons by done. by apply normalize_absolute. }
    by rewrite !resolve_absolute_last.
  - intros segments. apply resolveSafePath_Err_iff.
Qed.

Lemma absolute_segment_joined_as_relative_witness :
  resolveSafePath "/" "/srv/public" ["docs"; "/etc/passwd"]
    = resolveSafePath "/" "/srv/public" ["docs"; "etc/passwd"].
Proof.
  apply (absolute_segment_joined_as_relative "/" "/srv/public" "docs" "etc/passwd" []);
    discriminate.
Defined.

End AbsoluteSegments.
(* ===================================================================== *)
(** * Facts about the file system *)
(* ===================================================================== *)

Section FsFacts.

Lemma lookup_node_root (t : Fs.tree) : Fs.lookup_node t "/" = Some Fs.Dir.
Proof. reflexivity. Qed.

Lemma lookup_node_ne (t : Fs.tree) (p : string) :
  p ≠ "/" → Fs.lookup_node t p = t !! p.
Proof. intros Hp. unfold Fs.lookup_node. by rewrite bool_decide_false. Qed.

Lemma lookup_node_None (t : Fs.tree) (p : string) :
  Fs.lookup_node t p = None → p ≠ "/" ∧ t !! p = None.
Proof. unfold Fs.lookup_node. case_bool_decide; [done|]. auto. Qed.

Lemma lookup_node_File (t : Fs.tree) (p : string) (c : list Fs.byte) :
  Fs.lookup_node t p = Some (Fs.File c) → p ≠ "/" ∧ t !! p = Some (Fs.File c).
Proof. unfold Fs.lookup_node. case_bool_decide; [done|]. auto. Qed.

Lemma lookup_node_insert_ne (t : Fs.tree) (p q : string) (n : Fs.node) :
  p ≠ q → Fs.lookup_node (<[p := n]> t) q = Fs.lookup_node t q.
Proof. intros Hne. unfold Fs.lookup_node. case_bool_decide; [done|]. by rewrite lookup_insert_ne. Qed.

Lemma lookup_node_insert_eq (t : Fs.tree) (p : string) (n : Fs.node) :
  p ≠ "/" → Fs.lookup_node (<[p := n]> t) p = Some n.
Proof. intros Hne. rewrite lookup_node_ne by done. by rewrite lookup_insert_eq. Qed.

Lemma lookup_node_delete_ne (t : Fs.tree) (p q : string) :
  p ≠ q → Fs.lookup_node (delete p t) q = Fs.lookup_node t q.
Proof. intros Hne. unfold Fs.lookup_node. case_bool_decide; [done|]. by rewrite lookup_delete_ne. Qed.

(** An existing directory needs no making. *)
Lemma mkdir_recursive_existing (t : Fs.tree) (d : string) :
  Fs.lookup_node t d = Some Fs.Dir → Fs.mkdir_recursive t d = inl t.
Proof.
  intros Hd. unfold Fs.mkdir_recursive.
  destruct (String.length d); simpl; by rewrite Hd.
Qed.

(** A successful [mkdir -p] leaves the directory in place, keeps every
    node there was, and adds directories only. *)
Lemma mkdir_p_inl (fuel : nat) (p0 : string) (t t' : Fs.tree) (p : string) :
  Fs.mkdir_p fuel p0 t p = inl t' →
  Fs.lookup_node t' p = Some Fs.Dir ∧
  (∀ q n, Fs.lookup_node t q = Some n → Fs.lookup_node t' q = Some n) ∧
  (∀ q c, t' !! q = Some (Fs.File c) → t !! q = Some (Fs.File c)).
Proof.
  revert p t'. induction fuel as [|fuel IH]; intros p t' H; simpl in H.
  - destruct (Fs.lookup_node t p) as [[c|]|] eqn:E; [done| |done].
    injection H as <-. done.
  - destruct (Fs.lookup_node t p) as [[c|]|] eqn:E; [done| |].
    + injection H as <-. done.
    + destruct (Fs.mkdir_p fuel p0 t (Path.dirname p)) as [t1|e] eqn:E1; [|done].
      injection H as <-. apply lookup_node_None in E as [Hp Hnone].
      destruct (IH _ _ E1) as (_ & Hkeep & Hfiles). split_and!.
      * by apply lookup_node_insert_eq.
      * intros q n Hq. destruct (decide (p = q)) as [<-|Hne].
        -- rewrite lookup_node_ne in Hq by done. congruence.
        -- rewrite lookup_node_insert_ne by done. by apply Hkeep.
      * intros q c Hq. destruct (decide (p = q)) as [<-|Hne].
        -- by rewrite lookup_insert_eq in Hq.
        -- rewrite lookup_insert_ne in Hq by done. by apply Hfiles.
Qed.

Lemma mkdir_recursive_inl (t t' : Fs.tree) (p : string) :
  Fs.mkdir_recursive t p = inl t' →
  Fs.lookup_node t' p = Some Fs.Dir ∧
  (∀ q n, Fs.lookup_node t q = Some n → Fs.lookup_node t' q = Some n) ∧
  (∀ q c, t' !! q = Some (Fs.File c) → t !! q = Some (Fs.File c)).
Proof. apply mkdir_p_inl. Qed.

(** Nothing that has an entry loses it to [mkdir -p]. *)
Lemma mkdir_p_keeps (fuel : nat) (p0 : string) (t t' : Fs.tree) (p : string) :
  Fs.mkdir_p fuel p0 t p = inl t' → ∀ q n, t !! q = Some n → t' !! q = Some n.
Proof.
  revert p t'. induction fuel as [|fuel IH]; intros p t' H q n Hq; simpl in H.
  - destruct (Fs.lookup_node t p) as [[c|]|]; [done| |done]. by injection H as <-.
  - destruct (Fs.lookup_node t p) as [[c|]|] eqn:E; [done| |].
    + by injection H as <-.
    + destruct (Fs.mkdir_p fuel p0 t (Path.dirname p)) as [t1|e] eqn:E1; [|done].
      injection H as <-. apply lookup_node_None in E as [_ Hnone].
      rewrite lookup_insert_ne by congruence. by eapply IH.
Qed.

Lemma mkdir_recursive_keeps (t t' : Fs.tree) (p : string) :
  Fs.mkdir_recursive t p = inl t' → ∀ q n, t !! q = Some n → t' !! q = Some n.
Proof. apply mkdir_p_keeps. Qed.

(** Writing the chunks one after the other leaves their concatenation
    after what was there. *)
Lemma fold_write_chunk (p : string) (chunks : list (list Fs.byte))
    (t : Fs.tree) (c : list Fs.byte) :
  t !! p = Some (Fs.File c) →
  fold_left (λ t ch, Fs.write_chunk t p ch) chunks t
  = <[p := Fs.File (c ++ concat chunks)]> t.
Proof.
  revert t c. induction chunks as [|ch chunks IH]; intros t c Ht; simpl.
  - rewrite app_nil_r. symmetry. by apply insert_id.
  - unfold Fs.write_chunk at 2. rewrite Ht.
    rewrite (IH _ (c ++ ch)) by apply lookup_insert_eq.
    by rewrite insert_insert_eq, <- app_assoc.
Qed.

(** A pipe that finishes has replaced the file by the bytes piped. *)
Lemma pipe_to_file_inl (t t' : Fs.tree) (p : string) (chunks : list (list Fs.byte)) :
  Fs.pipe_to_file t p chunks = inl t' →
  t' = <[p := Fs.File (concat chunks)]> t ∧
  p ≠ "/" ∧ Fs.lookup_node t p ≠ Some Fs.Dir ∧
  Fs.lookup_node t (Path.dirname p) = Some Fs.Dir.
Proof.
  unfold Fs.pipe_to_file, Fs.open_w. intros H.
  assert (Hnd : Fs.lookup_node t p ≠ Some Fs.Dir).
  { intros E. by rewrite E in H. }
  assert (Hp : p ≠ "/") by (intros ->; done).
  destruct (Fs.lookup_node t (Path.dirname p)) as [[c|]|] eqn:Ed.
  - by destruct (Fs.lookup_node t p) as [[|]|].
  - assert (H' : fold_left (λ t c, Fs.write_chunk t p c) chunks (<[p:=Fs.File []]> t) = t').
    { destruct (Fs.lookup_node t p) as [[|]|]; congruence. }
    rewrite (fold_write_chunk p chunks _ []) in H' by apply lookup_insert_eq.
    rewrite insert_insert_eq in H'. done.
  - by destruct (Fs.lookup_node t p) as [[|]|].
Qed.

(** Over a regular file whose directory is there, a pipe finishes. *)
Lemma pipe_to_file_over_file (t : Fs.tree) (p : string) (c : list Fs.byte)
    (chunks : list (list Fs.byte)) :
  t !! p = Some (Fs.File c) → p ≠ "/" →
  Fs.lookup_node t (Path.dirname p) = Some Fs.Dir →
  Fs.pipe_to_file t p chunks = inl (<[p := Fs.File (concat chunks)]> t).
Proof.
  intros Ht Hp Hd. unfold Fs.pipe_to_file, Fs.open_w.
  rewrite lookup_node_ne, Ht, Hd by done.
  rewrite (fold_write_chunk p chunks _ []) by apply lookup_insert_eq.
  by rewrite insert_insert_eq.
Qed.

End FsFacts.
(* ===================================================================== *)
(** * Direct writes *)
(* ===================================================================== *)

Section DirectWrite.

Variables cwd dir : string.

(** What a direct write answered with 200 has done. *)
Lemma put_handler_200 (req : put_request) (t t' : Fs.tree) (r : response) :
  put_handler cwd dir req t = (t', r) → status r = 200 →
  ∃ key outPath t1,
    put_key req = Some key ∧ key ≠ "" ∧
    resolveSafePath cwd (publicRoot cwd dir) [put_bucket req; key] = Ok outPath ∧
    Fs.mkdir_recursive t (Path.dirname outPath) = inl t1 ∧
    Fs.pipe_to_file t1 outPath (put_stream req) = inl t' ∧
    r = put_success req key outPath.
Proof.
  unfold put_handler. intros H Hs.
  destruct (Js.truthy (default "" (put_key req))) eqn:Hk; simpl in H.
  2: { injection H as <- <-. done. }
  apply truthy_true in Hk.
  destruct (put_key req) as [key|] eqn:Hkey; [|done]. simpl in Hk, H.
  unfold bind, lift, fs_mkdir_recursive, fs_update, ret in H.
  destruct (resolveSafePath cwd (publicRoot cwd dir) [put_bucket req; key])
    as [outPath|e] eqn:Hr.
  2: { injection H as <- <-. done. }
  destruct (Fs.mkdir_recursive t (Path.dirname outPath)) as [t1|e] eqn:Hm.
  2: { injection H as <- <-. done. }
  destruct (Fs.pipe_to_file t1 outPath (put_stream req)) as [t2|e] eqn:Hp.
  2: { injection H as <- <-. done. }
  injection H as <- <-. exists key, outPath, t1. done.
Qed.

(** Whatever was there, a direct write that finished has put its body
    at the resolved path and touched no other file. *)
Lemma put_handler_written (req : put_request) (t t' : Fs.tree) (r : response) :
  put_handler cwd dir req t = (t', r) → status r = 200 →
  ∃ outPath,
    member r "path" = Some (JString outPath) ∧
    t' !! outPath = Some (Fs.File (concat (put_stream req))) ∧
    (∀ q x, q ≠ outPath → t' !! q = Some (Fs.File x) ↔ t !! q = Some (Fs.File x)).
Proof.
  intros H Hs.
  destruct (put_handler_200 _ _ _ _ H Hs)
    as (key & outPath & t1 & Hkey & Hne & Hres & Hmk & Hpipe & ->).
  apply pipe_to_file_inl in Hpipe as (-> & Hp & Hnd & Hd).
  exists outPath. split_and!; [done | by rewrite lookup_insert_eq |].
  intros q x Hq. rewrite lookup_insert_ne by done.
  destruct (mkdir_recursive_inl _ _ _ Hmk) as (_ & _ & Hfiles).
  split; [apply Hfiles | apply (mkdir_recursive_keeps _ _ _ Hmk)].
Qed.

(** C9.  Two direct writes to one key.  When the second finishes, the
    file at that key holds the bytes of the second body and nothing of
    the first, and no other file has changed.  When the first finished,
    the second finishes too, and all it changes in the tree is that
    file.  The destination is opened with flag [w] (created, or cut to
    length zero) and written in place: no staged file, no comparison
    with what was there. *)
Theorem put_overwrites (req1 req2 : put_request) (t0 t1 t2 : Fs.tree)
    (r1 r2 : response) :
  put_bucket req1 = put_bucket req2 →
  put_key req1 = put_key req2 →
  put_handler cwd dir req1 t0 = (t1, r1) →
  put_handler cwd dir req2 t1 = (t2, r2) →
  (status r2 = 200 →
   ∃ outPath,
     member r2 "path" = Some (JString outPath) ∧
     t2 !! outPath = Some (Fs.File (concat (put_stream req2))) ∧
     (∀ q x, q ≠ outPath → t2 !! q = Some (Fs.File x) ↔ t1 !! q = Some (Fs.File x)))
  ∧
  (status r1 = 200 →
   status r2 = 200 ∧
   ∃ outPath,
     member r1 "path" = Some (JString outPath) ∧
     member r2 "path" = Some (JString outPath) ∧
     t1 !! outPath = Some (Fs.File (concat (put_stream req1))) ∧
     t2 !! outPath = Some (Fs.File (concat (put_stream req2))) ∧
     t2 = <[outPath := Fs.File (concat (put_stream req2))]> t1).
Proof.
  intros Hb Hk H1 H2. split.
  { intros Hs2. by apply (put_handler_written req2 t1 t2 r2). }
  intros Hs1.
  destruct (put_handler_200 _ _ _ _ H1 Hs1)
    as (key & outPath & t0' & Hkey & Hne & Hres & Hmk & Hpipe & ->).
  apply pipe_to_file_inl in Hpipe as (-> & Hp & Hnd & Hd).
  assert (Hneq : outPath ≠ Path.dirname outPath) by congruence.
  unfold put_handler in H2. rewrite <- Hb, <- Hk, Hkey in H2. simpl in H2.
  rewrite (proj2 (truthy_true key) Hne) in H2. simpl in H2.
  unfold bind, lift, fs_mkdir_recursive, fs_update, ret in H2.
  rewrite Hres in H2.
  rewrite mkdir_recursive_existing in H2
    by (by rewrite lookup_node_insert_ne).
  rewrite (pipe_to_file_over_file _ _ (concat (put_stream req1))) in H2;
    [| apply lookup_insert_eq | done | by rewrite lookup_node_insert_ne].
  injection H2 as <- <-. split; [done|].
  exists outPath. split_and!; try done.
  - simpl. by rewrite lookup_insert_eq.
  - by rewrite lookup_insert_eq.
Qed.

End DirectWrite.

Lemma put_overwrites_witness :
  let req1 := PutRequest "docs" (Some "notes/a.txt") [bytes_of_string "first"] in
  let req2 := PutRequest "docs" (Some "notes/a.txt")
                [bytes_of_string "sec"; bytes_of_string "ond"] in
  let t1 := fst (put_handler app_dir app_dir req1 tree0) in
  let t2 := fst (put_handler app_dir app_dir req2 t1) in
  t2 !! "/srv/app/public/docs/notes/a.txt" = Some (Fs.File (bytes_of_string "second")).
Proof.
  intros req1 req2 t1 t2.
  destruct (put_overwrites app_dir app_dir req1 req2 tree0 t1 t2
              (snd (put_handler app_dir app_dir req1 tree0))
              (snd (put_handler app_dir app_dir req2 t1)))
    as (_ & Hboth).
  - reflexivity.
  - reflexivity.
  - subst t1. by destruct (put_handler _ _ req1 tree0).
  - subst t2. by destruct (put_handler _ _ req2 t1).
  - destruct Hboth as (_ & outPath & _ & Hpath & _ & Hfile & _).
    { by_evaluation. }
    assert (outPath = "/srv/app/public/docs/notes/a.txt") as <-.
    { vm_compute in Hpath. congruence. }
    exact Hfile.
Defined.
(* ===================================================================== *)
(** * The content hasher *)
(* ===================================================================== *)

Section Hasher.

Lemma hex_digit_lower (n : Z) : is_lower_hex (Sha256.hex_digit n) = true.
Proof.
  destruct n as [|p|p]; [reflexivity| |reflexivity].
  do 4 (destruct p as [p|p|]; try reflexivity).
Qed.

Lemma word_hex_lower (x : Z) (rest : string) :
  all_chars is_lower_hex (Sha256.word_hex x rest) = all_chars is_lower_hex rest.
Proof.
  unfold Sha256.word_hex, Sha256.nibble.
  cbn [all_chars]. by rewrite !hex_digit_lower.
Qed.

Lemma regs_hex_lower (r : Sha256.regs) :
  all_chars is_lower_hex (Sha256.regs_hex r) = true.
Proof. unfold Sha256.regs_hex. by rewrite !word_hex_lower. Qed.

Lemma regs_hex_length (r : Sha256.regs) : String.length (Sha256.regs_hex r) = 64%nat.
Proof. unfold Sha256.regs_hex, Sha256.word_hex. reflexivity. Qed.

Lemma chunks_of_concat (fuel n : nat) (bs : list Fs.byte) :
  (0 < n)%nat → (length bs ≤ fuel)%nat → concat (Fs.chunks_of fuel n bs) = bs.
Proof.
  intros Hn. revert bs. induction fuel as [|fuel IH]; intros bs Hlen.
  - destruct bs; [done | simpl in Hlen; lia].
  - destruct bs as [|b bs]; [done|].
    change (Fs.chunks_of (S fuel) n (b :: bs))
      with (take n (b :: bs) :: Fs.chunks_of fuel n (drop n (b :: bs))).
    simpl concat. rewrite IH.
    + apply take_drop.
    + rewrite length_drop. simpl in *. lia.
Qed.

Lemma fold_update (chunks : list (list Fs.byte)) (h : Sha256.Hash) :
  fold_left Sha256.update chunks h = Sha256.MkHash (Sha256.fed h ++ concat chunks).
Proof.
  revert h. induction chunks as [|c chunks IH]; intros h; simpl.
  - rewrite app_nil_r. by destruct h.
  - rewrite IH. simpl. by rewrite app_assoc.
Qed.

(** Hashing a regular file yields the fingerprint of its bytes and
    leaves the tree alone. *)
Lemma computeFileSha256Hex_file (t : Fs.tree) (p : string) (c : list Fs.byte) :
  Fs.lookup_node t p = Some (Fs.File c) →
  computeFileSha256Hex p t = (t, Ok (fingerprint c)).
Proof.
  intros Hp. unfold computeFileSha256Hex, Fs.createReadStream. rewrite Hp.
  rewrite fold_update, chunks_of_concat; [done | unfold Fs.highWaterMark; lia | done].
Qed.

(** Hashing succeeds on regular files only. *)
Lemma computeFileSha256Hex_Ok (t t' : Fs.tree) (p sha : string) :
  computeFileSha256Hex p t = (t', Ok sha) →
  t' = t ∧ ∃ c, Fs.lookup_node t p = Some (Fs.File c) ∧ sha = fingerprint c.
Proof.
  intros H. destruct (Fs.lookup_node t p) as [[c|]|] eqn:E.
  - rewrite (computeFileSha256Hex_file _ _ _ E) in H. injection H as <- <-. eauto.
  - unfold computeFileSha256Hex, Fs.createReadStream in H. by rewrite E in H.
  - unfold computeFileSha256Hex, Fs.createReadStream in H. by rewrite E in H.
Qed.

Lemma computeFileSha256Hex_tree (t : Fs.tree) (p : string) :
  fst (computeFileSha256Hex p t) = t.
Proof.
  unfold computeFileSha256Hex. by destruct (Fs.createReadStream t p).
Qed.

End Hasher.
(* ===================================================================== *)
(** * Hashed uploads *)
(* ===================================================================== *)

Section Upload.

Variables cwd dir : string.

(** The handler, step by step. *)
Lemma post_handler_steps (req : post_request) (t : Fs.tree) :
  post_handler cwd dir req t =
  if negb (Js.truthy (upload_saved_name req)) then
    (t, failure 400 "Missing uploaded file")
  else
    match staged_path cwd dir req with
    | Err e => (t, failure 400 (message e))
    | Ok tempPath =>
        match computeFileSha256Hex tempPath t with
        | (t1, Err e) => (t1, failure 400 (message e))
        | (t1, Ok sha) =>
            match final_path cwd dir req sha with
            | Err e => (t1, failure 400 (message e))
            | Ok finalPath =>
                match finalize tempPath finalPath t1 with
                | (t2, Ok _) => (t2, post_success req sha finalPath)
                | (t2, Err e) => (t2, failure 400 (message e))
                end
            end
        end
    end.
Proof.
  unfold post_handler, staged_path, final_path.
  fold (upload_saved_name req).
  destruct (negb (Js.truthy (upload_saved_name req))); [reflexivity|].
  unfold bind, lift, ret.
  fold (upload_key req). fold (upload_dir req). 
  fold (key_in (upload_dir req) (upload_saved_name req)).
  destruct (resolveSafePath _ _ _) as [tempPath|e]; [|reflexivity].
  destruct (computeFileSha256Hex tempPath t) as [t1 [sha|e]]; [|reflexivity].
  fold (upload_original_name req). fold (upload_ext_source req). fold (upload_ext req).
  fold (key_in (upload_dir req) (sha +:+ upload_ext req)). fold (final_key req sha).
  destruct (resolveSafePath _ _ _) as [finalPath|e]; [|reflexivity].
  destruct (finalize tempPath finalPath t1) as [t2 [[]|e]]; reflexivity.
Qed.


(** An object at the final path: the staged file goes, nothing else
    changes. *)
Lemma finalize_existing (t : Fs.tree) (tempPath finalPath : string)
    (c : list Fs.byte) (old : Fs.node) :
  Fs.lookup_node t tempPath = Some (Fs.File c) →
  Fs.lookup_node t finalPath = Some old →
  finalize tempPath finalPath t = (delete tempPath t, Ok tt).
Proof.
  intros Htemp Hfinal.
  unfold finalize, try_catch, bind, fs_access, fs_unlink, fs_update, Fs.access, Fs.unlink.
  by rewrite Hfinal, Htemp.
Qed.





End Upload.


(** A directory at the final path.  A direct write to the key
    [a/b/<fingerprint>.txt/x] makes the directory
    [a/b/<fingerprint>.txt]; the upload of ["hello"] under the key
    [a/b/file.txt] that follows is answered with 200 and the final path,
    its staged file is deleted, and what is at the final path is the
    directory: the bytes of the upload are gone. *)
Example upload_onto_directory :
  let put := PutRequest "docs" (Some ("a/b/" +:+ hello_sha +:+ ".txt/x"))
               [bytes_of_string "x"] in
  let t1 := fst (put_handler app_dir app_dir put (hello_staged ["tmp1.txt"])) in
  let t2 := fst (post_handler app_dir app_dir (hello_request "tmp1.txt") t1) in
  let r := snd (post_handler app_dir app_dir (hello_request "tmp1.txt") t1) in
  t1 !! hello_final = Some Fs.Dir ∧
  r = post_success (hello_request "tmp1.txt") hello_sha hello_final ∧
  status r = 200 ∧
  t2 !! hello_final = Some Fs.Dir ∧
  t2 !! "/srv/app/public/docs/a/b/tmp1.txt" = None.
Proof. vm_compute. split_and!; reflexivity. Qed.
(* ===================================================================== *)
(** * Two uploads of the same content at the same time *)
(* ===================================================================== *)

(** On its own a task makes the calls of [finalize], in its order, and
    ends as [finalize] does. *)
Lemma task_run_finalize (tempPath finalPath : string) (t : Fs.tree) :
  task_temp (task_run 4 (Task tempPath finalPath AtAccess) t).2 = tempPath ∧
  task_final (task_run 4 (Task tempPath finalPath AtAccess) t).2 = finalPath ∧
  match task_pc (task_run 4 (Task tempPath finalPath AtAccess) t).2 with
  | Resolved =>
      finalize tempPath finalPath t
      = ((task_run 4 (Task tempPath finalPath AtAccess) t).1, Ok tt)
  | Rejected e =>
      finalize tempPath finalPath t
      = ((task_run 4 (Task tempPath finalPath AtAccess) t).1, Err e)
  | _ => False
  end.
Proof.
  unfold finalize, try_catch, bind, fs_access, fs_unlink, fs_mkdir_recursive, fs_rename,
    fs_update.
  cbn [task_run task_step task_pc task_temp task_final].
  destruct (Fs.access t finalPath) as [[]|e1];
    cbn [task_run task_step task_pc task_temp task_final].
  - destruct (Fs.unlink t tempPath) as [t1|e2];
      cbn [task_run task_step task_pc task_temp task_final fst snd]; [done|].
    destruct (Fs.mkdir_recursive t (Path.dirname finalPath)) as [t2|e3];
      cbn [task_run task_step task_pc task_temp task_final fst snd]; [|done].
    destruct (Fs.rename t2 tempPath finalPath) as [t3|e4];
      cbn [task_run task_step task_pc task_temp task_final fst snd]; done.
  - destruct (Fs.mkdir_recursive t (Path.dirname finalPath)) as [t2|e3];
      cbn [task_run task_step task_pc task_temp task_final fst snd]; [|done].
    destruct (Fs.rename t2 tempPath finalPath) as [t3|e4];
      cbn [task_run task_step task_pc task_temp task_final fst snd]; done.
Qed.

Section Race.

Variables (t0 : Fs.tree) (temp1 temp2 finalPath : string).
Variables (c : list Fs.byte) (orig : option Fs.node).

Hypothesis temps_differ : temp1 ≠ temp2.
Hypothesis temp1_not_final : temp1 ≠ finalPath.
Hypothesis temp2_not_final : temp2 ≠ finalPath.
Hypothesis staged1 : Fs.lookup_node t0 temp1 = Some (Fs.File c).
Hypothesis staged2 : Fs.lookup_node t0 temp2 = Some (Fs.File c).
Hypothesis final_before : Fs.lookup_node t0 finalPath = orig.
Hypothesis upload_dir_exists : Fs.lookup_node t0 (Path.dirname finalPath) = Some Fs.Dir.

Local Abbreviation tree_inv := (race_tree_inv t0 temp1 temp2 finalPath c orig).
Local Abbreviation task_inv := (race_task_inv finalPath c orig).
Local Abbreviation system_inv := (race_system_inv t0 temp1 temp2 finalPath c orig).

Lemma temp1_not_root : temp1 ≠ "/".
Proof. intros E. pose proof staged1 as H. rewrite E in H. done. Qed.

Lemma temp2_not_root : temp2 ≠ "/".
Proof. intros E. pose proof staged2 as H. rewrite E in H. done. Qed.

(** Where nothing was at the final path, the final path is not the
    root directory. *)
Lemma final_not_root : orig = None → finalPath ≠ "/".
Proof.
  intros Horig E. pose proof final_before as H. rewrite E, Horig in H. done.
Qed.

Lemma upload_dir_kept (t : Fs.tree) :
  tree_inv t → Fs.lookup_node t (Path.dirname finalPath) = Some Fs.Dir.
Proof.
  intros [Hframe Hfp]. pose proof upload_dir_exists as Hd.
  destruct (decide (Path.dirname finalPath = "/")) as [E|Hroot].
  { rewrite E. reflexivity. }
  destruct (decide (Path.dirname finalPath = finalPath)) as [E|Hself].
  { rewrite E in Hd |- *. rewrite final_before in Hd.
    destruct Hfp as [Hfp|[Hnone _]]; congruence. }
  rewrite lookup_node_ne in Hd |- * by done.
  rewrite Hframe; [done|done|..]; intros E; rewrite E in Hd.
  - pose proof staged1 as Hs. rewrite lookup_node_ne in Hs by apply temp1_not_root.
    congruence.
  - pose proof staged2 as Hs. rewrite lookup_node_ne in Hs by apply temp2_not_root.
    congruence.
Qed.

Lemma tree_inv_delete (temp : string) (t : Fs.tree) :
  temp = temp1 ∨ temp = temp2 → temp ≠ finalPath →
  tree_inv t → tree_inv (delete temp t).
Proof.
  intros Hwho Hnf [Hframe Hfp]. split.
  - intros q H1 H2 H3. rewrite lookup_delete_ne by (destruct Hwho; congruence).
    by apply Hframe.
  - by rewrite lookup_node_delete_ne.
Qed.

Lemma tree_inv_rename (temp : string) (t : Fs.tree) :
  temp = temp1 ∨ temp = temp2 → orig = None →
  tree_inv t → tree_inv (<[finalPath := Fs.File c]> (delete temp t)).
Proof.
  intros Hwho Horig [Hframe Hfp]. split.
  - intros q H1 H2 H3. rewrite lookup_insert_ne by done.
    rewrite lookup_delete_ne by (destruct Hwho; congruence).
    by apply Hframe.
  - right. split; [done|]. by apply lookup_node_insert_eq, final_not_root.
Qed.

Lemma task_inv_delete_other (temp temp' : string) (t : Fs.tree) (other : task) :
  temp ≠ temp' → temp ≠ finalPath →
  task_inv temp' t other → task_inv temp' (delete temp t) other.
Proof.
  intros Hne Hnf (Ht & Hf & Hp). split_and!; [done..|].
  destruct (task_pc other);
    rewrite ?lookup_node_delete_ne by done; rewrite ?lookup_delete_ne by done; done.
Qed.

Lemma task_inv_rename_other (temp temp' : string) (t : Fs.tree) (other : task) :
  temp ≠ temp' → temp' ≠ finalPath → orig = None →
  task_inv temp' t other →
  task_inv temp' (<[finalPath := Fs.File c]> (delete temp t)) other.
Proof.
  intros Hne Hnf Horig (Ht & Hf & Hp). split_and!; [done..|].
  pose proof (final_not_root Horig) as Hroot.
  destruct (task_pc other); try done.
  - rewrite lookup_insert_ne, lookup_delete_ne by done. done.
  - destruct Hp as [Hp _]. rewrite lookup_node_insert_eq by done.
    rewrite lookup_insert_ne, lookup_delete_ne by done. done.
  - rewrite lookup_insert_ne, lookup_delete_ne by done. done.
  - rewrite lookup_insert_ne, lookup_delete_ne by done. done.
  - destruct Hp as [Hp _]. rewrite lookup_node_insert_eq, Horig by done.
    rewrite lookup_insert_ne by done.
    split; [|done]. destruct (decide (temp = temp')); [done|].
    by rewrite lookup_delete_ne.
Qed.

(** One call of a task keeps all of it, and brings the task nearer to
    its end.  [temp] is the task's staged file, [temp'] the other
    task's. *)
Lemma task_step_inv (temp temp' : string) (t : Fs.tree) (tk other : task) :
  temp = temp1 ∨ temp = temp2 →
  temp ≠ temp' → temp ≠ finalPath → temp' ≠ finalPath → temp ≠ "/" →
  tree_inv t → task_inv temp t tk → task_inv temp' t other →
  tree_inv (task_step tk t).1.1 ∧
  task_inv temp (task_step tk t).1.1 (task_step tk t).1.2 ∧
  task_inv temp' (task_step tk t).1.1 other ∧
  (calls_left (task_pc (task_step tk t).1.2) ≤ calls_left (task_pc tk) - 1)%nat ∧
  Forall only_access_fails (add_event (task_step tk t).2 []).
Proof.
  intros Hwho Hne Hnf Hnf' Hroot Htree (Htemp & Hfinal & Hpc) Hother.
  pose proof (upload_dir_kept t Htree) as Hdir.
  destruct tk as [tp fp p]. simpl in Htemp, Hfinal, Hpc. subst tp fp.
  unfold task_step. cbn [task_pc task_temp task_final].
  destruct p as [| | | | |e].
  - (* access *)
    unfold Fs.access.
    destruct (Fs.lookup_node t finalPath) as [n|] eqn:E; cbn [fst snd task_pc calls_left].
    + split_and!; [done| |done|lia|constructor; [by left | constructor]].
      split_and!; [done..|]. simpl. by rewrite E.
    + split_and!; [done| |done|lia|constructor; [right; by eexists | constructor]].
      split_and!; [done..|]. simpl.
      split; [done|]. destruct Htree as [_ [Hfp|[? _]]]; [|done]. congruence.
  - (* unlink *)
    destruct Hpc as [Hfile Hsome].
    unfold Fs.unlink. rewrite lookup_node_ne, Hfile by done.
    cbn [fst snd task_pc calls_left].
    split_and!; [by apply tree_inv_delete| |by apply task_inv_delete_other|lia
                |constructor; [by left | constructor]].
    split_and!; [done..|]. simpl.
    rewrite lookup_delete_eq, lookup_node_delete_ne by done.
    split; [done|]. destruct Htree as [_ [Hfp|[-> Hfp]]]; [|done].
    rewrite Hfp in Hsome |- *. by destruct Hsome as [n ->].
  - (* mkdir *)
    rewrite (mkdir_recursive_existing _ _ Hdir). cbn [fst snd task_pc calls_left].
    split_and!; [done| |done|lia|constructor; [by left | constructor]]. split_and!; done.
  - (* rename *)
    destruct Hpc as [Hfile Horig].
    pose proof (final_not_root Horig) as Hfroot.
    unfold Fs.rename. rewrite (lookup_node_ne _ temp), Hfile by done.
    rewrite bool_decide_false by done. rewrite Hdir.
    assert (Hdst : Fs.lookup_node t finalPath = None ∨
                   Fs.lookup_node t finalPath = Some (Fs.File c)).
    { destruct Htree as [_ [Hfp|[_ Hfp]]]; [left|by right]. by rewrite Hfp, Horig. }
    assert (Hgoal :
      tree_inv (<[finalPath:=Fs.File c]> (delete temp t)) ∧
      task_inv temp (<[finalPath:=Fs.File c]> (delete temp t))
        (Task temp finalPath Resolved) ∧
      task_inv temp' (<[finalPath:=Fs.File c]> (delete temp t)) other ∧
      (calls_left Resolved ≤ calls_left AtRename - 1)%nat ∧
      Forall only_access_fails [Event (CallRename temp finalPath) true]).
    { split_and!; [by apply tree_inv_rename| |by apply task_inv_rename_other|simpl; lia
                  |constructor; [by left | constructor]].
      split_and!; [done..|]. simpl. rewrite lookup_node_insert_eq, Horig by done.
      rewrite lookup_insert_ne, lookup_delete_eq by done. done. }
    destruct Hdst as [-> | ->]; exact Hgoal.
  - (* through *)
    cbn [fst snd task_pc calls_left]. split_and!; [done| |done|lia|constructor]. done.
  - done.
Qed.

Lemma racing_inv : system_inv (racing t0 temp1 temp2 finalPath).
Proof.
  pose proof staged1 as H1. pose proof staged2 as H2. pose proof final_before as Hf.
  rewrite lookup_node_ne in H1 by apply temp1_not_root.
  rewrite lookup_node_ne in H2 by apply temp2_not_root.
  unfold racing. split_and!; simpl; try done.
  split; [done | by left].
Qed.

Lemma Forall_add_event (o : option event) (l : list event) :
  Forall only_access_fails (add_event o []) → Forall only_access_fails l →
  Forall only_access_fails (add_event o l).
Proof. destruct o as [ev|]; simpl; [|done]. intros Hev Hl. inversion Hev. by constructor. Qed.

Lemma system_step_inv (s : system) (first : bool) :
  system_inv s →
  system_inv (system_step s first) ∧
  (calls_left (task_pc (sys_first (system_step s first)))
     ≤ calls_left (task_pc (sys_first s)) - (if first then 1 else 0))%nat ∧
  (calls_left (task_pc (sys_second (system_step s first)))
     ≤ calls_left (task_pc (sys_second s)) - (if first then 0 else 1))%nat.
Proof.
  intros (Htree & Hfirst & Hsecond & Hlog1 & Hlog2).
  destruct first; unfold system_step.
  - pose proof (task_step_inv temp1 temp2 (sys_tree s) (sys_first s) (sys_second s))
      as Hstep.
    destruct (task_step (sys_first s) (sys_tree s)) as [[t' tk'] ev].
    destruct Hstep as (? & ? & ? & ? & ?); try done; [by left | apply temp1_not_root |].
    cbn [fst snd] in *. unfold system_inv.
    cbn [sys_tree sys_first sys_second log_first log_second].
    split_and!; try done; try lia. by apply Forall_add_event.
  - pose proof (task_step_inv temp2 temp1 (sys_tree s) (sys_second s) (sys_first s))
      as Hstep.
    destruct (task_step (sys_second s) (sys_tree s)) as [[t' tk'] ev].
    destruct Hstep as (? & ? & ? & ? & ?); try done; [by right | apply temp2_not_root |].
    cbn [fst snd] in *. unfold system_inv.
    cbn [sys_tree sys_first sys_second log_first log_second].
    split_and!; try done; try lia. by apply Forall_add_event.
Qed.

Lemma turns_cons (who b : bool) (schedule : list bool) :
  turns who (b :: schedule)
  = ((if bool_decide (b = who) then 1 else 0) + turns who schedule)%nat.
Proof.
  unfold turns. rewrite filter_cons. case_decide.
  - rewrite bool_decide_true by done. reflexivity.
  - rewrite bool_decide_false by done. reflexivity.
Qed.

(** Every schedule keeps the invariant, and each turn of a request
    brings it a call nearer to its end. *)
Lemma system_run_inv (schedule : list bool) (s : system) :
  system_inv s →
  system_inv (system_run schedule s) ∧
  (calls_left (task_pc (sys_first (system_run schedule s)))
     ≤ calls_left (task_pc (sys_first s)) - turns true schedule)%nat ∧
  (calls_left (task_pc (sys_second (system_run schedule s)))
     ≤ calls_left (task_pc (sys_second s)) - turns false schedule)%nat.
Proof.
  revert s. induction schedule as [|b schedule IH]; intros s Hinv.
  - simpl. unfold turns. simpl. split_and!; [done | lia | lia].
  - destruct (system_step_inv s b Hinv) as (Hinv' & H1 & H2).
    destruct (IH _ Hinv') as (Hinv'' & H1' & H2').
    unfold system_run in *. cbn [fold_left]. rewrite !turns_cons.
    split_and!; [done|..]; destruct b; simpl in *; lia.
Qed.

End Race.

(** C3, as the code has it.  Two uploads of the same content [c],
    staged under different names [temp1] and [temp2], finalize to the
    same [finalPath] while their file-system calls interleave in any
    order.  The final path is not a staged path, its directory exists
    (staging made it) and it is within the limits of the file system;
    what is at the final path before, a regular file, a directory or
    nothing, is left open.  No call other than the existence check ever
    fails and neither request ends with an error.  Once each request
    has had three turns both are through: what was at the final path is
    there untouched, or else, where nothing was, one file holding [c];
    neither staged file remains, and no other path has changed.  So
    when a directory was at the final path both requests are answered
    with 200 and the content is at neither path.  A request that finds
    the destination only after its check does not notice: its rename
    succeeds and puts its own staged file in the place of the other,
    and the answer of either request has status 200 and no
    [deduplicated] member. *)
Theorem concurrent_finalize (t0 : Fs.tree) (temp1 temp2 finalPath : string)
    (c : list Fs.byte) (schedule : list bool) :
  temp1 ≠ temp2 → temp1 ≠ finalPath → temp2 ≠ finalPath →
  Fs.lookup_node t0 temp1 = Some (Fs.File c) →
  Fs.lookup_node t0 temp2 = Some (Fs.File c) →
  Fs.lookup_node t0 (Path.dirname finalPath) = Some Fs.Dir →
  fits finalPath = true →
  let s := system_run schedule (racing t0 temp1 temp2 finalPath) in
  Forall only_access_fails (log_first s ++ log_second s)
  ∧ (∀ req sha r,
       task_response req sha (sys_first s) = Some r ∨
       task_response req sha (sys_second s) = Some r →
       status r = 200 ∧ member r "deduplicated" = None)
  ∧ ((3 ≤ turns true schedule)%nat → (3 ≤ turns false schedule)%nat →
     task_pc (sys_first s) = Resolved ∧ task_pc (sys_second s) = Resolved ∧
     (∀ n, Fs.lookup_node t0 finalPath = Some n →
           Fs.lookup_node (sys_tree s) finalPath = Some n) ∧
     (Fs.lookup_node t0 finalPath = None →
        sys_tree s !! finalPath = Some (Fs.File c)) ∧
     sys_tree s !! temp1 = None ∧ sys_tree s !! temp2 = None ∧
     (∀ q, q ≠ finalPath → q ≠ temp1 → q ≠ temp2 → sys_tree s !! q = t0 !! q)).
Proof.
  intros H12 H1f H2f Hs1 Hs2 Hdir _ s.
  destruct (system_run_inv t0 temp1 temp2 finalPath c (Fs.lookup_node t0 finalPath)
              H12 H1f H2f Hs1 Hs2 eq_refl Hdir
              schedule (racing t0 temp1 temp2 finalPath))
    as ((Htree & Hfirst & Hsecond & Hlog1 & Hlog2) & Hleft1 & Hleft2).
  { by apply racing_inv. }
  fold s in Htree, Hfirst, Hsecond, Hlog1, Hlog2, Hleft1, Hleft2.
  destruct Hfirst as (_ & Hfin1 & Hpc1). destruct Hsecond as (_ & Hfin2 & Hpc2).
  split_and!.
  - by apply Forall_app.
  - intros req sha r [Hr|Hr]; unfold task_response in Hr.
    + destruct (task_pc (sys_first s)); try done. by injection Hr as <-.
    + destruct (task_pc (sys_second s)); try done. by injection Hr as <-.
  - intros Hturns1 Hturns2. simpl in Hleft1, Hleft2.
    destruct (task_pc (sys_first s)) eqn:E1; simpl in Hleft1; try lia; try done.
    destruct (task_pc (sys_second s)) eqn:E2; simpl in Hleft2; try lia; try done.
    destruct Hpc1 as [Ht1 Hfp]. destruct Hpc2 as [Ht2 _]. destruct Htree as [Hframe _].
    split_and!; try done.
    + intros n Hn. by rewrite Hfp, Hn.
    + intros Hnone. rewrite Hnone in Hfp. simpl in Hfp.
      by apply lookup_node_File in Hfp as [_ ?].
Qed.

(** The uploads of the running example, in the order: second checks,
    first checks, makes the directory and renames, second makes the
    directory and renames. *)
Lemma concurrent_finalize_witness :
  let t0 := hello_staged ["tmp1.txt"; "tmp2.txt"] in
  let s := system_run [false; true; true; true; false; false]
             (racing t0 "/srv/app/public/docs/a/b/tmp1.txt"
                "/srv/app/public/docs/a/b/tmp2.txt" hello_final) in
  task_pc (sys_first s) = Resolved ∧ task_pc (sys_second s) = Resolved ∧
  sys_tree s !! hello_final = Some (Fs.File (bytes_of_string "hello")) ∧
  sys_tree s !! "/srv/app/public/docs/a/b/tmp1.txt" = None ∧
  sys_tree s !! "/srv/app/public/docs/a/b/tmp2.txt" = None.
Proof.
  intros t0 s.
  destruct (concurrent_finalize t0 "/srv/app/public/docs/a/b/tmp1.txt"
              "/srv/app/public/docs/a/b/tmp2.txt" hello_final
              (bytes_of_string "hello")
              [false; true; true; true; false; false])
    as (_ & _ & Hdone).
  - distinct.
  - distinct.
  - distinct.
  - by_evaluation.
  - by_evaluation.
  - by_evaluation.
  - by_evaluation.
  - destruct Hdone as (H1 & H2 & _ & H3 & H4 & H5 & _).
    + vm_compute. lia.
    + vm_compute. lia.
    + refine (conj H1 (conj H2 (conj (H3 _) (conj H4 H5)))). by_evaluation.
Defined.

(** C3, counterexample.  The destination appears between the second
    request's check and its move, and the second request neither meets
    a failure nor discards its staged file: its calls are the failed
    check, [mkdir] and a rename that succeeds; there is no [unlink]
    among them, and its answer has no [deduplicated] member. *)
Lemma race_loser_moves_its_file :
  let temp1 := "/srv/app/public/docs/a/b/tmp1.txt" in
  let temp2 := "/srv/app/public/docs/a/b/tmp2.txt" in
  let dir := "/srv/app/public/docs/a/b" in
  let t0 := hello_staged ["tmp1.txt"; "tmp2.txt"] in
  let s := system_run [false; true; true; true; false; false]
             (racing t0 temp1 temp2 hello_final) in
  log_first s = [Event (CallRename temp1 hello_final) true;
                 Event (CallMkdir dir) true;
                 Event (CallAccess hello_final) false] ∧
  log_second s = [Event (CallRename temp2 hello_final) true;
                  Event (CallMkdir dir) true;
                  Event (CallAccess hello_final) false] ∧
  task_response (hello_request "tmp2.txt") hello_sha (sys_second s)
    = Some (post_success (hello_request "tmp2.txt") hello_sha hello_final) ∧
  member (post_success (hello_request "tmp2.txt") hello_sha hello_final) "deduplicated"
    = None.
Proof. vm_compute. split_and!; reflexivity. Qed.

(** A directory at the final path, as a direct write to a key below it
    leaves one: both requests take the existence check as passed and
    delete their staged files.  Both are through, the directory is
    where it was, and the content is at none of the three paths. *)
Example race_onto_directory :
  let temp1 := "/srv/app/public/docs/a/b/tmp1.txt" in
  let temp2 := "/srv/app/public/docs/a/b/tmp2.txt" in
  let t0 := <[hello_final := Fs.Dir]> (hello_staged ["tmp1.txt"; "tmp2.txt"]) in
  let s := system_run [true; false; false; true] (racing t0 temp1 temp2 hello_final) in
  task_pc (sys_first s) = Resolved ∧ task_pc (sys_second s) = Resolved ∧
  sys_tree s !! hello_final = Some Fs.Dir ∧
  sys_tree s !! temp1 = None ∧ sys_tree s !! temp2 = None ∧
  task_response (hello_request "tmp2.txt") hello_sha (sys_second s)
    = Some (post_success (hello_request "tmp2.txt") hello_sha hello_final).
Proof. vm_compute. split_and!; reflexivity. Qed.
(* ===================================================================== *)
(** * Content addressing *)
(* ===================================================================== *)

Section ContentAddress.

Variables cwd dir : string.

(** What an upload answered with 200 has done. *)
Lemma post_handler_200 (req : post_request) (t t' : Fs.tree) (r : response) :
  post_handler cwd dir req t = (t', r) → status r = 200 →
  ∃ tempPath c finalPath,
    Js.truthy (upload_saved_name req) = true ∧
    staged_path cwd dir req = Ok tempPath ∧
    Fs.lookup_node t tempPath = Some (Fs.File c) ∧
    final_path cwd dir req (fingerprint c) = Ok finalPath ∧
    finalize tempPath finalPath t = (t', Ok tt) ∧
    r = post_success req (fingerprint c) finalPath.
Proof.
  rewrite post_handler_steps. intros H Hs.
  destruct (Js.truthy (upload_saved_name req)) eqn:Hname; cbn [negb] in H.
  2: { injection H as <- <-. done. }
  destruct (staged_path cwd dir req) as [tempPath|e] eqn:Hst.
  2: { injection H as <- <-. done. }
  destruct (computeFileSha256Hex tempPath t) as [t1 [sha|e]] eqn:Hsha.
  2: { injection H as <- <-. done. }
  apply computeFileSha256Hex_Ok in Hsha as (-> & c & Hfile & ->).
  destruct (final_path cwd dir req (fingerprint c)) as [finalPath|e] eqn:Hfin.
  2: { injection H as <- <-. done. }
  destruct (finalize tempPath finalPath t) as [t2 [[]|e]] eqn:Hfz.
  2: { injection H as <- <-. done. }
  injection H as <- <-. by exists tempPath, c, finalPath.
Qed.

(** The final key and path are functions of bucket, directory,
    extension and fingerprint. *)
Lemma final_path_congruence (req1 req2 : post_request) (sha : string) :
  post_bucket req1 = post_bucket req2 →
  upload_dir req1 = upload_dir req2 →
  upload_ext req1 = upload_ext req2 →
  final_key req1 sha = final_key req2 sha ∧
  final_path cwd dir req1 sha = final_path cwd dir req2 sha.
Proof.
  intros Hb Hd He. unfold final_path, final_key. by rewrite Hb, Hd, He.
Qed.

(** C4.  The fingerprint of a staged file is the SHA-256 digest of its
    bytes as 64 lowercase hexadecimal characters; hashing gives it
    whatever the tree and the path, and leaves the tree alone.  Two
    uploads of the same bytes with the same extension into the same
    bucket and directory get the same final key and the same final
    path, and when both are answered with 200 the answers name that
    path and that fingerprint. *)
Theorem content_address (req1 req2 : post_request) (t1 t2 : Fs.tree)
    (temp1 temp2 : string) (c : list Fs.byte) :
  post_bucket req1 = post_bucket req2 →
  upload_dir req1 = upload_dir req2 →
  upload_ext req1 = upload_ext req2 →
  staged_path cwd dir req1 = Ok temp1 →
  staged_path cwd dir req2 = Ok temp2 →
  Fs.lookup_node t1 temp1 = Some (Fs.File c) →
  Fs.lookup_node t2 temp2 = Some (Fs.File c) →
  fingerprint c = Sha256.regs_hex (Sha256.sha256 c)
  ∧ String.length (fingerprint c) = 64%nat
  ∧ all_chars is_lower_hex (fingerprint c) = true
  ∧ computeFileSha256Hex temp1 t1 = (t1, Ok (fingerprint c))
  ∧ computeFileSha256Hex temp2 t2 = (t2, Ok (fingerprint c))
  ∧ final_key req1 (fingerprint c) = final_key req2 (fingerprint c)
  ∧ final_path cwd dir req1 (fingerprint c) = final_path cwd dir req2 (fingerprint c)
  ∧ (∀ t1' t2' r1 r2,
       post_handler cwd dir req1 t1 = (t1', r1) → status r1 = 200 →
       post_handler cwd dir req2 t2 = (t2', r2) → status r2 = 200 →
       member r1 "sha256" = Some (JString (fingerprint c)) ∧
       member r2 "sha256" = Some (JString (fingerprint c)) ∧
       member r1 "key" = Some (JString (final_key req1 (fingerprint c))) ∧
       member r2 "key" = Some (JString (final_key req1 (fingerprint c))) ∧
       ∃ finalPath,
         final_path cwd dir req1 (fingerprint c) = Ok finalPath ∧
         member r1 "path" = Some (JString finalPath) ∧
         member r2 "path" = Some (JString finalPath)).
Proof.
  intros Hb Hd He Hst1 Hst2 Hf1 Hf2.
  destruct (final_path_congruence req1 req2 (fingerprint c) Hb Hd He) as [Hkey Hpath].
  split_and!;
    [ reflexivity | apply regs_hex_length | apply regs_hex_lower
    | by apply computeFileSha256Hex_file | by apply computeFileSha256Hex_file
    | exact Hkey | exact Hpath | ].
  intros t1' t2' r1 r2 H1 Hs1 H2 Hs2.
  destruct (post_handler_200 _ _ _ _ H1 Hs1)
    as (tp1 & c1 & fp1 & _ & Hst1' & Hf1' & Hfin1 & _ & ->).
  destruct (post_handler_200 _ _ _ _ H2 Hs2)
    as (tp2 & c2 & fp2 & _ & Hst2' & Hf2' & Hfin2 & _ & ->).
  assert (tp1 = temp1) as -> by congruence.
  assert (tp2 = temp2) as -> by congruence.
  assert (c1 = c) as -> by congruence.
  assert (c2 = c) as -> by congruence.
  assert (fp1 = fp2) as -> by congruence.
  cbn. rewrite Hkey. split_and!; [done..|]. by exists fp2.
Qed.

End ContentAddress.

(** The example of the specification: ["hello"] uploaded with key
    [a/b/file.txt] to bucket [docs], twice. *)
Lemma content_address_witness :
  final_key (hello_request "tmp1.txt") (fingerprint (bytes_of_string "hello"))
    = "a/b/" +:+ hello_sha +:+ ".txt" ∧
  final_path app_dir app_dir (hello_request "tmp1.txt")
    (fingerprint (bytes_of_string "hello"))
    = final_path app_dir app_dir (hello_request "tmp2.txt")
        (fingerprint (bytes_of_string "hello")).
Proof.
  destruct (content_address app_dir app_dir
              (hello_request "tmp1.txt") (hello_request "tmp2.txt")
              (hello_staged ["tmp1.txt"; "tmp2.txt"]) (hello_staged ["tmp1.txt"; "tmp2.txt"])
              "/srv/app/public/docs/a/b/tmp1.txt" "/srv/app/public/docs/a/b/tmp2.txt"
              (bytes_of_string "hello"))
    as (_ & _ & _ & _ & _ & _ & Hpath & _).
  - reflexivity.
  - reflexivity.
  - reflexivity.
  - by_evaluation.
  - by_evaluation.
  - by_evaluation.
  - by_evaluation.
  - split; [vm_compute; reflexivity | exact Hpath].
Defined.
(* ===================================================================== *)
(** * Extensions and leaf names *)
(* ===================================================================== *)

Section ExtnameFacts.

Lemma substring_no_sep (s : string) (from len : nat) :
  (∀ j ch, (from ≤ j < from + len)%nat → String.get j s = Some ch →
           Path.is_sep ch = false) →
  no_sep (String.substring from len s) = true.
Proof.
  revert from len. induction s as [|a s IH]; intros from len H.
  - by destruct from, len.
  - destruct from as [|from].
    + destruct len as [|len]; [done|]. simpl. rewrite (H 0%nat a); [|lia|done]. simpl.
      apply IH. intros j ch Hj Hget. apply (H (S j) ch); [lia|done].
    + simpl. apply IH. intros j ch Hj Hget. apply (H (S j) ch); [lia|done].
Qed.

Lemma ext_ok_done (path : string) (n : nat) (st : Path.ext_state) :
  ext_ok path n st → ext_done path st.
Proof.
  intros [Hdot Hend] sd e Hsd He j ch Hj Hget.
  destruct (Hdot sd Hsd) as (e' & He' & Hn). simplify_eq.
  destruct (Hend e He) as (_ & _ & Hrange). apply (Hrange j ch); [lia|done].
Qed.

Lemma extname_step_ok (path : string) (i : nat) (ch : ascii) (st : Path.ext_state) :
  String.get i path = Some ch → ext_ok path (S i) st →
  match Path.extname_step i ch st with
  | inl st' => ext_ok path i st'
  | inr st' => ext_done path st'
  end.
Proof.
  intros Hget Hok. unfold Path.extname_step.
  destruct (Path.is_sep ch) eqn:Hsep.
  - destruct (Path.matchedSlash st) eqn:Hms; cbn [negb].
    + destruct Hok as [Hdot Hend]. split.
      * intros sd Hsd. destruct (Hdot sd Hsd) as (e & He & _).
        destruct (Hend e He) as (Hf & _). congruence.
      * intros e He. destruct (Hend e He) as (Hf & _). congruence.
    + apply ext_ok_done in Hok. intros sd e Hsd He. by apply Hok.
  - destruct Hok as [Hdot Hend].
    set (st1 := match Path.end_ st with
                | Some _ => st
                | None => Path.ExtState (Path.startDot st) (Path.startPart st)
                            (Some (S i)) false (Path.preDotState st)
                end).
    assert (Hok1 : ext_ok path i st1 ∧ ∃ e, Path.end_ st1 = Some e ∧ (i < e)%nat).
    { subst st1. destruct (Path.end_ st) as [e|] eqn:He.
      - destruct (Hend e eq_refl) as (Hms & Hle & Hrange). split; [split|].
        + intros sd Hsd. destruct (Hdot sd Hsd) as (e' & He' & Hn).
          exists e'. split; [congruence | lia].
        + intros e' He'. assert (e' = e) as -> by congruence.
          split_and!; [done | lia |].
          intros j c Hj Hc. destruct (decide (j = i)) as [->|Hne]; [congruence|].
          apply (Hrange j c); [lia | done].
        + exists e. split; [done | lia].
      - split; [split|].
        + intros sd Hsd. destruct (Hdot sd Hsd) as (e' & He' & _). congruence.
        + simpl. intros e' [= <-]. split_and!; [done | lia |].
          intros j c Hj Hc. assert (j = i) as -> by lia. congruence.
        + exists (S i). simpl. split; [done | lia]. }
    clearbody st1. destruct Hok1 as (Hok1 & e1 & He1 & Hlt).
    assert (Hset : ∀ st' sd, (i ≤ sd < e1)%nat →
      Path.startDot st' = Some sd → Path.end_ st' = Path.end_ st1 →
      Path.matchedSlash st' = Path.matchedSlash st1 → ext_ok path i st').
    { intros st' sd Hsd Hd He Hm. destruct Hok1 as [_ Hend1]. split.
      - intros ? Hd'. assert (sd0 = sd) as -> by congruence.
        exists e1. split; [congruence | done].
      - rewrite He, Hm. exact Hend1. }
    assert (Hsd : ∀ sd, Path.startDot st1 = Some sd → (i ≤ sd < e1)%nat).
    { intros sd Hsd. destruct Hok1 as [Hdot1 _].
      destruct (Hdot1 sd Hsd) as (e' & He' & Hn).
      assert (e' = e1) as -> by congruence. done. }
    case_bool_decide.
    + destruct (Path.startDot st1) as [sd|] eqn:Hd.
      * case_bool_decide; [|exact Hok1].
        apply (Hset _ sd); [exact (Hsd sd eq_refl) | done | done | done].
      * apply (Hset _ i); [lia | done | done | done].
    + destruct (Path.startDot st1) as [sd|] eqn:Hd; [|exact Hok1].
      apply (Hset _ sd); [exact (Hsd sd eq_refl) | done | done | done].
Qed.

Lemma extname_loop_done (path : string) (n : nat) (st : Path.ext_state) :
  ext_ok path n st → ext_done path (Path.extname_loop path n st).
Proof.
  revert st. induction n as [|i IH]; intros st Hok.
  - by eapply ext_ok_done.
  - simpl. destruct (String.get i path) as [ch|] eqn:Hget.
    + pose proof (extname_step_ok path i ch st Hget Hok) as Hstep.
      destruct (Path.extname_step i ch st) as [st'|st']; [by apply IH | done].
    + apply IH. destruct Hok as [Hdot Hend]. split.
      * intros sd Hsd. destruct (Hdot sd Hsd) as (e & He & Hn).
        exists e. split; [done | lia].
      * intros e He. destruct (Hend e He) as (Hms & Hle & Hrange).
        split_and!; [done | lia |].
        intros j c Hj Hc. destruct (decide (j = i)) as [->|Hne]; [congruence|].
        apply (Hrange j c); [lia | done].
Qed.

(** An extension has no separator in it. *)
Lemma extname_no_sep (path : string) : no_sep (Path.extname path) = true.
Proof.
  unfold Path.extname.
  assert (Hinit : ext_ok path (String.length path) (Path.ExtState None 0 None true 0)).
  { split; simpl; intros; discriminate. }
  pose proof (extname_loop_done path _ _ Hinit) as Hdone.
  destruct (Path.extname_loop path (String.length path) _) as [sd sp e ms pds].
  unfold ext_done in Hdone.
  cbn [Path.startDot Path.end_ Path.preDotState Path.startPart] in *.
  destruct sd as [sd|]; [|done]. destruct e as [e|]; [|done].
  destruct (_ || _); [done|].
  unfold Js.slice. apply substring_no_sep. intros j ch Hj Hget.
  apply (Hdone sd e eq_refl eq_refl j ch); [lia | done].
Qed.

End ExtnameFacts.

Section LeafFacts.

Lemma lower_hex_not_sep (ch : ascii) : is_lower_hex ch = true → Path.is_sep ch = false.
Proof.
  intros H. unfold Path.is_sep. case_bool_decide as E; [|done]. by rewrite E in H.
Qed.

Lemma lower_hex_no_sep (s : string) : all_chars is_lower_hex s = true → no_sep s = true.
Proof.
  induction s as [|ch s IH]; [done|]. simpl.
  intros [Hc Hs]%andb_true_iff. by rewrite (lower_hex_not_sep _ Hc), IH.
Qed.

(** A fingerprint followed by an extension is a plain name. *)
Lemma hashed_name_plain (c : list Fs.byte) (p : string) :
  plain (fingerprint c +:+ Path.extname p).
Proof.
  assert (Hlen : String.length (fingerprint c +:+ Path.extname p)
                 = (64 + String.length (Path.extname p))%nat).
  { rewrite str_length_app. unfold fingerprint. by rewrite regs_hex_length. }
  split_and!.
  - intros E. rewrite E in Hlen. simpl in Hlen. lia.
  - intros E. rewrite E in Hlen. simpl in Hlen. lia.
  - intros E. rewrite E in Hlen. simpl in Hlen. lia.
  - rewrite no_sep_app, extname_no_sep, andb_true_r.
    apply lower_hex_no_sep, regs_hex_lower.
Qed.

Lemma normalize_step_plain_seg (allow : bool) (stack : list string) (seg : string) :
  plain seg → Path.normalize_step allow stack seg = seg :: stack.
Proof.
  intros (H1 & H2 & H3 & _). unfold Path.normalize_step.
  by rewrite !bool_decide_false.
Qed.

Lemma normalize_segments_snoc (allow : bool) (l : list string) (seg : string) :
  plain seg →
  Path.normalize_segments allow (l ++ [seg]) = Path.normalize_segments allow l ++ [seg].
Proof.
  intros Hseg. unfold Path.normalize_segments.
  rewrite fold_left_app. simpl. rewrite normalize_step_plain_seg by done.
  by rewrite reverse_cons.
Qed.

Lemma normalize_step_no_sep (allow : bool) (stack : list string) (seg : string) :
  Forall (λ x, no_sep x = true) stack → no_sep seg = true →
  Forall (λ x, no_sep x = true) (Path.normalize_step allow stack seg).
Proof.
  intros Hst Hseg. unfold Path.normalize_step.
  repeat case_bool_decide; try done.
  - destruct Hst as [|top rest Htop Hrest]; [destruct allow; by repeat constructor|].
    case_bool_decide; [destruct allow; by repeat constructor | done].
  - by constructor.
Qed.

Lemma normalize_segments_no_sep (allow : bool) (l : list string) :
  Forall (λ x, no_sep x = true) l →
  Forall (λ x, no_sep x = true) (Path.normalize_segments allow l).
Proof.
  intros Hl. unfold Path.normalize_segments. apply Forall_reverse.
  assert (H : ∀ stack, Forall (λ x, no_sep x = true) stack →
            Forall (λ x, no_sep x = true) (fold_left (Path.normalize_step allow) l stack)).
  { induction Hl as [|seg l Hseg Hl IH]; intros stack Hst; [done|].
    simpl. apply IH. by apply normalize_step_no_sep. }
  by apply H.
Qed.

Lemma no_sep_not_endsWith (s : string) : no_sep s = true → Js.endsWith s "/" = false.
Proof.
  intros Hs. apply not_true_is_false. intros [r ->]%endsWith_spec.
  rewrite no_sep_app in Hs. apply andb_true_iff in Hs as [_ Hs]. done.
Qed.

Lemma join_sep_snoc_nonempty (l : list string) (x : string) :
  x ≠ "" → Path.join_sep (l ++ [x]) ≠ "".
Proof.
  intros Hx. destruct l as [|y l]; [done|].
  change ((y :: l) ++ [x]) with (y :: (l ++ [x])).
  destruct (l ++ [x]) as [|z l'] eqn:E; [by destruct l|].
  change (Path.join_sep (y :: z :: l')) with (y +:+ "/" +:+ Path.join_sep (z :: l')).
  intros [_ H]%str_app_eq_nil. by apply str_app_eq_nil in H as [? _].
Qed.

Lemma leaf_abs (p : string) : leaf ("/" +:+ p) = leaf p.
Proof.
  unfold leaf. rewrite str_app_cons, str_app_nil_l, split_cons_sep.
  destruct (Path.split p) as [|h t] eqn:E; [by apply split_nonempty in E|].
  by rewrite last_cons_cons.
Qed.

(** The leaf of a directory joined with a plain name is that name. *)
Lemma leaf_join (d name : string) :
  d ≠ "" → plain name → leaf (Path.join [d; name]) = name.
Proof.
  intros Hd Hname. pose proof Hname as (Hne & _ & _ & Hns).
  rewrite join_cons by done. simpl. rewrite (proj2 (truthy_true name) Hne).
  rewrite str_app_nil_r. unfold Path.normalize.
  rewrite bool_decide_false by (intros [? _]%str_app_eq_nil; done).
  unfold Path.sep.
  rewrite (endsWith_sep_app_r d ("/" +:+ name)) by done.
  rewrite (endsWith_sep_app_r "/" name) by done.
  rewrite (no_sep_not_endsWith name Hns).
  unfold Path.normalizeString.
  rewrite split_app_sep, (split_no_sep name Hns), normalize_segments_snoc by done.
  set (X := Path.normalize_segments _ (Path.split d)).
  assert (HX : Forall (λ x, no_sep x = true) X).
  { apply normalize_segments_no_sep, split_all_no_sep. }
  rewrite bool_decide_false by (by apply join_sep_snoc_nonempty).
  assert (Hleaf : leaf (Path.join_sep (X ++ [name])) = name).
  { unfold leaf. rewrite split_join_sep.
    - by rewrite last_snoc.
    - by destruct X.
    - apply Forall_app. split; [done | by constructor]. }
  destruct (Path.isAbsolute (d +:+ "/" +:+ name)); [by rewrite leaf_abs | done].
Qed.

Lemma leaf_key_in (d name : string) : plain name → leaf (key_in d name) = name.
Proof.
  intros Hname. unfold key_in. destruct (Js.truthy d) eqn:Hd.
  - apply leaf_join; [by apply truthy_true | done].
  - unfold leaf. rewrite split_no_sep by apply Hname. done.
Qed.

End LeafFacts.

(* ===================================================================== *)
(** * The name of a stored object *)
(* ===================================================================== *)

(** C5, counterexample.  The key ends in [.txt] and the client's file
    name in [.png]: the object is stored under the fingerprint followed
    by [.png], the extension of the file name and not that of the key. *)
Lemma final_name_takes_extension_of_file_name :
  let req := PostRequest "docs" (Some {[ "key" := "a/b/file.txt" ]})
               (Some (UploadedFile "photo.png" "tmp1.txt" 5)) in
  let r := snd (post_handler app_dir app_dir req (hello_staged ["tmp1.txt"])) in
  status r = 200 ∧
  member r "key" = Some (JString ("a/b/" +:+ hello_sha +:+ ".png")) ∧
  Path.extname "a/b/file.txt" = ".txt" ∧
  leaf ("a/b/" +:+ hello_sha +:+ ".png") = hello_sha +:+ ".png".
Proof. vm_compute. split_and!; reflexivity. Qed.

Section FinalName.

Variables cwd dir : string.

Lemma upload_ext_choice (req : post_request) :
  (upload_original_name req ≠ "" →
     upload_ext req = Path.extname (upload_original_name req)) ∧
  (upload_original_name req = "" → upload_ext req = Path.extname (upload_key req)).
Proof.
  unfold upload_ext, upload_ext_source, Js.or. split.
  - intros Hne. rewrite (proj2 (truthy_true _) Hne). by rewrite (proj2 (truthy_true _) Hne).
  - intros ->. simpl. destruct (Js.truthy (upload_key req)) eqn:E; [done|].
    apply truthy_false in E. by rewrite E.
Qed.

(** C5, as the code has it.  An upload that is answered with 200 had
    a regular file at its staged path; with [c] the bytes of that file,
    the object is stored in the directory part of the logical key under
    the leaf name [fingerprint c ++ ext], where [ext] is the extension
    of the file name the client gave, and the extension of the logical
    key only when that file name is empty.  Nothing else of the request
    enters the final key; with an empty key and an empty file name the
    key is the bare fingerprint. *)
Theorem hashed_upload_name (req : post_request) (t t' : Fs.tree) (r : response) :
  post_handler cwd dir req t = (t', r) → status r = 200 →
  ∃ tempPath c,
    staged_path cwd dir req = Ok tempPath ∧
    Fs.lookup_node t tempPath = Some (Fs.File c) ∧
    member r "sha256" = Some (JString (fingerprint c)) ∧
    member r "key" = Some (JString (final_key req (fingerprint c))) ∧
    final_key req (fingerprint c)
      = key_in (upload_dir req) (fingerprint c +:+ upload_ext req) ∧
    leaf (final_key req (fingerprint c)) = fingerprint c +:+ upload_ext req ∧
    (upload_original_name req ≠ "" →
       upload_ext req = Path.extname (upload_original_name req)) ∧
    (upload_original_name req = "" →
       upload_ext req = Path.extname (upload_key req)) ∧
    (∀ req', upload_dir req' = upload_dir req → upload_ext req' = upload_ext req →
       final_key req' (fingerprint c) = final_key req (fingerprint c)) ∧
    (upload_key req = "" → upload_original_name req = "" →
       final_key req (fingerprint c) = fingerprint c).
Proof.
  intros H Hs.
  destruct (post_handler_200 cwd dir _ _ _ _ H Hs)
    as (tempPath & c & finalPath & _ & Hstaged & Hfile & _ & _ & ->).
  exists tempPath, c. destruct (upload_ext_choice req) as [Hname Hkey].
  split_and!; [done | done | done | done | done | | done | done | |].
  - unfold final_key, upload_ext. apply leaf_key_in, hashed_name_plain.
  - intros req' Hd He. unfold final_key. by rewrite Hd, He.
  - intros Hk Ho. unfold final_key, upload_dir, upload_ext, upload_ext_source.
    rewrite Hk, Ho. change (Path.extname (Js.or (Js.or "" "") "")) with "".
    by rewrite str_app_nil_r.
Qed.

End FinalName.

(** The upload of the counterexample: the staged file holds ["hello"],
    and the leaf name is the fingerprint of ["hello"] followed by
    [.png]. *)
Lemma hashed_upload_name_witness :
  let req := PostRequest "docs" (Some {[ "key" := "a/b/file.txt" ]})
               (Some (UploadedFile "photo.png" "tmp1.txt" 5)) in
  ∃ c,
    Fs.lookup_node (hello_staged ["tmp1.txt"]) "/srv/app/public/docs/a/b/tmp1.txt"
      = Some (Fs.File c) ∧
    c = bytes_of_string "hello" ∧
    leaf (final_key req (fingerprint c)) = fingerprint c +:+ ".png".
Proof.
  intros req.
  destruct (hashed_upload_name app_dir app_dir req (hello_staged ["tmp1.txt"])
              (fst (post_handler app_dir app_dir req (hello_staged ["tmp1.txt"])))
              (snd (post_handler app_dir app_dir req (hello_staged ["tmp1.txt"]))))
    as (tempPath & c & Hstaged & Hfile & _ & _ & _ & Hleaf & Hext & _).
  - by destruct (post_handler _ _ _ _).
  - by_evaluation.
  - assert (tempPath = "/srv/app/public/docs/a/b/tmp1.txt") as ->.
    { vm_compute in Hstaged. by injection Hstaged. }
    exists c. split_and!; [done | |].
    + vm_compute in Hfile. by injection Hfile.
    + rewrite Hleaf, Hext; [reflexivity | discriminate].
Defined.

(* ===================================================================== *)
(** * Answers *)
(* ===================================================================== *)

(** C6, counterexample.  A direct write that finished is answered
    without any byte size, and the URL of either answer starts with
    [/public/], the mount point of the static files, before the
    bucket. *)
Lemma put_answer_has_no_size :
  let put := snd (put_handler app_dir app_dir
                    (PutRequest "docs" (Some "notes/a.txt") [bytes_of_string "first"])
                    tree0) in
  let post := snd (post_handler app_dir app_dir (hello_request "tmp1.txt")
                     (hello_staged ["tmp1.txt"])) in
  status put = 200 ∧
  member put "size" = None ∧
  member put "url" = Some (JString "/public/docs/notes/a.txt") ∧
  status post = 200 ∧
  member post "url" = Some (JString ("/public/docs/a/b/" +:+ hello_sha +:+ ".txt")).
Proof. vm_compute. split_and!; reflexivity. Qed.

Section Answers.

Variables cwd dir : string.

(** C6, as the code has it.  An upload that went through had a regular
    file at its staged path; with [c] the bytes of that file, it is
    answered with the bucket, the final key (the name of [c] in the
    upload directory), the final path, the URL [/public/<bucket>/<key>]
    (backslashes turned into slashes), the size multer recorded for the
    file and the fingerprint of [c].  A direct write that finished is
    answered with the bucket, the key, the path written and the URL of
    the same form, and with nothing else: neither a size nor a
    fingerprint. *)
Theorem success_answers :
  (∀ (req : post_request) (t t' : Fs.tree) (r : response),
     post_handler cwd dir req t = (t', r) → status r = 200 →
     ∃ tempPath c finalPath file,
       post_file req = Some file ∧
       staged_path cwd dir req = Ok tempPath ∧
       Fs.lookup_node t tempPath = Some (Fs.File c) ∧
       final_path cwd dir req (fingerprint c) = Ok finalPath ∧
       body r = JsonBody
         [("bucket", JString (post_bucket req));
          ("key", JString (final_key req (fingerprint c)));
          ("path", JString finalPath);
          ("url", JString (Js.replace_backslashes
             ("/public/" +:+ post_bucket req +:+ "/" +:+ final_key req (fingerprint c))));
          ("size", JNumber (size file));
          ("sha256", JString (fingerprint c))])
  ∧
  (∀ (req : put_request) (t t' : Fs.tree) (r : response),
     put_handler cwd dir req t = (t', r) → status r = 200 →
     ∃ key outPath,
       put_key req = Some key ∧
       resolveSafePath cwd (publicRoot cwd dir) [put_bucket req; key] = Ok outPath ∧
       body r = JsonBody
         [("bucket", JString (put_bucket req));
          ("key", JString key);
          ("path", JString outPath);
          ("url", JString (Js.replace_backslashes
             ("/public/" +:+ put_bucket req +:+ "/" +:+ key)))] ∧
       member r "size" = None ∧ member r "sha256" = None).
Proof.
  split.
  - intros req t t' r H Hs.
    destruct (post_handler_200 cwd dir _ _ _ _ H Hs)
      as (tempPath & c & finalPath & Hname & Hstaged & Hfile' & Hfin & _ & ->).
    unfold upload_saved_name in Hname.
    destruct (post_file req) as [file|] eqn:Hfile; [|done].
    exists tempPath, c, finalPath, file. split_and!; [done | done | done | done |].
    unfold post_success. by rewrite Hfile.
  - intros req t t' r H Hs.
    destruct (put_handler_200 cwd dir _ _ _ _ H Hs)
      as (key & outPath & t1 & Hkey & _ & Hres & _ & _ & ->).
    exists key, outPath. split_and!; done.
Qed.

End Answers.

(** The direct write and the upload of the counterexample: the answer
    to the upload names the fingerprint of ["hello"], the bytes of the
    staged file. *)
Lemma success_answers_witness :
  (∃ key outPath,
    body (snd (put_handler app_dir app_dir
                 (PutRequest "docs" (Some "notes/a.txt") [bytes_of_string "first"]) tree0))
    = JsonBody
        [("bucket", JString "docs"); ("key", JString key); ("path", JString outPath);
         ("url", JString (Js.replace_backslashes ("/public/" +:+ "docs" +:+ "/" +:+ key)))])
  ∧
  (∃ c,
    Fs.lookup_node (hello_staged ["tmp1.txt"]) "/srv/app/public/docs/a/b/tmp1.txt"
      = Some (Fs.File c) ∧
    c = bytes_of_string "hello" ∧
    member (snd (post_handler app_dir app_dir (hello_request "tmp1.txt")
                   (hello_staged ["tmp1.txt"]))) "sha256"
      = Some (JString (fingerprint c)) ∧
    member (snd (post_handler app_dir app_dir (hello_request "tmp1.txt")
                   (hello_staged ["tmp1.txt"]))) "size"
      = Some (JNumber 5)).
Proof.
  destruct (success_answers app_dir app_dir) as [Hpost Hput]. split.
  - destruct (Hput (PutRequest "docs" (Some "notes/a.txt") [bytes_of_string "first"]) tree0
                (fst (put_handler app_dir app_dir
                   (PutRequest "docs" (Some "notes/a.txt") [bytes_of_string "first"]) tree0))
                (snd (put_handler app_dir app_dir
                   (PutRequest "docs" (Some "notes/a.txt") [bytes_of_string "first"]) tree0)))
      as (key & outPath & _ & _ & Hbody & _).
    + by destruct (put_handler _ _ _ _).
    + by_evaluation.
    + exists key, outPath. exact Hbody.
  - destruct (Hpost (hello_request "tmp1.txt") (hello_staged ["tmp1.txt"])
                (fst (post_handler app_dir app_dir (hello_request "tmp1.txt")
                        (hello_staged ["tmp1.txt"])))
                (snd (post_handler app_dir app_dir (hello_request "tmp1.txt")
                        (hello_staged ["tmp1.txt"]))))
      as (tempPath & c & finalPath & file & Hfile & Hstaged & Hlk & _ & Hbody).
    + by destruct (post_handler _ _ _ _).
    + by_evaluation.
    + assert (tempPath = "/srv/app/public/docs/a/b/tmp1.txt") as ->.
      { vm_compute in Hstaged. by injection Hstaged. }
      injection Hfile as <-.
      exists c. unfold member. rewrite Hbody. split_and!; [done | | done | done].
      vm_compute in Hlk. by injection Hlk.
Defined.

(* ===================================================================== *)
(** * Failures *)
(* ===================================================================== *)

Section Failures.

Variables cwd dir : string.

(** An upload is answered with 200 or with 400, whatever went wrong. *)
Lemma post_handler_status (req : post_request) (t : Fs.tree) :
  status (snd (post_handler cwd dir req t)) = 200 ∨
  status (snd (post_handler cwd dir req t)) = 400.
Proof.
  rewrite post_handler_steps.
  destruct (negb _); [by right|].
  destruct (staged_path cwd dir req); [|by right].
  destruct (computeFileSha256Hex _ t) as [t1 [sha|e]]; [|by right].
  destruct (final_path cwd dir req sha); [|by right].
  destruct (finalize _ _ t1) as [t2 [[]|e]]; [by left | by right].
Qed.

(** A request that lacks its file or its key, or whose path does not
    resolve, is answered with 400. *)
Lemma client_errors :
  (∀ req t, post_file req = None →
     post_handler cwd dir req t = (t, failure 400 "Missing uploaded file")) ∧
  (∀ req t, put_key req = None ∨ put_key req = Some "" →
     put_handler cwd dir req t = (t, failure 400 "Missing key")) ∧
  (∀ req t, Js.truthy (upload_saved_name req) = true →
     staged_path cwd dir req = Err InvalidPathError →
     post_handler cwd dir req t = (t, failure 400 "Invalid path")) ∧
  (∀ req t key, put_key req = Some key → key ≠ "" →
     resolveSafePath cwd (publicRoot cwd dir) [put_bucket req; key] = Err InvalidPathError →
     put_handler cwd dir req t = (t, failure 400 "Invalid path")).
Proof.
  split_and!.
  - intros req t Hfile. rewrite post_handler_steps. unfold upload_saved_name.
    by rewrite Hfile.
  - intros req t [Hk|Hk]; unfold put_handler; by rewrite Hk.
  - intros req t Hname Hst. rewrite post_handler_steps. by rewrite Hname, Hst.
  - intros req t key Hk Hne Hres. unfold put_handler. rewrite Hk. simpl.
    rewrite (proj2 (truthy_true key) Hne). simpl.
    unfold bind, lift. by rewrite Hres.
Qed.

End Failures.

(** C8.  Failures of the file system that are answered with 400 and not
    with 500: a direct write below a path that is a regular file, whose
    [mkdir] fails, and an upload whose staged file cannot be read. *)
Lemma io_failures_answered_400 :
  let t1 := fst (put_handler app_dir app_dir
                   (PutRequest "docs" (Some "x") [bytes_of_string "v"]) tree0) in
  let put := snd (put_handler app_dir app_dir
                    (PutRequest "docs" (Some "x/y") [bytes_of_string "w"]) t1) in
  let post := snd (post_handler app_dir app_dir (hello_request "tmp1.txt") hello_dir_tree) in
  t1 !! "/srv/app/public/docs/x" = Some (Fs.File (bytes_of_string "v")) ∧
  put = failure 400 "EEXIST: file already exists, mkdir '/srv/app/public/docs/x'" ∧
  post = failure 400
    "ENOENT: no such file or directory, open '/srv/app/public/docs/a/b/tmp1.txt'".
Proof. vm_compute. split_and!; reflexivity. Qed.

(* ===================================================================== *)
(** * The two spellings of the key field *)
(* ===================================================================== *)

Section KeyAlias.

Variables cwd dir : string.

Lemma rawKey_read (fields : gmap string string) :
  rawKey (Some fields) =
  match fields !! "key" with
  | Some s => if Js.truthy s then s else default "" (fields !! "Key")
  | None => default "" (fields !! "Key")
  end.
Proof.
  unfold rawKey, Js.or_undef. destruct (fields !! "key") as [s|]; [|done].
  by destruct (Js.truthy s).
Qed.

(** The storage callbacks and the handler see the body through
    [rawKey] only. *)
Lemma upload_depends_on_rawKey (req1 req2 : post_request) :
  post_bucket req1 = post_bucket req2 →
  rawKey (post_body req1) = rawKey (post_body req2) →
  post_file req1 = post_file req2 →
  (∀ t, storage_destination cwd dir req1 t = storage_destination cwd dir req2 t) ∧
  (∀ rnd name, storage_filename rnd req1 name = storage_filename rnd req2 name) ∧
  (∀ t, post_handler cwd dir req1 t = post_handler cwd dir req2 t).
Proof.
  intros Hb Hk Hf. split_and!.
  - intros t. unfold storage_destination. by rewrite Hb, Hk.
  - intros rnd name. unfold storage_filename. by rewrite Hk.
  - intros t. unfold post_handler. by rewrite Hb, Hk, Hf.
Qed.

(** C10.  The logical key is the form field [key], and the field [Key]
    when [key] is absent or empty.  The staging destination, the name of
    the staged file and the handler all read it this way, so a request
    that carries the key as [Key] only is treated like the request that
    carries it as [key] only. *)
Theorem capital_Key_alias (bucket k : string) (fields : gmap string string)
    (file : option uploaded_file) :
  let with_Key := PostRequest bucket (Some (<["Key" := k]> (delete "key" fields))) file in
  let with_key := PostRequest bucket (Some (<["key" := k]> (delete "Key" fields))) file in
  (∀ body, rawKey (Some body) =
     match body !! "key" with
     | Some s => if Js.truthy s then s else default "" (body !! "Key")
     | None => default "" (body !! "Key")
     end)
  ∧ rawKey (post_body with_Key) = k
  ∧ rawKey (post_body with_key) = k
  ∧ (∀ t, storage_destination cwd dir with_Key t = storage_destination cwd dir with_key t)
  ∧ (∀ rnd name, storage_filename rnd with_Key name = storage_filename rnd with_key name)
  ∧ (∀ t, post_handler cwd dir with_Key t = post_handler cwd dir with_key t).
Proof.
  intros with_Key with_key.
  assert (HK : rawKey (post_body with_Key) = k).
  { subst with_Key. cbn [post_body]. rewrite rawKey_read.
    rewrite lookup_insert_ne by done. rewrite lookup_delete_eq.
    by rewrite lookup_insert_eq. }
  assert (Hk : rawKey (post_body with_key) = k).
  { subst with_key. cbn [post_body]. rewrite rawKey_read.
    rewrite lookup_insert_eq. destruct (Js.truthy k) eqn:E; [done|].
    rewrite lookup_insert_ne by done. rewrite lookup_delete_eq.
    apply truthy_false in E. by rewrite E. }
  split_and!; [apply rawKey_read | done | done | ..];
    apply upload_depends_on_rawKey; try done; congruence.
Qed.

End KeyAlias.

Section Renormalize.

Local Abbreviation nstep := Path.normalize_step.

Lemma normalize_step_skipped (a : bool) (stack : list string) (seg : string) :
  skipped seg → nstep a stack seg = stack.
Proof. intros [-> | ->]; reflexivity. Qed.

Lemma normalize_step_push (a : bool) (stack : list string) (seg : string) :
  seg ≠ "" → seg ≠ "." → seg ≠ ".." → nstep a stack seg = seg :: stack.
Proof.
  intros H1 H2 H3. unfold Path.normalize_step. by rewrite !bool_decide_false.
Qed.

Lemma normalize_step_up (a : bool) (stack : list string) :
  nstep a stack ".." =
  match stack with
  | top :: rest =>
      if bool_decide (top = "..") then (if a then ".." :: stack else stack) else rest
  | [] => if a then [".."] else []
  end.
Proof. reflexivity. Qed.

Lemma normalize_step_kept (a : bool) (stack : list string) (seg : string) :
  Forall kept stack → Forall kept (nstep a stack seg).
Proof.
  intros Hst. unfold Path.normalize_step.
  repeat case_bool_decide; try done.
  - destruct Hst as [|top rest Htop Hrest]; [destruct a; by repeat constructor|].
    case_bool_decide; [|done]. destruct a; [|by constructor].
    constructor; [done | by constructor].
  - by constructor.
Qed.

Lemma fold_normalize_kept (a : bool) (segs stack : list string) :
  Forall kept stack → Forall kept (fold_left (nstep a) segs stack).
Proof.
  revert stack. induction segs as [|seg segs IH]; intros stack Hst; [done|].
  simpl. apply IH. by apply normalize_step_kept.
Qed.

(** Going through a normalized list of pieces again is going through
    the list itself. *)
Lemma renormalize_step (a : bool) (S0 S : list string) (seg : string) :
  Forall kept S0 →
  fold_left (nstep a) (reverse (nstep true S0 seg)) S
  = nstep a (fold_left (nstep a) (reverse S0) S) seg.
Proof.
  intros HS0.
  destruct (decide (seg = "")) as [->|H1]; [done|].
  destruct (decide (seg = ".")) as [->|H2]; [done|].
  destruct (decide (seg = "..")) as [->|H3].
  - rewrite !normalize_step_up.
    destruct S0 as [|top rest]; [done|].
    destruct (decide (top = "..")) as [->|Htop].
    + rewrite bool_decide_true by done.
      rewrite !reverse_cons, !fold_left_app. simpl. by rewrite normalize_step_up.
    + rewrite bool_decide_false by done.
      rewrite reverse_cons, fold_left_app. simpl.
      apply Forall_cons in HS0 as [[Ha Hb] _].
      rewrite (normalize_step_push a _ top) by done.
      by rewrite bool_decide_false.
  - rewrite (normalize_step_push true) by done.
    by rewrite reverse_cons, fold_left_app.
Qed.

Lemma renormalize_from (a : bool) (B S0 S : list string) :
  Forall kept S0 →
  fold_left (nstep a) (reverse (fold_left (nstep true) B S0)) S
  = fold_left (nstep a) B (fold_left (nstep a) (reverse S0) S).
Proof.
  revert S0. induction B as [|seg B IH]; intros S0 HS0; [done|].
  simpl. rewrite IH by (by apply normalize_step_kept).
  by rewrite renormalize_step.
Qed.

Lemma renormalize (a : bool) (B S : list string) :
  fold_left (nstep a) (Path.normalize_segments true B) S = fold_left (nstep a) B S.
Proof. unfold Path.normalize_segments. by rewrite renormalize_from. Qed.

(** Plain pieces are all kept, in their order. *)
Lemma fold_normalize_push (a : bool) (L S : list string) :
  Forall plain L → fold_left (nstep a) L S = reverse L ++ S.
Proof.
  revert S. induction L as [|x L IH]; intros S HL; [done|].
  apply Forall_cons in HL as [(H1 & H2 & H3 & _) HL].
  simpl. rewrite normalize_step_push by done. rewrite IH by done.
  by rewrite reverse_cons, <- app_assoc.
Qed.

End Renormalize.

Section NormalForms.

Local Abbreviation nstep := Path.normalize_step.

Lemma fold_cons_skipped (a : bool) (seg : string) (l S : list string) :
  skipped seg → fold_left (nstep a) (seg :: l) S = fold_left (nstep a) l S.
Proof. intros H. simpl. by rewrite normalize_step_skipped. Qed.

Lemma fold_snoc_skipped (a : bool) (seg : string) (l S : list string) :
  skipped seg → fold_left (nstep a) (l ++ [seg]) S = fold_left (nstep a) l S.
Proof. intros H. rewrite fold_left_app. simpl. by rewrite normalize_step_skipped. Qed.

Lemma normalize_segments_kept (a : bool) (segs : list string) :
  Forall kept (Path.normalize_segments a segs).
Proof. apply Forall_reverse, fold_normalize_kept. constructor. Qed.

Lemma join_sep_cons_nonempty (c : string) (cs : list string) :
  c ≠ "" → Path.join_sep (c :: cs) ≠ "".
Proof.
  intros Hc. destruct cs as [|d cs]; [done|].
  change (Path.join_sep (c :: d :: cs)) with (c +:+ "/" +:+ Path.join_sep (d :: cs)).
  by intros [? _]%str_app_eq_nil.
Qed.

Lemma join_sep_cons_relative (c : string) (cs : list string) :
  c ≠ "" → no_sep c = true → Path.isAbsolute (Path.join_sep (c :: cs)) = false.
Proof.
  intros Hc Hns. destruct c as [|ch c]; [done|].
  simpl in Hns. apply andb_true_iff in Hns as [Hch _].
  destruct cs as [|d cs]; simpl; by apply negb_true_iff in Hch.
Qed.

(** The pieces of a normalized path are the pieces [normalizeString]
    kept. *)
Lemma pieces_normalize (a : bool) (s : string) (S : list string) :
  s ≠ "" →
  fold_left (nstep a) (Path.split (Path.normalize s)) S
  = fold_left (nstep a)
      (Path.normalize_segments (negb (Path.isAbsolute s)) (Path.split s)) S.
Proof.
  intros Hs. unfold Path.normalize, Path.normalizeString.
  rewrite bool_decide_false by done.
  pose proof (normalize_segments_kept (negb (Path.isAbsolute s)) (Path.split s)) as Hk.
  pose proof (normalize_segments_no_sep (negb (Path.isAbsolute s)) (Path.split s)
                (split_all_no_sep s)) as Hns.
  destruct (Path.normalize_segments _ (Path.split s)) as [|c cs] eqn:E.
  - simpl. destruct (Path.isAbsolute s), (Js.endsWith s Path.sep); reflexivity.
  - apply Forall_cons in Hk as Hk'. destruct Hk' as [[Hc _] _].
    rewrite bool_decide_false by (by apply join_sep_cons_nonempty).
    assert (Hsplit : Path.split (Path.join_sep (c :: cs)) = c :: cs)
      by (by apply split_join_sep).
    assert (Htrail : Path.split (Path.join_sep (c :: cs) +:+ "/") = (c :: cs) ++ [""]).
    { rewrite <- (str_app_nil_r (Path.join_sep (c :: cs) +:+ "/")).
      rewrite str_app_assoc, split_app_sep, Hsplit. done. }
    destruct (Path.isAbsolute s), (Js.endsWith s Path.sep);
      rewrite ?str_app_cons, ?str_app_nil_l, ?split_cons_sep, ?Htrail, ?Hsplit;
      rewrite ?fold_cons_skipped by (by left);
      rewrite ?fold_snoc_skipped by (by left); reflexivity.
Qed.

Lemma isAbsolute_normalize (s : string) :
  s ≠ "" → Path.isAbsolute (Path.normalize s) = Path.isAbsolute s.
Proof.
  intros Hs. destruct (Path.isAbsolute s) eqn:Habs; [by apply normalize_absolute|].
  unfold Path.normalize, Path.normalizeString.
  rewrite bool_decide_false by done. rewrite Habs. cbn [negb].
  pose proof (normalize_segments_kept true (Path.split s)) as Hk.
  pose proof (normalize_segments_no_sep true (Path.split s) (split_all_no_sep s)) as Hns.
  destruct (Path.normalize_segments _ (Path.split s)) as [|c cs] eqn:E.
  - simpl. by destruct (Js.endsWith s Path.sep).
  - apply Forall_cons in Hk as [[Hc _] _]. apply Forall_cons in Hns as [Hnc _].
    rewrite bool_decide_false by (by apply join_sep_cons_nonempty).
    destruct (Js.endsWith s Path.sep).
    + rewrite isAbsolute_app by (by apply join_sep_cons_nonempty).
      by apply join_sep_cons_relative.
    + by apply join_sep_cons_relative.
Qed.

(** A normalized absolute path read back piece by piece. *)
Lemma pieces_abs_path (a : bool) (R : list string) :
  Forall plain R → fold_left (nstep a) (Path.split (abs_path R)) [] = reverse R.
Proof.
  intros HR. unfold abs_path. rewrite str_app_cons, str_app_nil_l, split_cons_sep.
  rewrite fold_cons_skipped by (by left).
  destruct R as [|r R]; [done|].
  rewrite split_join_sep; [|done|].
  - rewrite fold_normalize_push by done. by rewrite app_nil_r.
  - eapply Forall_impl; [exact HR|]. intros x Hx. by apply plain_no_sep.
Qed.

(** [path.resolve(root, u)] for a normalized absolute [root]: the
    pieces of [u], taken from [root], or from [/] when [u] is absolute. *)
Lemma resolve_from_root (cwd : string) (R : list string) (u : string) :
  Forall plain R →
  Path.resolve cwd [abs_path R; u]
  = abs_path (reverse (fold_left (nstep false) (Path.split u)
                         (if Path.isAbsolute u then [] else reverse R))).
Proof.
  intros HR.
  destruct (Path.isAbsolute u) eqn:Habs.
  - rewrite resolve_absolute_last by done. unfold Path.normalizeString, abs_path.
    unfold Path.normalize_segments.
    rewrite <- (str_app_nil_r (u +:+ "/")), str_app_assoc, split_app_sep.
    change (Path.split "") with [""].
    by rewrite fold_snoc_skipped by (by left).
  - unfold Path.resolve. change (reverse [abs_path R; u]) with [u; abs_path R].
    assert (Hroot : Path.isAbsolute (abs_path R) = true) by done.
    assert (Hne : abs_path R ≠ "") by done.
    destruct (decide (u = "")) as [->|Hu].
    + cbn [Path.resolve_loop]. rewrite bool_decide_true by done.
      rewrite bool_decide_false by done. rewrite Hroot. cbn [negb].
      unfold Path.normalizeString, abs_path at 2, Path.normalize_segments.
      rewrite split_app_sep, fold_left_app, pieces_abs_path by done. reflexivity.
    + cbn [Path.resolve_loop]. rewrite bool_decide_false by done. rewrite Habs.
      rewrite bool_decide_false by done. rewrite Hroot. cbn [negb].
      unfold Path.normalizeString, abs_path at 2, Path.normalize_segments.
      rewrite !split_app_sep, !fold_left_app, pieces_abs_path by done.
      simpl. by rewrite normalize_step_skipped by (by left).
Qed.

End NormalForms.

Section DirnameFacts.

Lemma get_app_sep (p rest : string) :
  String.get (String.length p) (p +:+ String "/" rest) = Some "/"%char.
Proof. induction p as [|a p IH]; [done|]. simpl. exact IH. Qed.

Lemma get_app_after (p rest : string) (j : nat) :
  String.get (String.length p + S j) (p +:+ String "/" rest) = String.get j rest.
Proof. induction p as [|a p IH]; [done|]. simpl. exact IH. Qed.

Lemma get_no_sep (s : string) (j : nat) (c : ascii) :
  no_sep s = true → String.get j s = Some c → Path.is_sep c = false.
Proof.
  revert j. induction s as [|a s IH]; intros j Hns Hget; [by destruct j|].
  simpl in Hns. apply andb_true_iff in Hns as [Ha Hs].
  destruct j as [|j]; simpl in Hget.
  - injection Hget as <-. by apply negb_true_iff in Ha.
  - by apply (IH j).
Qed.

Lemma get_lt (s : string) (j : nat) :
  (j < String.length s)%nat → ∃ c, String.get j s = Some c.
Proof.
  revert j. induction s as [|a s IH]; intros j Hj; simpl in Hj; [lia|].
  destruct j as [|j]; [by eexists|]. simpl. apply IH. lia.
Qed.

Lemma substring_prefix (p rest : string) :
  String.substring 0 (String.length p) (p +:+ rest) = p.
Proof.
  induction p as [|a p IH]; simpl.
  - by destruct rest.
  - by rewrite IH.
Qed.

Lemma dirname_loop_entry (p name : string) (k : nat) (ms : bool) :
  p ≠ "" → no_sep name = true → (k ≤ String.length name)%nat →
  (k = 0%nat → ms = false) →
  Path.dirname_loop (p +:+ String "/" name) (String.length p + k) ms
  = Some (String.length p).
Proof.
  intros Hp Hns. revert ms. induction k as [|k IH]; intros ms Hk Hms.
  - rewrite Hms by done. rewrite Nat.add_0_r.
    destruct (String.length p) as [|n] eqn:Hlen; [by destruct p|].
    cbn [Path.dirname_loop]. rewrite <- Hlen, get_app_sep. by rewrite Hlen.
  - rewrite Nat.add_succ_r. cbn [Path.dirname_loop].
    rewrite <- Nat.add_succ_r, get_app_after.
    destruct (get_lt name k ltac:(lia)) as [c Hc]. rewrite Hc.
    rewrite (get_no_sep name k c Hns Hc). apply IH; [lia | done].
Qed.

(** The directory part of an entry [name] written after [p]. *)
Lemma dirname_entry (p name : string) :
  p ≠ "" → p ≠ "/" → name ≠ "" → no_sep name = true →
  Path.dirname (p +:+ "/" +:+ name) = p.
Proof.
  intros Hp Hroot Hname Hns. unfold Path.dirname.
  rewrite bool_decide_false by (by intros [? _]%str_app_eq_nil).
  change (p +:+ "/" +:+ name) with (p +:+ String "/" name).
  assert (Hlen : (String.length (p +:+ String "/" name) - 1
                  = String.length p + String.length name)%nat).
  { rewrite str_length_app. simpl. lia. }
  rewrite Hlen, dirname_loop_entry; [|done|done|lia|].
  - assert (Hone : Path.isAbsolute (p +:+ String "/" name)
                   && bool_decide (String.length p = 1%nat) = false).
    { apply andb_false_iff. destruct p as [|a [|b p]]; [done| |right; done].
      left. simpl. unfold Path.is_sep. apply bool_decide_false. congruence. }
    rewrite Hone. unfold Js.slice. rewrite Nat.sub_0_r. apply substring_prefix.
  - intros Hz. destruct name; [done | simpl in Hz; lia].
Qed.

Lemma dirname_top (name : string) :
  name ≠ "" → no_sep name = true → Path.dirname ("/" +:+ name) = "/".
Proof.
  intros Hname Hns. unfold Path.dirname. rewrite bool_decide_false by done.
  assert (H : ∀ k ms, (k ≤ String.length name)%nat →
            Path.dirname_loop (String "/" name) k ms = None).
  { induction k as [|k IH]; intros ms Hk; [done|].
    cbn [Path.dirname_loop String.get]. simpl.
    destruct (get_lt name k ltac:(lia)) as [c Hc]. rewrite Hc.
    rewrite (get_no_sep name k c Hns Hc). apply IH. lia. }
  change ("/" +:+ name) with (String "/" name).
  rewrite H; [done | simpl; lia].
Qed.

Lemma abs_path_snoc (C : list string) (name : string) :
  C ≠ [] → abs_path (C ++ [name]) = abs_path C +:+ "/" +:+ name.
Proof.
  intros HC. unfold abs_path. rewrite str_app_assoc. f_equal.
  induction C as [|c C IH]; [done|].
  destruct C as [|d C]; [done|].
  change (Path.join_sep ((c :: d :: C) ++ [name]))
    with (c +:+ "/" +:+ Path.join_sep ((d :: C) ++ [name])).
  rewrite IH by done.
  change (Path.join_sep (c :: d :: C)) with (c +:+ "/" +:+ Path.join_sep (d :: C)).
  by rewrite !str_app_assoc.
Qed.

Lemma abs_path_ne_root (c : string) (C : list string) :
  c ≠ "" → abs_path (c :: C) ≠ "/".
Proof.
  intros Hc. unfold abs_path. rewrite str_app_cons, str_app_nil_l.
  intros [= H]. by apply (join_sep_cons_nonempty c C).
Qed.

(** The directory part of a normalized absolute path: all components
    but the last. *)
Lemma dirname_abs_path (C : list string) (name : string) :
  Forall plain C → plain name →
  Path.dirname (abs_path (C ++ [name])) = abs_path C.
Proof.
  intros HC (Hne & _ & _ & Hns). destruct C as [|c C].
  - by apply dirname_top.
  - rewrite abs_path_snoc by done. apply Forall_cons in HC as [(Hc & _) _].
    apply dirname_entry; [done | by apply abs_path_ne_root | done | done].
Qed.

End DirnameFacts.

Section JoinPieces.

Local Abbreviation nstep := Path.normalize_step.

Lemma join_args_app (j : option string) (l1 l2 : list string) :
  Path.join_args j (l1 ++ l2) = Path.join_args (Path.join_args j l1) l2.
Proof.
  revert j. induction l1 as [|a l1 IH]; intros j; [done|].
  simpl. destruct (Js.truthy a); apply IH.
Qed.

Lemma join_args_nonempty (args : list string) (j : string) :
  Path.join_args None args = Some j → j ≠ "".
Proof.
  induction args as [|a args IH]; [done|]. simpl.
  destruct (Js.truthy a) eqn:Ha; [|exact IH].
  rewrite join_args_Some. intros [= <-]. apply truthy_true in Ha.
  by intros [? _]%str_app_eq_nil.
Qed.

Lemma join_snoc (segs : list string) (name : string) :
  name ≠ "" →
  Path.join (segs ++ [name])
  = Path.normalize (match Path.join_args None segs with
                    | None => name
                    | Some j => j +:+ "/" +:+ name
                    end).
Proof.
  intros Hname. unfold Path.join. rewrite join_args_app. simpl.
  rewrite (proj2 (truthy_true name) Hname).
  by destruct (Path.join_args None segs).
Qed.

(** The pieces [normalizeString] kept, gone through again from a stack. *)
Lemma fold_normalize_segments (b : bool) (X S : list string) :
  Forall (λ x, no_sep x = true) X →
  fold_left (nstep false) (Path.normalize_segments b X) S
  = if b then fold_left (nstep false) X S
    else fold_left (nstep false) X [] ++ S.
Proof.
  intros HX. destruct b; [apply renormalize|].
  rewrite fold_normalize_push by (by apply normalize_segments_plain).
  unfold Path.normalize_segments. by rewrite reverse_involutive.
Qed.

Lemma resolved_pieces_plain (R : list string) (u : string) :
  Forall plain R → Forall plain (resolved_pieces R u).
Proof.
  intros HR. apply Forall_reverse, fold_normalize_plain; [|apply split_all_no_sep].
  destruct (Path.isAbsolute u); [constructor | by apply Forall_reverse].
Qed.

Lemma resolved_pieces_normalize (R : list string) (j : string) :
  j ≠ "" →
  resolved_pieces R (Path.normalize j)
  = reverse (fold_left (nstep false) (Path.split j)
               (if Path.isAbsolute j then [] else reverse R)).
Proof.
  intros Hj. unfold resolved_pieces. rewrite isAbsolute_normalize by done.
  rewrite pieces_normalize by done. f_equal.
  rewrite fold_normalize_segments by apply split_all_no_sep.
  destruct (Path.isAbsolute j); [by rewrite app_nil_r | done].
Qed.

(** One more name after the segments: one more component. *)
Lemma resolved_pieces_snoc (R segs : list string) (name : string) :
  plain name →
  resolved_pieces R (Path.join (segs ++ [name]))
  = resolved_pieces R (Path.join segs) ++ [name].
Proof.
  intros Hname. pose proof Hname as (Hne & H1 & H2 & Hns).
  rewrite join_snoc by done. unfold Path.join.
  destruct (Path.join_args None segs) as [j|] eqn:Hj.
  - pose proof (join_args_nonempty _ _ Hj) as Hjne.
    rewrite !resolved_pieces_normalize;
      [|done | by intros [? _]%str_app_eq_nil].
    rewrite isAbsolute_app by done.
    rewrite split_app_sep, (split_no_sep name Hns), fold_left_app. simpl.
    rewrite normalize_step_push by done. by rewrite reverse_cons.
  - rewrite resolved_pieces_normalize by done.
    destruct (plain_head name Hname) as (c & name' & -> & Hc).
    assert (Habs : Path.isAbsolute (String c name') = false).
    { simpl. unfold Path.is_sep. by apply bool_decide_false. }
    rewrite Habs, (split_no_sep _ Hns). simpl.
    rewrite normalize_step_push by done.
    unfold resolved_pieces. simpl. by rewrite reverse_cons.
Qed.

Lemma join_abs_path (C : list string) (name : string) :
  Forall plain C → plain name →
  Path.join [abs_path C; name] = abs_path (C ++ [name]).
Proof.
  intros HC Hname. pose proof Hname as (Hne & H1 & H2 & Hns).
  rewrite join_cons by done. simpl. rewrite (proj2 (truthy_true name) Hne).
  rewrite str_app_nil_r. unfold Path.normalize.
  rewrite bool_decide_false by done.
  assert (Habs : Path.isAbsolute (abs_path C +:+ "/" +:+ name) = true) by done.
  rewrite Habs. cbn [negb]. unfold Path.sep.
  rewrite (endsWith_sep_app_r (abs_path C) ("/" +:+ name)) by done.
  rewrite (endsWith_sep_app_r "/" name) by done.
  rewrite (no_sep_not_endsWith name Hns).
  unfold Path.normalizeString, Path.normalize_segments.
  rewrite split_app_sep, fold_left_app, pieces_abs_path by done.
  rewrite (split_no_sep name Hns). simpl. rewrite normalize_step_push by done.
  rewrite reverse_cons, reverse_involutive.
  rewrite bool_decide_false by (by apply join_sep_snoc_nonempty). done.
Qed.

End JoinPieces.

Section SafePathPieces.

Variable cwd : string.

(** [resolveSafePath] from a normalized absolute root, in components. *)
Lemma resolveSafePath_pieces (R segs : list string) :
  Forall plain R →
  let C := resolved_pieces R (Path.join segs) in
  (R `prefix_of` C → resolveSafePath cwd (abs_path R) segs = Ok (abs_path C)) ∧
  (¬ R `prefix_of` C → resolveSafePath cwd (abs_path R) segs = Err InvalidPathError).
Proof.
  intros HR C.
  pose proof (resolved_pieces_plain R (Path.join segs) HR) as HC.
  pose proof (resolveSafePath_Ok_iff cwd (abs_path R) segs) as Hok.
  pose proof (resolveSafePath_Err_iff cwd (abs_path R) segs) as Herr.
  cbv zeta in Hok, Herr.
  rewrite resolve_from_root in Hok, Herr by done.
  fold (resolved_pieces R (Path.join segs)) in Hok, Herr. fold C in Hok, Herr.
  rewrite within_components in Hok, Herr by done.
  split; [apply Hok | apply Herr].
Qed.

Lemma resolveSafePath_Ok_pieces (R segs : list string) (d : string) :
  Forall plain R →
  resolveSafePath cwd (abs_path R) segs = Ok d →
  d = abs_path (resolved_pieces R (Path.join segs)) ∧
  R `prefix_of` resolved_pieces R (Path.join segs).
Proof.
  intros HR Hd. destruct (resolveSafePath_pieces R segs HR) as [Hok Herr].
  destruct (decide (R `prefix_of` resolved_pieces R (Path.join segs))) as [Hp|Hp].
  - rewrite Hok in Hd by done. by injection Hd as <-.
  - rewrite Herr in Hd by done. discriminate.
Qed.

End SafePathPieces.

(* ===================================================================== *)
(** * More on path safety *)
(* ===================================================================== *)

Section SafePathEntry.

Variable cwd : string.

Lemma leaf_abs_path_snoc (C : list string) (name : string) :
  Forall plain C → plain name → leaf (abs_path (C ++ [name])) = name.
Proof.
  intros HC Hname. unfold abs_path. rewrite leaf_abs. unfold leaf.
  rewrite split_join_sep.
  - by rewrite last_snoc.
  - by destruct C.
  - apply Forall_app. split.
    + eapply Forall_impl; [exact HC|]. intros x Hx. by apply plain_no_sep.
    + constructor; [by apply plain_no_sep | constructor].
Qed.

Lemma abs_path_inj (X Y : list string) :
  Forall plain X → Forall plain Y → abs_path X = abs_path Y → X = Y.
Proof.
  intros HX HY E. apply (f_equal (λ p, fold_left (Path.normalize_step false)
                                         (Path.split p) [])) in E.
  rewrite !pieces_abs_path in E by done.
  apply (f_equal reverse) in E. by rewrite !reverse_involutive in E.
Qed.

(** X1.  [resolveSafePath] and one more name.  When the segments are
    accepted under a normalized absolute root and resolve to [d], the
    same segments followed by a name (a piece without separator that is
    neither empty nor [.] nor [..]) are accepted too, and resolve to
    that name directly inside [d]: to [path.join(d, name)], whose
    directory part is [d] and whose last component is the name. *)
Theorem resolveSafePath_entry (rootDir : string) (segments : list string)
    (d name : string) :
  canonical rootDir →
  resolveSafePath cwd rootDir segments = Ok d →
  plain name →
  resolveSafePath cwd rootDir (segments ++ [name]) = Ok (Path.join [d; name])
  ∧ Path.dirname (Path.join [d; name]) = d
  ∧ leaf (Path.join [d; name]) = name
  ∧ Path.join [d; name] ≠ d.
Proof.
  intros (R & HR & ->) Hd Hname.
  apply resolveSafePath_Ok_pieces in Hd as [-> Hpre]; [|done].
  pose proof (resolved_pieces_plain R (Path.join segments) HR) as HC.
  rewrite join_abs_path by done.
  split_and!.
  - destruct (resolveSafePath_pieces cwd R (segments ++ [name]) HR) as [Hok _].
    cbv zeta in Hok. rewrite resolved_pieces_snoc in Hok by done.
    apply Hok. by apply prefix_app_r.
  - by apply dirname_abs_path.
  - by apply leaf_abs_path_snoc.
  - intros E. apply abs_path_inj in E; [| |done].
    + apply (f_equal length) in E. rewrite length_app in E. simpl in E. lia.
    + apply Forall_app. split; [done | by constructor].
Qed.

End SafePathEntry.

Lemma resolveSafePath_entry_witness :
  resolveSafePath "/" "/srv/public" (["docs"; "a/b"] ++ ["f.txt"])
    = Ok "/srv/public/docs/a/b/f.txt" ∧
  Path.dirname "/srv/public/docs/a/b/f.txt" = "/srv/public/docs/a/b".
Proof.
  assert (Hroot : canonical "/srv/public").
  { exists ["srv"; "public"]. split; [|reflexivity].
    repeat constructor; done. }
  assert (Hname : plain "f.txt") by (repeat split; done).
  destruct (resolveSafePath_entry "/" "/srv/public" ["docs"; "a/b"]
              "/srv/public/docs/a/b" "f.txt" Hroot eq_refl Hname)
    as (H1 & H2 & _).
  split; [exact H1 | exact H2].
Defined.

(* ===================================================================== *)
(** * More on the file system *)
(* ===================================================================== *)

Section MkdirFacts.

Lemma length_le_join_sep (C : list string) :
  Forall plain C → (length C ≤ S (String.length (Path.join_sep C)))%nat.
Proof.
  induction C as [|c C IH]; intros HC; [simpl; lia|].
  apply Forall_cons in HC as [Hc HC]. destruct C as [|d C]; [simpl; lia|].
  change (Path.join_sep (c :: d :: C)) with (c +:+ "/" +:+ Path.join_sep (d :: C)).
  rewrite !str_length_app. specialize (IH HC). simpl in *. lia.
Qed.

Lemma length_le_abs_path (C : list string) :
  Forall plain C → (length C ≤ String.length (abs_path C))%nat.
Proof.
  intros HC. unfold abs_path. rewrite str_length_app.
  pose proof (length_le_join_sep C HC). simpl. lia.
Qed.

(** [mkdir] with [recursive] below a directory [abs_path R]: what it
    makes are directories on the way down to its argument. *)
Lemma mkdir_p_below (fuel : nat) (p0 : string) (t t' : Fs.tree) (R C : list string) :
  Forall plain (R ++ C) →
  Fs.lookup_node t (abs_path R) = Some Fs.Dir →
  Fs.mkdir_p fuel p0 t (abs_path (R ++ C)) = inl t' →
  ∀ q, t' !! q ≠ t !! q →
       ∃ C', C' ≠ [] ∧ C' `prefix_of` C ∧ q = abs_path (R ++ C') ∧
             t !! q = None ∧ t' !! q = Some Fs.Dir.
Proof.
  revert fuel t'. induction C as [|x C IH] using rev_ind; intros fuel t' Hpl Hroot Hmk q Hq.
  - rewrite app_nil_r in Hmk. destruct fuel; simpl in Hmk; rewrite Hroot in Hmk;
      injection Hmk as <-; done.
  - rewrite app_assoc in Hmk, Hpl. apply Forall_app in Hpl as [Hpl Hx].
    apply Forall_cons in Hx as [Hx _].
    destruct fuel as [|fuel]; simpl in Hmk;
      destruct (Fs.lookup_node t (abs_path ((R ++ C) ++ [x]))) as [[c|]|] eqn:Hlk;
      try discriminate; try (injection Hmk as <-; done).
    rewrite dirname_abs_path in Hmk by done.
    destruct (Fs.mkdir_p fuel p0 t (abs_path (R ++ C))) as [t1|e] eqn:Hmk1; [|discriminate].
    injection Hmk as <-.
    destruct (decide (q = abs_path ((R ++ C) ++ [x]))) as [->|Hne].
    + exists (C ++ [x]). rewrite app_assoc.
      apply lookup_node_None in Hlk as [_ Hlk].
      split_and!; [by destruct C | done | done | done | by rewrite lookup_insert_eq].
    + rewrite lookup_insert_ne in Hq by done.
      destruct (IH fuel t1 Hpl Hroot Hmk1 q Hq) as (C' & H1 & H2 & H3 & H4 & H5).
      exists C'. split_and!; [done | by apply prefix_app_r | done | done |].
      by rewrite lookup_insert_ne.
Qed.

(** It fails when a regular file is in the way, and only then. *)
Lemma mkdir_p_abs_inl (fuel : nat) (p0 : string) (t : Fs.tree) (C : list string) :
  Forall plain C → (length C ≤ fuel)%nat →
  (∀ C' c, C' `prefix_of` C → Fs.lookup_node t (abs_path C') ≠ Some (Fs.File c)) →
  ∃ t', Fs.mkdir_p fuel p0 t (abs_path C) = inl t'.
Proof.
  revert fuel. induction C as [|x C IH] using rev_ind; intros fuel Hpl Hfuel Hfree.
  - exists t. by destruct fuel.
  - apply Forall_app in Hpl as [Hpl Hx]. apply Forall_cons in Hx as [Hx _].
    rewrite length_app in Hfuel. simpl in Hfuel.
    destruct fuel as [|fuel]; [lia|]. simpl.
    destruct (Fs.lookup_node t (abs_path (C ++ [x]))) as [[c|]|] eqn:Hlk.
    + by destruct (Hfree (C ++ [x]) c).
    + by exists t.
    + rewrite dirname_abs_path by done.
      destruct (IH fuel Hpl ltac:(lia)) as [t1 ->]; [|by eexists].
      intros C' c HC'. apply Hfree. by apply prefix_app_r.
Qed.

Lemma mkdir_p_abs_inr (fuel : nat) (p0 : string) (t : Fs.tree) (C : list string)
    (e : Fs.fs_error) :
  Forall plain C → (length C ≤ fuel)%nat →
  Fs.mkdir_p fuel p0 t (abs_path C) = inr e →
  ∃ C' c, C' `prefix_of` C ∧ Fs.lookup_node t (abs_path C') = Some (Fs.File c).
Proof.
  revert fuel. induction C as [|x C IH] using rev_ind; intros fuel Hpl Hfuel Hmk.
  - by destruct fuel.
  - apply Forall_app in Hpl as [Hpl Hx]. apply Forall_cons in Hx as [Hx _].
    rewrite length_app in Hfuel. simpl in Hfuel.
    destruct fuel as [|fuel]; [lia|]. simpl in Hmk.
    destruct (Fs.lookup_node t (abs_path (C ++ [x]))) as [[c|]|] eqn:Hlk.
    + by exists (C ++ [x]), c.
    + discriminate.
    + rewrite dirname_abs_path in Hmk by done.
      destruct (Fs.mkdir_p fuel p0 t (abs_path C)) as [t1|e1] eqn:Hmk1; [discriminate|].
      injection Hmk as ->.
      destruct (IH fuel Hpl ltac:(lia) Hmk1) as (C' & c & HC' & Hc).
      exists C', c. split; [by apply prefix_app_r | done].
Qed.

End MkdirFacts.

Section MkdirSame.

(** The same, read the other way: any other path is left as it was. *)
Lemma mkdir_p_elsewhere (fuel : nat) (p0 : string) (t t' : Fs.tree) (R C : list string) :
  Forall plain (R ++ C) →
  Fs.lookup_node t (abs_path R) = Some Fs.Dir →
  Fs.mkdir_p fuel p0 t (abs_path (R ++ C)) = inl t' →
  ∀ q, (∀ C', C' ≠ [] → C' `prefix_of` C → q ≠ abs_path (R ++ C')) →
       t' !! q = t !! q.
Proof.
  revert fuel t'. induction C as [|x C IH] using rev_ind; intros fuel t' Hpl Hroot Hmk q Hq.
  - rewrite app_nil_r in Hmk. destruct fuel; simpl in Hmk; rewrite Hroot in Hmk;
      by injection Hmk as <-.
  - rewrite app_assoc in Hmk, Hpl. apply Forall_app in Hpl as [Hpl Hx].
    apply Forall_cons in Hx as [Hx _].
    destruct fuel as [|fuel]; simpl in Hmk;
      destruct (Fs.lookup_node t (abs_path ((R ++ C) ++ [x]))) as [[c|]|] eqn:Hlk;
      try discriminate; try (by injection Hmk as <-).
    rewrite dirname_abs_path in Hmk by done.
    destruct (Fs.mkdir_p fuel p0 t (abs_path (R ++ C))) as [t1|e] eqn:Hmk1; [|discriminate].
    injection Hmk as <-.
    rewrite lookup_insert_ne.
    + apply (IH fuel t1 Hpl Hroot Hmk1). intros C' H1 H2. apply Hq; [done|].
      by apply prefix_app_r.
    + intros E. apply (Hq (C ++ [x])); [by destruct C | done |].
      by rewrite app_assoc.
Qed.

End MkdirSame.

Section TreeFacts.

Lemma lookup_node_insert_dir (t : Fs.tree) (p q : string) :
  Fs.lookup_node t q = Some Fs.Dir → Fs.lookup_node (<[p := Fs.Dir]> t) q = Some Fs.Dir.
Proof.
  intros Hq. destruct (decide (p = q)) as [->|Hne].
  - unfold Fs.lookup_node. case_bool_decide; [done|]. by rewrite lookup_insert_eq.
  - by rewrite lookup_node_insert_ne.
Qed.

Lemma tree_ok_insert_dir (t : Fs.tree) (p : string) :
  tree_ok t → Fs.lookup_node t (Path.dirname p) = Some Fs.Dir →
  tree_ok (<[p := Fs.Dir]> t).
Proof.
  intros Hok Hp q n Hq. apply lookup_node_insert_dir.
  destruct (decide (q = p)) as [->|Hne]; [done|].
  rewrite lookup_insert_ne in Hq by done. by apply (Hok q n).
Qed.

Lemma tree_ok_insert_file (t : Fs.tree) (p : string) (c : list Fs.byte) :
  tree_ok t → Fs.lookup_node t (Path.dirname p) = Some Fs.Dir →
  Fs.lookup_node t p ≠ Some Fs.Dir →
  tree_ok (<[p := Fs.File c]> t).
Proof.
  intros Hok Hp Hnd q n Hq.
  assert (Hparent : Fs.lookup_node t (Path.dirname q) = Some Fs.Dir).
  { destruct (decide (q = p)) as [->|Hne]; [done|].
    rewrite lookup_insert_ne in Hq by done. by apply (Hok q n). }
  rewrite lookup_node_insert_ne; [done|]. intros ->. by apply Hnd.
Qed.

Lemma tree_ok_delete_file (t : Fs.tree) (p : string) (c : list Fs.byte) :
  tree_ok t → Fs.lookup_node t p = Some (Fs.File c) → tree_ok (delete p t).
Proof.
  intros Hok Hp q n Hq.
  destruct (decide (q = p)) as [->|Hne]; [by rewrite lookup_delete_eq in Hq|].
  rewrite lookup_delete_ne in Hq by done.
  pose proof (Hok q n Hq) as Hparent.
  rewrite lookup_node_delete_ne; [done|]. intros ->. congruence.
Qed.

Lemma mkdir_p_ok (fuel : nat) (p0 : string) (t t' : Fs.tree) (p : string) :
  tree_ok t → Fs.mkdir_p fuel p0 t p = inl t' → tree_ok t'.
Proof.
  revert p t'. induction fuel as [|fuel IH]; intros p t' Hok Hmk; simpl in Hmk;
    destruct (Fs.lookup_node t p) as [[c|]|] eqn:Hlk; try discriminate;
    try (by injection Hmk as <-).
  destruct (Fs.mkdir_p fuel p0 t (Path.dirname p)) as [t1|e] eqn:Hmk1; [|discriminate].
  injection Hmk as <-. apply tree_ok_insert_dir; [by eapply IH|].
  by apply mkdir_p_inl in Hmk1 as [? _].
Qed.

Lemma mkdir_recursive_ok (t t' : Fs.tree) (p : string) :
  tree_ok t → Fs.mkdir_recursive t p = inl t' → tree_ok t'.
Proof. apply mkdir_p_ok. Qed.

(** A regular file renamed: what [rename] does, and when. *)
Lemma rename_file (t : Fs.tree) (src dst : string) (c : list Fs.byte) :
  Fs.lookup_node t src = Some (Fs.File c) → src ≠ dst →
  Fs.lookup_node t (Path.dirname dst) = Some Fs.Dir →
  Fs.rename t src dst =
  match Fs.lookup_node t dst with
  | Some Fs.Dir => inr (Fs.FsError Fs.EISDIR "rename" (Some src) (Some dst))
  | _ => inl (<[dst := Fs.File c]> (delete src t))
  end.
Proof.
  intros Hsrc Hne Hd. unfold Fs.rename. rewrite Hsrc.
  rewrite bool_decide_false by done. rewrite Hd.
  by destruct (Fs.lookup_node t dst) as [[]|].
Qed.

Lemma tree_ok_rename_file (t : Fs.tree) (src dst : string) (c : list Fs.byte) :
  tree_ok t → Fs.lookup_node t src = Some (Fs.File c) → src ≠ dst →
  Fs.lookup_node t (Path.dirname dst) = Some Fs.Dir →
  Fs.lookup_node t dst ≠ Some Fs.Dir →
  tree_ok (<[dst := Fs.File c]> (delete src t)).
Proof.
  intros Hok Hsrc Hne Hd Hnd. apply tree_ok_insert_file.
  - by eapply tree_ok_delete_file.
  - rewrite lookup_node_delete_ne; [done|]. intros ->. congruence.
  - by rewrite lookup_node_delete_ne.
Qed.

End TreeFacts.

Section CanonicalTrees.

Lemma abs_path_snoc_ne_root (C : list string) (x : string) :
  plain x → abs_path (C ++ [x]) ≠ "/".
Proof.
  intros (Hx & _). unfold abs_path. rewrite str_app_cons, str_app_nil_l.
  intros [= H]. by apply (join_sep_snoc_nonempty C x).
Qed.

Lemma abs_path_prefix_ne (C C' : list string) (x : string) :
  Forall plain (C ++ [x]) → C' `prefix_of` C → abs_path (C ++ [x]) ≠ abs_path C'.
Proof.
  intros Hpl [k Hk] E. subst C.
  apply abs_path_inj in E; [|done|].
  - apply (f_equal length) in E. rewrite !length_app in E. simpl in E. lia.
  - apply Forall_app in Hpl as [Hpl _]. by apply Forall_app in Hpl as [? _].
Qed.

(** In a tree whose entries lie in directories, what is above an entry
    is a directory. *)
Lemma tree_ok_above (t : Fs.tree) (C1 C2 : list string) (n : Fs.node) :
  tree_ok t → Forall plain (C1 ++ C2) → C2 ≠ [] →
  Fs.lookup_node t (abs_path (C1 ++ C2)) = Some n →
  Fs.lookup_node t (abs_path C1) = Some Fs.Dir.
Proof.
  intros Hok. revert n. induction C2 as [|x C2 IH] using rev_ind; intros n Hpl Hne Hn; [done|].
  rewrite app_assoc in Hn, Hpl. pose proof Hpl as Hpl'.
  apply Forall_app in Hpl' as [HC Hx]. apply Forall_cons in Hx as [Hx _].
  rewrite lookup_node_ne in Hn by (by apply abs_path_snoc_ne_root).
  apply Hok in Hn. rewrite dirname_abs_path in Hn by done.
  destruct (decide (C2 = [])) as [->|HC2]; [by rewrite app_nil_r in Hn|].
  by apply (IH Fs.Dir).
Qed.

Lemma mkdir_p_abs_free (fuel : nat) (p0 : string) (t t' : Fs.tree) (C : list string) :
  tree_ok t → Forall plain C →
  Fs.mkdir_p fuel p0 t (abs_path C) = inl t' →
  ∀ C' c, C' `prefix_of` C → Fs.lookup_node t (abs_path C') ≠ Some (Fs.File c).
Proof.
  intros Hok. revert fuel t'.
  induction C as [|x C IH] using rev_ind; intros fuel t' Hpl Hmk C' c HC' Hc.
  - apply prefix_nil_inv in HC' as ->. by rewrite lookup_node_root in Hc.
  - pose proof Hpl as Hpl'. apply Forall_app in Hpl' as [HC Hx].
    apply Forall_cons in Hx as [Hx _].
    assert (Hcase : C' = C ++ [x] ∨ C' `prefix_of` C).
    { destruct HC' as [k Hk]. destruct k as [|y k _] using rev_ind.
      - left. by rewrite app_nil_r in Hk.
      - right. rewrite app_assoc in Hk. apply app_inj_tail in Hk as [-> _].
        by exists k. }
    destruct fuel as [|fuel]; simpl in Hmk;
      destruct (Fs.lookup_node t (abs_path (C ++ [x]))) as [[c0|]|] eqn:Hlk;
      try discriminate.
    + destruct Hcase as [->|[k ->]]; [congruence|].
      rewrite <- app_assoc in Hlk, Hpl.
      by rewrite (tree_ok_above t C' (k ++ [x]) _ Hok Hpl ltac:(by destruct k) Hlk) in Hc.
    + destruct Hcase as [->|[k ->]]; [congruence|].
      rewrite <- app_assoc in Hlk, Hpl.
      by rewrite (tree_ok_above t C' (k ++ [x]) _ Hok Hpl ltac:(by destruct k) Hlk) in Hc.
    + destruct Hcase as [->|Hpre]; [congruence|].
      rewrite dirname_abs_path in Hmk by done.
      destruct (Fs.mkdir_p fuel p0 t (abs_path C)) as [t1|e] eqn:Hmk1; [|discriminate].
      by apply (IH fuel t1 HC Hmk1 C' c).
Qed.

(** [mkdir] with [recursive] on a normalized absolute path comes
    through exactly when no regular file is in the way. *)
Lemma mkdir_recursive_abs (t : Fs.tree) (C : list string) :
  tree_ok t → Forall plain C →
  (∃ t', Fs.mkdir_recursive t (abs_path C) = inl t')
  ↔ (∀ C' c, C' `prefix_of` C → Fs.lookup_node t (abs_path C') ≠ Some (Fs.File c)).
Proof.
  intros Hok Hpl. split.
  - intros [t' Hmk]. by eapply mkdir_p_abs_free.
  - intros Hfree. apply mkdir_p_abs_inl; [done | by apply length_le_abs_path | done].
Qed.

End CanonicalTrees.

(* ===================================================================== *)
(** * What the handlers do to the tree *)
(* ===================================================================== *)

Section HandlerFacts.

Variables cwd dir : string.

Lemma publicRoot_canonical :
  Path.isAbsolute dir = true → canonical (publicRoot cwd dir).
Proof.
  intros Hdir. unfold publicRoot. apply resolve_canonical. right.
  by apply Exists_cons_hd.
Qed.

Lemma above_prefix (q : string) (C : list string) :
  Forall plain C →
  above q (abs_path C) ↔ ∃ C', C' `prefix_of` C ∧ q = abs_path C'.
Proof.
  intros HC. split.
  - intros (C1 & C2 & Hpl & -> & E). apply abs_path_inj in E; [|done|done].
    exists C1. split; [by exists C2 | done].
  - intros (C' & [k ->] & ->). by exists C', k.
Qed.

(** What [resolveSafePath] accepts under a normalized absolute root is
    the root or below it, component by component. *)
Lemma resolveSafePath_above (rootDir : string) (segments : list string) (p : string) :
  canonical rootDir →
  resolveSafePath cwd rootDir segments = Ok p → above rootDir p.
Proof.
  intros (R & HR & ->) Hp.
  apply resolveSafePath_Ok_pieces in Hp as [-> [k Hk]]; [|done].
  pose proof (resolved_pieces_plain R (Path.join segments) HR) as HC.
  rewrite Hk in *. by exists R, k.
Qed.

Lemma above_canonical (q p : string) : above q p → canonical q ∧ canonical p.
Proof.
  intros (C1 & C2 & Hpl & -> & ->). split.
  - exists C1. split; [|done]. by apply Forall_app in Hpl as [? _].
  - by exists (C1 ++ C2).
Qed.

(** Making the directory of a normalized path leaves the path itself
    as it was. *)
Lemma mkdir_dirname_keeps (t t1 : Fs.tree) (p : string) :
  canonical p →
  Fs.mkdir_recursive t (Path.dirname p) = inl t1 →
  t1 !! p = t !! p ∧ Fs.lookup_node t1 p = Fs.lookup_node t p.
Proof.
  intros (Cp & HCp & ->) Hmk.
  assert (H : t1 !! abs_path Cp = t !! abs_path Cp).
  { destruct Cp as [|x C _] using rev_ind.
    - change (Path.dirname (abs_path [])) with (abs_path []) in Hmk.
      rewrite mkdir_recursive_existing in Hmk by apply lookup_node_root.
      by injection Hmk as <-.
    - pose proof HCp as HCp'. apply Forall_app in HCp' as [HC Hx].
      apply Forall_cons in Hx as [Hx _].
      rewrite dirname_abs_path in Hmk by done.
      apply (mkdir_p_elsewhere _ _ t t1 [] C HC (lookup_node_root t) Hmk).
      intros C' _ HC' E. by apply abs_path_prefix_ne in E. }
  split; [done|]. unfold Fs.lookup_node. by rewrite H.
Qed.

Lemma finalize_missing (t : Fs.tree) (tempPath finalPath : string) :
  Fs.lookup_node t finalPath = None →
  finalize tempPath finalPath t =
  match Fs.mkdir_recursive t (Path.dirname finalPath) with
  | inl t1 =>
      match Fs.rename t1 tempPath finalPath with
      | inl t2 => (t2, Ok tt)
      | inr e => (t1, Err (IoError e))
      end
  | inr e => (t, Err (IoError e))
  end.
Proof.
  intros Hfinal.
  unfold finalize, try_catch, bind, fs_access, fs_mkdir_recursive, fs_rename, fs_update,
    Fs.access.
  rewrite Hfinal.
  destruct (Fs.mkdir_recursive t (Path.dirname finalPath)) as [t1|e]; [|done].
  by destruct (Fs.rename t1 tempPath finalPath).
Qed.

(** Nothing at a normalized final path: once its directory is made,
    the rename goes through. *)
Lemma finalize_canonical (t : Fs.tree) (tempPath finalPath : string) (c : list Fs.byte) :
  canonical finalPath →
  Fs.lookup_node t tempPath = Some (Fs.File c) →
  Fs.lookup_node t finalPath = None →
  finalize tempPath finalPath t =
  match Fs.mkdir_recursive t (Path.dirname finalPath) with
  | inl t1 => (<[finalPath := Fs.File c]> (delete tempPath t1), Ok tt)
  | inr e => (t, Err (IoError e))
  end.
Proof.
  intros Hcan Htemp Hfinal. rewrite finalize_missing by done.
  destruct (Fs.mkdir_recursive t (Path.dirname finalPath)) as [t1|e] eqn:Hmk; [|done].
  destruct (mkdir_recursive_inl _ _ _ Hmk) as (Hdir & Hkeep & _).
  destruct (mkdir_dirname_keeps t t1 finalPath Hcan Hmk) as [_ Hsame].
  rewrite (rename_file t1 tempPath finalPath c); [|by apply Hkeep|congruence|done].
  by rewrite Hsame, Hfinal.
Qed.

(** The direct write, step by step. *)
Lemma put_handler_steps (req : put_request) (t : Fs.tree) :
  put_handler cwd dir req t =
  match put_key req with
  | None | Some "" => (t, failure 400 "Missing key")
  | Some key =>
      match resolveSafePath cwd (publicRoot cwd dir) [put_bucket req; key] with
      | Err e => (t, failure 400 (message e))
      | Ok outPath =>
          match Fs.mkdir_recursive t (Path.dirname outPath) with
          | inr e => (t, failure 400 (Fs.error_message e))
          | inl t1 =>
              match Fs.pipe_to_file t1 outPath (put_stream req) with
              | inl t2 => (t2, put_success req key outPath)
              | inr e => (t1, failure 500 (Fs.error_message e))
              end
          end
      end
  end.
Proof.
  unfold put_handler. destruct (put_key req) as [key|]; [|done]. simpl.
  destruct key as [|a key]; [done|].
  change (negb (Js.truthy (String a key))) with false. cbv iota.
  unfold bind, lift, ret, fs_mkdir_recursive, fs_update.
  destruct (resolveSafePath _ _ _) as [outPath|e]; [|done].
  destruct (Fs.mkdir_recursive t (Path.dirname outPath)) as [t1|e]; [|done].
  by destruct (Fs.pipe_to_file t1 outPath (put_stream req)).
Qed.

(** Once the directory is there, the write stream fails on a directory
    and on nothing else. *)
Lemma pipe_to_file_in_dir (t : Fs.tree) (p : string) (chunks : list (list Fs.byte)) :
  Fs.lookup_node t (Path.dirname p) = Some Fs.Dir →
  Fs.pipe_to_file t p chunks =
  match Fs.lookup_node t p with
  | Some Fs.Dir => inr (Fs.FsError Fs.EISDIR "open" (Some p) None)
  | _ => inl (<[p := Fs.File (concat chunks)]> t)
  end.
Proof.
  intros Hd. destruct (Fs.lookup_node t p) as [[c|]|] eqn:Hp.
  - destruct (Fs.pipe_to_file t p chunks) as [t'|e] eqn:Hpipe.
    + by apply pipe_to_file_inl in Hpipe as (-> & _).
    + unfold Fs.pipe_to_file, Fs.open_w in Hpipe. by rewrite Hp, Hd in Hpipe.
  - unfold Fs.pipe_to_file, Fs.open_w. by rewrite Hp.
  - destruct (Fs.pipe_to_file t p chunks) as [t'|e] eqn:Hpipe.
    + by apply pipe_to_file_inl in Hpipe as (-> & _).
    + unfold Fs.pipe_to_file, Fs.open_w in Hpipe. by rewrite Hp, Hd in Hpipe.
Qed.

End HandlerFacts.

Section ExampleTrees.

Lemma tree_ok_empty : tree_ok ∅.
Proof. intros p n H. by rewrite lookup_empty in H. Qed.

Lemma tree_okb_ok (t : Fs.tree) : tree_okb t = true → tree_ok t.
Proof.
  intros H p n Hp. apply elem_of_map_to_list in Hp.
  unfold tree_okb in H. rewrite forallb_forall in H.
  specialize (H (p, n) (proj1 (list_elem_of_In _ _) Hp)). simpl in H.
  by destruct (Fs.lookup_node t (Path.dirname p)) as [[c|]|].
Qed.

Lemma tree_ok_tree0 : tree_ok tree0.
Proof. apply tree_okb_ok. by_evaluation. Qed.


Lemma served_tree0 : served (publicRoot app_dir app_dir) tree0.
Proof. split; [apply tree_ok_tree0 | by_evaluation]. Qed.

End ExampleTrees.

(* ===================================================================== *)
(** * Outcomes of a direct write *)
(* ===================================================================== *)

Section DirectWriteOutcomes.

Variables cwd dir : string.

(** X2.  Every outcome of [PUT /:bucket/:key] on a tree whose entries
    lie in directories, for a request whose target path is within the
    limits of the file system (a longer name is refused by the file
    system with [ENAMETOOLONG], which the tree does not have).  The
    status is 200, 400 or 500.
    - 400 leaves the tree as it was, and is sent for a key that is
      absent or empty ([Missing key]), for a path outside the public
      root ([Invalid path]), and when [mkdir] fails, which it does
      because a regular file is above the target.
    - 500 is sent when the target is a directory, with the [EISDIR]
      message of the write stream; the tree is as it was.
    - 200 is sent exactly when the key is non-empty, resolves inside the
      public root to a path that is not a directory, and no regular
      file is above it. *)
Theorem put_handler_outcomes (req : put_request) (t t' : Fs.tree) (r : response) :
  Path.isAbsolute dir = true →
  tree_ok t →
  (∀ key outPath, put_key req = Some key →
     resolveSafePath cwd (publicRoot cwd dir) [put_bucket req; key] = Ok outPath →
     fits outPath = true) →
  put_handler cwd dir req t = (t', r) →
  (status r = 200 ∨ status r = 400 ∨ status r = 500)
  ∧ (status r = 400 →
       t' = t ∧
       (((put_key req = None ∨ put_key req = Some "") ∧ r = failure 400 "Missing key")
        ∨ (∃ key, put_key req = Some key ∧ key ≠ "" ∧
             resolveSafePath cwd (publicRoot cwd dir) [put_bucket req; key]
               = Err InvalidPathError ∧
             r = failure 400 "Invalid path")
        ∨ (∃ key outPath e q c, put_key req = Some key ∧ key ≠ "" ∧
             resolveSafePath cwd (publicRoot cwd dir) [put_bucket req; key] = Ok outPath ∧
             Fs.mkdir_recursive t (Path.dirname outPath) = inr e ∧
             r = failure 400 (Fs.error_message e) ∧
             above q (Path.dirname outPath) ∧
             Fs.lookup_node t q = Some (Fs.File c))))
  ∧ (status r = 500 →
       t' = t ∧
       ∃ key outPath, put_key req = Some key ∧ key ≠ "" ∧
         resolveSafePath cwd (publicRoot cwd dir) [put_bucket req; key] = Ok outPath ∧
         Fs.lookup_node t outPath = Some Fs.Dir ∧
         r = failure 500
               ("EISDIR: illegal operation on a directory, open '" +:+ outPath +:+ "'"))
  ∧ (status r = 200 ↔
       ∃ key outPath, put_key req = Some key ∧ key ≠ "" ∧
         resolveSafePath cwd (publicRoot cwd dir) [put_bucket req; key] = Ok outPath ∧
         Fs.lookup_node t outPath ≠ Some Fs.Dir ∧
         ∀ q c, above q (Path.dirname outPath) → Fs.lookup_node t q ≠ Some (Fs.File c)).
Proof.
  intros Hdir Hok _. rewrite put_handler_steps.
  destruct (put_key req) as [key|] eqn:Hkey.
  2:{ intros [= <- <-]. split_and!; [by right; left | | done |].
      - intros _. split; [done|]. left. split; [by left | done].
      - split; [done|]. by intros (key & ? & ? & _). }
  destruct (decide (key = "")) as [->|Hne].
  { intros [= <- <-]. split_and!; [by right; left | | done |].
    - intros _. split; [done|]. left. split; [by right | done].
    - split; [done|]. intros (key & ? & [= <-] & ? & _). done. }
  assert (Hk : ∀ (X : Type) (a b : X),
            match key with "" => a | String _ _ => b end = b).
  { intros. by destruct key. }
  rewrite Hk. clear Hk.
  destruct (resolveSafePath cwd (publicRoot cwd dir) [put_bucket req; key])
    as [outPath|e] eqn:Hres.
  2:{ assert (e = InvalidPathError) as ->.
      { unfold resolveSafePath in Hres. by destruct (negb _); simplify_eq. }
      intros [= <- <-]. split_and!; [by right; left | | done |].
      - intros _. split; [done|]. right. left. by exists key.
      - split; [done|]. intros (k & o & [= <-] & _ & Ho & _). congruence. }
  pose proof (resolveSafePath_above cwd _ _ _ (publicRoot_canonical cwd dir Hdir) Hres)
    as Habove.
  destruct (above_canonical _ _ Habove) as [_ Hcan].
  destruct Hcan as (Cp & HCp & Hout).
  assert (Hdn : ∃ Cd, Forall plain Cd ∧ Path.dirname outPath = abs_path Cd).
  { subst outPath. destruct Cp as [|x C _] using rev_ind; [by exists []|].
    pose proof HCp as HCp'. apply Forall_app in HCp' as [HC Hx].
    apply Forall_cons in Hx as [Hx _]. exists C. split; [done|].
    by apply dirname_abs_path. }
  destruct Hdn as (Cd & HCd & Hdn).
  assert (Hfree : (∃ t1, Fs.mkdir_recursive t (Path.dirname outPath) = inl t1)
                  ↔ ∀ q c, above q (Path.dirname outPath) →
                           Fs.lookup_node t q ≠ Some (Fs.File c)).
  { rewrite Hdn, mkdir_recursive_abs by done. split.
    - intros H q c Hq. apply above_prefix in Hq as (C' & HC' & ->); [|done].
      by apply H.
    - intros H C' c HC'. apply H. apply above_prefix; [done|]. by exists C'. }
  destruct (Fs.mkdir_recursive t (Path.dirname outPath)) as [t1|e] eqn:Hmk.
  2:{ intros [= <- <-]. split_and!; [by right; left | | done |].
      - intros _. split; [done|]. right. right.
        pose proof Hmk as Hmk'. rewrite Hdn in Hmk'. unfold Fs.mkdir_recursive in Hmk'.
        apply mkdir_p_abs_inr in Hmk' as (C' & c & HC' & Hc);
          [|done|by apply length_le_abs_path].
        exists key, outPath, e, (abs_path C'), c.
        split_and!; try done.
        rewrite Hdn. apply above_prefix; [done|]. by exists C'.
      - split; [done|]. intros (k & o & [= <-] & _ & Ho & _ & Hq).
        assert (o = outPath) as -> by congruence.
        apply Hfree in Hq as [t1 Ht1]. congruence. }
  destruct (mkdir_recursive_inl _ _ _ Hmk) as (Hd1 & _).
  destruct (mkdir_dirname_keeps t t1 outPath ltac:(by exists Cp) Hmk) as [_ Hsame].
  rewrite pipe_to_file_in_dir, Hsame by done.
  assert (Hfree' : ∀ q c, above q (Path.dirname outPath) →
                          Fs.lookup_node t q ≠ Some (Fs.File c)).
  { apply Hfree. by exists t1. }
  destruct (Fs.lookup_node t outPath) as [[c|]|] eqn:Hlk.
  - intros [= <- <-]. split_and!; [by left | done | done |].
    split; [|done]. intros _. exists key, outPath. by rewrite Hlk.
  - intros [= <- <-].
    assert (Ht1 : t1 = t).
    { assert (Hd : Fs.lookup_node t (Path.dirname outPath) = Some Fs.Dir).
      { destruct (decide (outPath = "/")) as [->|Hroot]; [done|].
        rewrite lookup_node_ne in Hlk by done. by apply Hok in Hlk. }
      rewrite mkdir_recursive_existing in Hmk by done. by injection Hmk. }
    split_and!; [by right; right | done | |].
    + intros _. split; [done|]. by exists key, outPath.
    + split; [done|]. intros (k & o & [= <-] & _ & Ho & Hnd & _).
      assert (o = outPath) as -> by congruence. done.
  - intros [= <- <-]. split_and!; [by left | done | done |].
    split; [|done]. intros _. exists key, outPath. by rewrite Hlk.
Qed.

End DirectWriteOutcomes.

(** The bucket [docs] with the regular file [x] in it. *)
Lemma tree_ok_docs_x :
  tree_ok (<["/srv/app/public/docs/x" := Fs.File (bytes_of_string "v")]>
             (<["/srv/app/public/docs" := Fs.Dir]> tree0)).
Proof. apply tree_okb_ok. by_evaluation. Qed.

(** A direct write to [x/y] where [x] is a regular file: the target is
    within the limits, [mkdir] fails, and the tree is as it was. *)
Lemma put_handler_outcomes_witness :
  let req := PutRequest "docs" (Some "x/y") [bytes_of_string "w"] in
  let t := <["/srv/app/public/docs/x" := Fs.File (bytes_of_string "v")]>
             (<["/srv/app/public/docs" := Fs.Dir]> tree0) in
  fits "/srv/app/public/docs/x/y" = true ∧
  fst (put_handler app_dir app_dir req t) = t.
Proof.
  intros req t. split; [by_evaluation|].
  destruct (put_handler_outcomes app_dir app_dir req t
              (fst (put_handler app_dir app_dir req t))
              (snd (put_handler app_dir app_dir req t))
              eq_refl tree_ok_docs_x)
    as (_ & H400 & _).
  - intros key outPath [= <-] Hres. vm_compute in Hres. injection Hres as <-.
    by_evaluation.
  - by destruct (put_handler _ _ _ _).
  - apply H400. vm_compute. reflexivity.
Defined.

(* ===================================================================== *)
(** * Outcomes of a hashed upload *)
(* ===================================================================== *)

Section UploadOutcomes.

Variables cwd dir : string.

Lemma computeFileSha256Hex_missing (t : Fs.tree) (p : string) :
  Fs.lookup_node t p = None →
  computeFileSha256Hex p t
  = (t, Err (IoError (Fs.FsError Fs.ENOENT "open" (Some p) None))).
Proof. intros H. unfold computeFileSha256Hex, Fs.createReadStream. by rewrite H. Qed.

Lemma computeFileSha256Hex_directory (t : Fs.tree) (p : string) :
  Fs.lookup_node t p = Some Fs.Dir →
  computeFileSha256Hex p t
  = (t, Err (IoError (Fs.FsError Fs.EISDIR "read" None None))).
Proof. intros H. unfold computeFileSha256Hex, Fs.createReadStream. by rewrite H. Qed.

Lemma resolveSafePath_Err (rootDir : string) (segments : list string) (e : error) :
  resolveSafePath cwd rootDir segments = Err e → e = InvalidPathError.
Proof. unfold resolveSafePath. destruct (negb _); [by intros [= <-] | done]. Qed.

(** X3.  Every outcome of the handler of [POST /:bucket], the function
    that runs once multer has dealt with the file part, on a tree whose
    entries lie in directories and for staged and final paths within
    the limits of the file system (a longer name is refused by the file
    system with [ENAMETOOLONG], which the tree does not have).  The
    handler sends 200 or 400; what is sent when multer's storage fails
    before the handler runs is not its doing.
    - 400 leaves the tree as it was: a staged file stays where it is.
      It is sent when no file was stored with the request, when the
      staged or the final path is outside the public root, when the
      staged file is missing (with the [ENOENT] message of the read
      stream when no regular file is above the staged path) or is a
      directory (with the [EISDIR] message of the first read, which
      names no path), and when nothing is at the final path and [mkdir]
      fails because a regular file is above it.
    - 200 is sent exactly when a file was stored, its staged path
      resolves to a regular file, the final path resolves, and either
      something is at the final path or no regular file is above it. *)
Theorem post_handler_outcomes (req : post_request) (t t' : Fs.tree) (r : response) :
  Path.isAbsolute dir = true →
  tree_ok t →
  (∀ tempPath, staged_path cwd dir req = Ok tempPath → fits tempPath = true) →
  (∀ tempPath c finalPath,
     staged_path cwd dir req = Ok tempPath →
     Fs.lookup_node t tempPath = Some (Fs.File c) →
     final_path cwd dir req (fingerprint c) = Ok finalPath →
     fits finalPath = true) →
  post_handler cwd dir req t = (t', r) →
  (status r = 200 ∨ status r = 400)
  ∧ (status r = 400 →
       t' = t ∧
       ((upload_saved_name req = "" ∧ r = failure 400 "Missing uploaded file")
        ∨ (upload_saved_name req ≠ "" ∧
           staged_path cwd dir req = Err InvalidPathError ∧
           r = failure 400 "Invalid path")
        ∨ (∃ tempPath, upload_saved_name req ≠ "" ∧
             staged_path cwd dir req = Ok tempPath ∧
             ((Fs.lookup_node t tempPath = None ∧
               (∃ text, r = failure 400 text) ∧
               ((∀ q c, above q tempPath → Fs.lookup_node t q ≠ Some (Fs.File c)) →
                r = failure 400
                      ("ENOENT: no such file or directory, open '" +:+ tempPath +:+ "'")))
              ∨ (Fs.lookup_node t tempPath = Some Fs.Dir ∧
                 r = failure 400 "EISDIR: illegal operation on a directory, read")
              ∨ (∃ c, Fs.lookup_node t tempPath = Some (Fs.File c) ∧
                   ((final_path cwd dir req (fingerprint c) = Err InvalidPathError ∧
                     r = failure 400 "Invalid path")
                    ∨ (∃ finalPath e q c',
                         final_path cwd dir req (fingerprint c) = Ok finalPath ∧
                         Fs.lookup_node t finalPath = None ∧
                         Fs.mkdir_recursive t (Path.dirname finalPath) = inr e ∧
                         r = failure 400 (Fs.error_message e) ∧
                         above q (Path.dirname finalPath) ∧
                         Fs.lookup_node t q = Some (Fs.File c'))))))))
  ∧ (status r = 200 ↔
       ∃ tempPath c finalPath,
         upload_saved_name req ≠ "" ∧
         staged_path cwd dir req = Ok tempPath ∧
         Fs.lookup_node t tempPath = Some (Fs.File c) ∧
         final_path cwd dir req (fingerprint c) = Ok finalPath ∧
         (Fs.lookup_node t finalPath ≠ None ∨
          ∀ q c', above q (Path.dirname finalPath) →
                  Fs.lookup_node t q ≠ Some (Fs.File c'))).
Proof.
  intros Hdir Hok _ _. rewrite post_handler_steps.
  destruct (Js.truthy (upload_saved_name req)) eqn:Hname; cbn [negb].
  2:{ apply truthy_false in Hname. intros [= <- <-].
      split_and!; [by right | |].
      - intros _. split; [done|]. by left.
      - split; [done|]. by intros (? & ? & ? & ? & _). }
  apply truthy_true in Hname.
  destruct (staged_path cwd dir req) as [tempPath|e] eqn:Hst.
  2:{ apply resolveSafePath_Err in Hst as Hst'. subst e. intros [= <- <-].
      split_and!; [by right | |].
      - intros _. split; [done|]. right. left. done.
      - split; [done|]. by intros (? & ? & ? & _ & ? & _). }
  destruct (Fs.lookup_node t tempPath) as [[c|]|] eqn:Htemp.
  3:{ rewrite computeFileSha256Hex_missing by done. intros [= <- <-].
      split_and!; [by right | |].
      - intros _. split; [done|]. right. right. exists tempPath.
        split_and!; [done | done |]. left. split_and!; [done | by eexists | done].
      - split; [done|]. intros (? & ? & ? & _ & [= <-] & ? & _). congruence. }
  2:{ rewrite (computeFileSha256Hex_directory t tempPath Htemp).
      intros [= <- <-]. split_and!; [by right | |].
      - intros _. split; [done|]. right. right. exists tempPath.
        split_and!; [done | done |]. right. left. done.
      - split; [done|]. intros (? & ? & ? & _ & [= <-] & ? & _). congruence. }
  rewrite (computeFileSha256Hex_file t tempPath c Htemp).
  destruct (final_path cwd dir req (fingerprint c)) as [finalPath|e] eqn:Hfin.
  2:{ apply resolveSafePath_Err in Hfin as Hfin'. subst e. intros [= <- <-].
      split_and!; [by right | |].
      - intros _. split; [done|]. right. right. exists tempPath.
        split_and!; [done | done |]. right. right. exists c. split; [done|]. by left.
      - split; [done|]. intros (? & c2 & ? & _ & [= <-] & Hc2 & Hf & _).
        assert (c2 = c) as -> by congruence. congruence. }
  pose proof (resolveSafePath_above cwd _ _ _ (publicRoot_canonical cwd dir Hdir) Hfin)
    as Habove.
  destruct (above_canonical _ _ Habove) as [_ Hcan].
  destruct (Fs.lookup_node t finalPath) as [old|] eqn:Hfinal.
  { rewrite (finalize_existing t tempPath finalPath c old) by done.
    intros [= <- <-]. split_and!; [by left | done |].
    split; [|done]. intros _. exists tempPath, c, finalPath.
    split_and!; [done | done | done | done |]. left. by rewrite Hfinal. }
  rewrite (finalize_canonical t tempPath finalPath c) by done.
  destruct Hcan as (Cf & HCf & ->).
  assert (Hdn : ∃ Cd, Forall plain Cd ∧ Path.dirname (abs_path Cf) = abs_path Cd).
  { destruct Cf as [|x C _] using rev_ind; [by exists []|].
    pose proof HCf as HCf'. apply Forall_app in HCf' as [HC Hx].
    apply Forall_cons in Hx as [Hx _]. exists C. split; [done|].
    by apply dirname_abs_path. }
  destruct Hdn as (Cd & HCd & Hdn).
  assert (Hfree : (∃ t1, Fs.mkdir_recursive t (Path.dirname (abs_path Cf)) = inl t1)
                  ↔ ∀ q c', above q (Path.dirname (abs_path Cf)) →
                            Fs.lookup_node t q ≠ Some (Fs.File c')).
  { rewrite Hdn, mkdir_recursive_abs by done. split.
    - intros H q c' Hq. apply above_prefix in Hq as (C' & HC' & ->); [|done].
      by apply H.
    - intros H C' c' HC'. apply H. apply above_prefix; [done|]. by exists C'. }
  destruct (Fs.mkdir_recursive t (Path.dirname (abs_path Cf))) as [t1|e] eqn:Hmk.
  - intros [= <- <-]. split_and!; [by left | done |].
    split; [|done]. intros _. exists tempPath, c, (abs_path Cf).
    split_and!; [done | done | done | done |]. right. apply Hfree. by exists t1.
  - intros [= <- <-]. split_and!; [by right | |].
    + intros _. split; [done|]. right. right. exists tempPath.
      split_and!; [done | done |]. right. right. exists c. split; [done|]. right.
      pose proof Hmk as Hmk'. rewrite Hdn in Hmk'. unfold Fs.mkdir_recursive in Hmk'.
      apply mkdir_p_abs_inr in Hmk' as (C' & c' & HC' & Hc');
        [|done|by apply length_le_abs_path].
      exists (abs_path Cf), e, (abs_path C'), c'.
      split_and!; try done.
      rewrite Hdn. apply above_prefix; [done|]. by exists C'.
    + split; [done|]. intros (tp & c2 & fp & _ & [= <-] & Hc2 & Hf & Hor).
      assert (c2 = c) as -> by congruence.
      assert (fp = abs_path Cf) as -> by congruence.
      destruct Hor as [Hex|Hq]; [done|].
      apply Hfree in Hq as [t1 Ht1]. congruence.
Qed.

End UploadOutcomes.

(** The second upload of the running example: the object is at the
    final path already, staged and final path are within the limits,
    and the handler sends 200. *)
Lemma tree_ok_second_upload :
  tree_ok (<[hello_final := Fs.File (bytes_of_string "hello")]>
             (hello_staged ["tmp2.txt"])).
Proof. apply tree_okb_ok. by_evaluation. Qed.

Lemma post_handler_outcomes_witness :
  let t := <[hello_final := Fs.File (bytes_of_string "hello")]>
             (hello_staged ["tmp2.txt"]) in
  fits "/srv/app/public/docs/a/b/tmp2.txt" = true ∧
  fits hello_final = true ∧
  status (snd (post_handler app_dir app_dir (hello_request "tmp2.txt") t)) = 200.
Proof.
  intros t. split; [by_evaluation|]. split; [by_evaluation|].
  destruct (post_handler_outcomes app_dir app_dir (hello_request "tmp2.txt") t
              (fst (post_handler app_dir app_dir (hello_request "tmp2.txt") t))
              (snd (post_handler app_dir app_dir (hello_request "tmp2.txt") t))
              eq_refl tree_ok_second_upload)
    as (_ & _ & H200).
  - intros tempPath Hst. vm_compute in Hst. injection Hst as <-. by_evaluation.
  - intros tempPath c finalPath Hst Hlk Hfin.
    vm_compute in Hst. injection Hst as <-.
    vm_compute in Hlk. injection Hlk as <-.
    vm_compute in Hfin. injection Hfin as <-. by_evaluation.
  - by destruct (post_handler _ _ _ _).
  - apply H200.
    exists "/srv/app/public/docs/a/b/tmp2.txt", (bytes_of_string "hello"), hello_final.
    split_and!; [discriminate | by_evaluation | by_evaluation | by_evaluation |].
    left. vm_compute. discriminate.
Defined.

(* ===================================================================== *)
(** * Nothing is written outside the public root *)
(* ===================================================================== *)

Section Containment.

Variables cwd dir : string.

Lemma inside_snoc (R C : list string) :
  Forall plain (R ++ C) → C ≠ [] → inside (abs_path R) (abs_path (R ++ C)).
Proof.
  intros Hpl HC. split; [by exists R, C|].
  intros E. apply abs_path_inj in E; [|done|by apply Forall_app in Hpl as [? _]].
  apply (f_equal length) in E. rewrite length_app in E.
  destruct C; [done | simpl in E; lia].
Qed.

Lemma served_root_entry (R : list string) (t : Fs.tree) :
  served (abs_path R) t →
  Forall plain R → Fs.lookup_node t (Path.dirname (abs_path R)) = Some Fs.Dir.
Proof.
  intros [Hok Hroot] HR. destruct R as [|x R _] using rev_ind; [done|].
  apply Forall_app in HR as [HR Hx]. apply Forall_cons in Hx as [Hx _].
  rewrite lookup_node_ne in Hroot by (by apply abs_path_snoc_ne_root).
  by apply Hok in Hroot.
Qed.

(** [mkdir] with [recursive] of a path accepted under the root: the
    tree stays one the server runs on, and changes inside the root
    only. *)
Lemma mkdir_recursive_served (root p : string) (t t1 : Fs.tree) :
  served root t → above root p →
  Fs.mkdir_recursive t p = inl t1 →
  served root t1 ∧ ∀ q, ¬ inside root q → t1 !! q = t !! q.
Proof.
  intros [Hok Hroot] (R & C & Hpl & -> & ->) Hmk. split.
  - split; [by eapply mkdir_recursive_ok|].
    by apply (mkdir_recursive_inl _ _ _ Hmk).
  - intros q Hq. apply (mkdir_p_elsewhere _ _ t t1 R C Hpl Hroot Hmk).
    intros C' HC' [k ->] ->. apply Hq. apply inside_snoc; [|done].
    rewrite app_assoc in Hpl. by apply Forall_app in Hpl as [? _].
Qed.

Lemma mkdir_dirname_served (root p : string) (t t1 : Fs.tree) :
  served root t → above root p →
  Fs.mkdir_recursive t (Path.dirname p) = inl t1 →
  served root t1 ∧ ∀ q, ¬ inside root q → t1 !! q = t !! q.
Proof.
  intros Hserved (R & C & Hpl & -> & ->) Hmk.
  destruct C as [|x C _] using rev_ind.
  - rewrite app_nil_r in Hmk, Hpl.
    rewrite mkdir_recursive_existing in Hmk by (by apply served_root_entry).
    by injection Hmk as <-.
  - rewrite app_assoc in Hmk, Hpl. pose proof Hpl as Hpl'.
    apply Forall_app in Hpl' as [HRC Hx]. apply Forall_cons in Hx as [Hx _].
    rewrite dirname_abs_path in Hmk by done.
    apply (mkdir_recursive_served _ (abs_path (R ++ C))); [done | | done].
    by exists R, C.
Qed.

End Containment.

Section StaysInside.

Variables cwd dir : string.

(** X4.  A direct write changes nothing outside the public root.  On a
    tree the server runs on (entries lie in directories, the public
    root is a directory), whatever the bucket and the key and whatever
    the answer, every path that is not strictly below the public root
    holds after the request what it held before; the tree is still one
    the server runs on. *)
Theorem put_stays_inside (req : put_request) (t t' : Fs.tree) (r : response) :
  Path.isAbsolute dir = true →
  served (publicRoot cwd dir) t →
  put_handler cwd dir req t = (t', r) →
  served (publicRoot cwd dir) t' ∧
  ∀ q, ¬ inside (publicRoot cwd dir) q → t' !! q = t !! q.
Proof.
  intros Hdir Hserved. rewrite put_handler_steps.
  destruct (put_key req) as [[|a key]|]; try (by intros [= <- <-]).
  destruct (resolveSafePath _ _ _) as [outPath|e] eqn:Hres; [|by intros [= <- <-]].
  pose proof (resolveSafePath_above cwd _ _ _ (publicRoot_canonical cwd dir Hdir) Hres)
    as Habove.
  destruct (Fs.mkdir_recursive t (Path.dirname outPath)) as [t1|e] eqn:Hmk;
    [|by intros [= <- <-]].
  destruct (mkdir_dirname_served _ _ _ _ Hserved Habove Hmk) as [[Hok1 Hroot1] Hout1].
  destruct (mkdir_recursive_inl _ _ _ Hmk) as (Hd1 & _).
  rewrite pipe_to_file_in_dir by done.
  assert (Hfile : Fs.lookup_node t1 outPath ≠ Some Fs.Dir →
            ∀ c, served (publicRoot cwd dir) (<[outPath := Fs.File c]> t1) ∧
                 ∀ q, ¬ inside (publicRoot cwd dir) q →
                      <[outPath := Fs.File c]> t1 !! q = t !! q).
  { intros Hnd c.
    assert (Hne : outPath ≠ publicRoot cwd dir) by congruence.
    split; [split|].
    - by apply tree_ok_insert_file.
    - by rewrite lookup_node_insert_ne.
    - intros q Hq. rewrite lookup_insert_ne; [by apply Hout1|].
      intros <-. by apply Hq. }
  destruct (Fs.lookup_node t1 outPath) as [[c|]|] eqn:Hlk; intros [= <- <-].
  - by apply Hfile.
  - done.
  - by apply Hfile.
Qed.

(** X5.  The handler of a hashed upload changes nothing outside the
    public root.  On a tree the server runs on, whatever the request
    and whatever the answer, every path that is not strictly below the
    public root holds after the request what it held before; the tree
    is still one the server runs on. *)
Theorem post_stays_inside (req : post_request) (t t' : Fs.tree) (r : response) :
  Path.isAbsolute dir = true →
  served (publicRoot cwd dir) t →
  post_handler cwd dir req t = (t', r) →
  served (publicRoot cwd dir) t' ∧
  ∀ q, ¬ inside (publicRoot cwd dir) q → t' !! q = t !! q.
Proof.
  intros Hdir Hserved. rewrite post_handler_steps.
  destruct (negb _); [by intros [= <- <-]|].
  destruct (staged_path cwd dir req) as [tempPath|e] eqn:Hst; [|by intros [= <- <-]].
  pose proof (resolveSafePath_above cwd _ _ _ (publicRoot_canonical cwd dir Hdir) Hst)
    as Htemp_above.
  destruct (Fs.lookup_node t tempPath) as [[c|]|] eqn:Htemp.
  3:{ rewrite computeFileSha256Hex_missing by done. by intros [= <- <-]. }
  2:{ rewrite (computeFileSha256Hex_directory t tempPath Htemp).
      by intros [= <- <-]. }
  rewrite (computeFileSha256Hex_file t tempPath c Htemp).
  destruct (final_path cwd dir req (fingerprint c)) as [finalPath|e] eqn:Hfin;
    [|by intros [= <- <-]].
  pose proof (resolveSafePath_above cwd _ _ _ (publicRoot_canonical cwd dir Hdir) Hfin)
    as Hfinal_above.
  destruct Hserved as [Hok Hroot].
  assert (Htemp_ne : tempPath ≠ publicRoot cwd dir) by congruence.
  destruct (Fs.lookup_node t finalPath) as [old|] eqn:Hfinal.
  - rewrite (finalize_existing t tempPath finalPath c old) by done.
    intros [= <- <-]. split; [split|].
    + by eapply tree_ok_delete_file.
    + by rewrite lookup_node_delete_ne.
    + intros q Hq. rewrite lookup_delete_ne; [done|]. intros <-. by apply Hq.
  - destruct (above_canonical _ _ Hfinal_above) as [_ Hcan].
    rewrite (finalize_canonical t tempPath finalPath c) by done.
    destruct (Fs.mkdir_recursive t (Path.dirname finalPath)) as [t1|e] eqn:Hmk;
      [|by intros [= <- <-]].
    destruct (mkdir_dirname_served _ _ t t1 (conj Hok Hroot) Hfinal_above Hmk)
      as [[Hok1 Hroot1] Hout1].
    destruct (mkdir_recursive_inl _ _ _ Hmk) as (Hd1 & Hkeep1 & _).
    destruct (mkdir_dirname_keeps t t1 finalPath Hcan Hmk) as [_ Hsame].
    assert (Hfinal_ne : finalPath ≠ publicRoot cwd dir) by congruence.
    intros [= <- <-]. split; [split|].
    + apply tree_ok_rename_file; [done | by apply Hkeep1 | congruence | done |].
      rewrite Hsame, Hfinal. done.
    + rewrite lookup_node_insert_ne by done.
      rewrite lookup_node_delete_ne by done. done.
    + intros q Hq. rewrite lookup_insert_ne by (intros <-; by apply Hq).
      rewrite lookup_delete_ne by (intros <-; by apply Hq). by apply Hout1.
Qed.

End StaysInside.

Lemma plain_literals :
  Forall plain ["srv"; "app"; "public"] ∧ Forall plain ["srv"; "app"; "main.mjs"].
Proof. split; repeat constructor; done. Qed.

(** The program file is not below the public root. *)
Lemma main_mjs_outside : ¬ inside (publicRoot app_dir app_dir) "/srv/app/main.mjs".
Proof.
  destruct plain_literals as [Hroot Hmain].
  intros [(C1 & C2 & Hpl & E1 & E2) _].
  change (publicRoot app_dir app_dir) with (abs_path ["srv"; "app"; "public"]) in E1.
  change "/srv/app/main.mjs" with (abs_path ["srv"; "app"; "main.mjs"]) in E2.
  apply abs_path_inj in E1; [|done|by apply Forall_app in Hpl as [? _]].
  apply abs_path_inj in E2; [|done|done].
  subst C1. discriminate E2.
Qed.

Lemma put_stays_inside_witness :
  let req := PutRequest "docs" (Some "notes/a.txt") [bytes_of_string "first"] in
  fst (put_handler app_dir app_dir req tree0) !! "/srv/app/main.mjs"
  = tree0 !! "/srv/app/main.mjs".
Proof.
  intros req.
  destruct (put_stays_inside app_dir app_dir req tree0
              (fst (put_handler app_dir app_dir req tree0))
              (snd (put_handler app_dir app_dir req tree0))
              eq_refl served_tree0)
    as [_ Hout].
  - by destruct (put_handler _ _ _ _).
  - apply Hout, main_mjs_outside.
Defined.

Lemma post_stays_inside_witness :
  let t := hello_staged ["tmp1.txt"] in
  served (publicRoot app_dir app_dir)
    (fst (post_handler app_dir app_dir (hello_request "tmp1.txt") t)).
Proof.
  intros t.
  assert (Ht : served (publicRoot app_dir app_dir) t).
  { split; [apply tree_okb_ok|]; by_evaluation. }
  destruct (post_stays_inside app_dir app_dir (hello_request "tmp1.txt") t
              (fst (post_handler app_dir app_dir (hello_request "tmp1.txt") t))
              (snd (post_handler app_dir app_dir (hello_request "tmp1.txt") t))
              eq_refl Ht)
    as [Hserved _].
  - by destruct (post_handler _ _ _ _).
  - exact Hserved.
Defined.

(* ===================================================================== *)
(** * Staged names *)
(* ===================================================================== *)

Section ExtnameDot.

Lemma extname_step_dot (path : string) (i : nat) (ch : ascii) (st : Path.ext_state) :
  String.get i path = Some ch →
  (∀ sd, Path.startDot st = Some sd → String.get sd path = Some "."%char) →
  ∀ st', (Path.extname_step i ch st = inl st' ∨ Path.extname_step i ch st = inr st') →
         ∀ sd, Path.startDot st' = Some sd → String.get sd path = Some "."%char.
Proof.
  intros Hget Hst st' Hstep. unfold Path.extname_step in Hstep.
  destruct (Path.is_sep ch).
  - destruct (negb (Path.matchedSlash st)); destruct Hstep as [H|H]; simplify_eq; done.
  - set (st1 := match Path.end_ st with
                | Some _ => st
                | None => Path.ExtState (Path.startDot st) (Path.startPart st)
                            (Some (S i)) false (Path.preDotState st)
                end) in *.
    assert (Hst1 : ∀ sd, Path.startDot st1 = Some sd → String.get sd path = Some "."%char).
    { subst st1. by destruct (Path.end_ st). }
    clearbody st1.
    case_bool_decide as Hdot.
    + destruct (Path.startDot st1) as [sd0|] eqn:Hsd0.
      * case_bool_decide as Hpre; destruct Hstep as [H|H]; simplify_eq; simpl; try done.
        all: intros sd Hsd; apply Hst1; congruence.
      * destruct Hstep as [H|H]; simplify_eq. simpl. intros sd [= <-]. congruence.
    + destruct (Path.startDot st1) as [sd0|] eqn:Hsd0;
        destruct Hstep as [H|H]; simplify_eq; simpl; try done.
      intros sd Hsd. apply Hst1. congruence.
Qed.

Lemma extname_loop_dot (path : string) (n : nat) (st : Path.ext_state) :
  (∀ sd, Path.startDot st = Some sd → String.get sd path = Some "."%char) →
  ∀ sd, Path.startDot (Path.extname_loop path n st) = Some sd →
        String.get sd path = Some "."%char.
Proof.
  revert st. induction n as [|i IH]; intros st Hst; [done|].
  simpl. destruct (String.get i path) as [ch|] eqn:Hget; [|by apply IH].
  pose proof (extname_step_dot path i ch st Hget Hst) as Hstep.
  destruct (Path.extname_step i ch st) as [st'|st'].
  - apply IH. apply Hstep. by left.
  - apply Hstep. by right.
Qed.

Lemma substring_get (s : string) (i k : nat) (c : ascii) :
  String.get i s = Some c →
  String.substring i (S k) s = String c (String.substring (S i) k s).
Proof.
  revert i. induction s as [|a s IH]; intros i Hget; [by destruct i|].
  destruct i as [|i]; simpl in Hget.
  - injection Hget as ->. simpl. by destruct s.
  - simpl. rewrite (IH i Hget). done.
Qed.

(** An extension is empty or begins with a dot. *)
Lemma extname_dot (path : string) :
  Path.extname path = "" ∨ ∃ s, Path.extname path = String "." s.
Proof.
  unfold Path.extname.
  pose proof (extname_loop_dot path (String.length path)
                (Path.ExtState None 0 None true 0) ltac:(done)) as Hdot.
  destruct (Path.extname_loop path (String.length path) _) as [sd sp e ms pds].
  cbn [Path.startDot Path.end_ Path.preDotState Path.startPart] in *.
  destruct sd as [sd|]; [|by left]. destruct e as [e|]; [|by left].
  destruct (_ || _); [by left|].
  unfold Js.slice. destruct (e - sd)%nat as [|k] eqn:Hk.
  - left. clear. revert sd. induction path as [|a path IH]; intros sd; [by destruct sd|].
    destruct sd; [done|]. simpl. apply IH.
  - right. rewrite (substring_get path sd k "." (Hdot sd eq_refl)). by eexists.
Qed.

End ExtnameDot.

Section HexNames.

Lemma bytes_hex_length (bs : list Fs.byte) :
  String.length (Sha256.bytes_hex bs) = (2 * length bs)%nat.
Proof. induction bs as [|b bs IH]; [done|]. simpl. rewrite IH. lia. Qed.

Lemma bytes_hex_lower (bs : list Fs.byte) :
  all_chars is_lower_hex (Sha256.bytes_hex bs) = true.
Proof.
  induction bs as [|b bs IH]; [done|]. cbn [Sha256.bytes_hex all_chars].
  unfold Sha256.nibble. by rewrite !hex_digit_lower, IH.
Qed.

Lemma get_app_l (a b : string) (i : nat) :
  (i < String.length a)%nat → String.get i (a +:+ b) = String.get i a.
Proof.
  revert i. induction a as [|x a IH]; intros i Hi; simpl in Hi; [lia|].
  destruct i as [|i]; [done|]. simpl. apply IH. lia.
Qed.

Lemma get_app_r (a b : string) (i : nat) :
  String.get (String.length a + i) (a +:+ b) = String.get i b.
Proof. induction a as [|x a IH]; [done|]. simpl. exact IH. Qed.

Lemma all_chars_get (P : ascii → bool) (s : string) (i : nat) (c : ascii) :
  all_chars P s = true → String.get i s = Some c → P c = true.
Proof.
  revert i. induction s as [|a s IH]; intros i Hall Hget; [by destruct i|].
  simpl in Hall. apply andb_true_iff in Hall as [Ha Hs].
  destruct i as [|i]; simpl in Hget; [by injection Hget as <- | by apply (IH i)].
Qed.

(** Hexadecimal digits followed by an extension make a name. *)
Lemma hex_name_plain (hex p : string) :
  hex ≠ "" → all_chars is_lower_hex hex = true → plain (hex +:+ Path.extname p).
Proof.
  intros Hne Hhex. destruct hex as [|a hex]; [done|].
  simpl in Hhex. apply andb_true_iff in Hhex as [Ha Hhex].
  split_and!.
  - done.
  - rewrite str_app_cons. intros [= -> _]. done.
  - rewrite str_app_cons. intros [= -> _]. done.
  - rewrite no_sep_app, extname_no_sep, andb_true_r. simpl.
    rewrite (lower_hex_not_sep a Ha). simpl. by apply lower_hex_no_sep.
Qed.

(** A name of fewer than 64 hexadecimal digits and an extension is not
    one of 64 digits and an extension. *)
Lemma hex_names_differ (hex1 hex2 p1 p2 : string) :
  (String.length hex1 < String.length hex2)%nat →
  all_chars is_lower_hex hex2 = true →
  hex1 +:+ Path.extname p1 ≠ hex2 +:+ Path.extname p2.
Proof.
  intros Hlen Hhex E.
  destruct (extname_dot p1) as [E1|[s E1]]; rewrite E1 in E.
  - apply (f_equal String.length) in E. rewrite !str_length_app in E. simpl in E. lia.
  - apply (f_equal (String.get (String.length hex1 + 0))) in E.
    rewrite get_app_r in E. simpl in E. rewrite Nat.add_0_r in E.
    rewrite get_app_l in E by done. symmetry in E.
    by apply (all_chars_get _ _ _ _ Hhex) in E.
Qed.

End HexNames.

Section StagedName.

Lemma or_empty_r (x : string) : Js.or x "" = x.
Proof.
  unfold Js.or. destruct (Js.truthy x) eqn:E; [done|]. by apply truthy_false in E.
Qed.

Lemma or_nonempty_l (x y : string) : x ≠ "" → Js.or x y = x.
Proof. intros Hx. unfold Js.or. by rewrite (proj2 (truthy_true x) Hx). Qed.

Lemma storage_filename_eq (randomBytes : list Fs.byte) (req : post_request)
    (file_originalname : string) :
  storage_filename randomBytes req file_originalname
  = Sha256.bytes_hex randomBytes
    +:+ Path.extname (if bool_decide (rawKey (post_body req) = "")
                      then file_originalname else rawKey (post_body req)).
Proof.
  unfold storage_filename. rewrite !or_empty_r.
  destruct (decide (rawKey (post_body req) = "")) as [Hk|Hk].
  - rewrite bool_decide_true by done. by rewrite Hk.
  - rewrite bool_decide_false by done. by rewrite or_nonempty_l.
Qed.

Lemma storage_filename_plain (randomBytes : list Fs.byte) (req : post_request)
    (file_originalname : string) :
  randomBytes ≠ [] → plain (storage_filename randomBytes req file_originalname).
Proof.
  intros Hne. rewrite storage_filename_eq. apply hex_name_plain; [|apply bytes_hex_lower].
  by destruct randomBytes.
Qed.

Lemma storage_filename_not_final (randomBytes : list Fs.byte) (req : post_request)
    (file_originalname : string) (c : list Fs.byte) (p : string) :
  (length randomBytes < 32)%nat →
  storage_filename randomBytes req file_originalname ≠ fingerprint c +:+ Path.extname p.
Proof.
  intros Hlen. rewrite storage_filename_eq. apply hex_names_differ.
  - unfold fingerprint. rewrite regs_hex_length, bytes_hex_length. lia.
  - apply regs_hex_lower.
Qed.

(** X6.  The name [storage.filename] gives a staged file, for the 16
    random bytes it draws: 32 lowercase hexadecimal digits, two for
    each byte, followed by the extension of the logical key, and of the
    file name the client sent when the key is empty.  It is a name (no
    separator, not empty, not [.] or [..]), so the staged file is an
    entry of the staging directory, and it is never the name of a final
    object, which has 64 digits. *)
Theorem storage_filename_shape (randomBytes : list Fs.byte) (req : post_request)
    (file_originalname : string) :
  length randomBytes = 16%nat →
  let name := storage_filename randomBytes req file_originalname in
  let key := rawKey (post_body req) in
  name = Sha256.bytes_hex randomBytes
         +:+ Path.extname (if bool_decide (key = "") then file_originalname else key)
  ∧ String.length (Sha256.bytes_hex randomBytes) = 32%nat
  ∧ all_chars is_lower_hex (Sha256.bytes_hex randomBytes) = true
  ∧ plain name
  ∧ (∀ c p, name ≠ fingerprint c +:+ Path.extname p).
Proof.
  intros Hlen name key. split_and!.
  - apply storage_filename_eq.
  - by rewrite bytes_hex_length, Hlen.
  - apply bytes_hex_lower.
  - apply storage_filename_plain. by destruct randomBytes.
  - intros c p. apply storage_filename_not_final. lia.
Qed.

End StagedName.

Lemma storage_filename_shape_witness :
  plain (storage_filename (repeat Byte.x2a 16) (hello_request "") "photo.png") ∧
  storage_filename (repeat Byte.x2a 16) (hello_request "") "photo.png"
    = "2a2a2a2a2a2a2a2a2a2a2a2a2a2a2a2a.txt".
Proof.
  destruct (storage_filename_shape (repeat Byte.x2a 16) (hello_request "") "photo.png"
              eq_refl) as (H1 & _ & _ & H4 & _).
  split; [exact H4 | exact H1].
Defined.

(* ===================================================================== *)
(** * Staging and the handler *)
(* ===================================================================== *)

Section StagingPaths.

Variables cwd dir : string.

Local Abbreviation nstep := Path.normalize_step.

Lemma dirname_relative (p : string) :
  Path.isAbsolute p = false → Path.isAbsolute (Path.dirname p) = false.
Proof.
  intros Hp. unfold Path.dirname. case_bool_decide; [done|]. rewrite Hp.
  destruct (Path.dirname_loop p (String.length p - 1) true) as [e|]; [|done].
  cbn [andb]. unfold Js.slice. rewrite Nat.sub_0_r.
  destruct p as [|a p]; [by destruct e|]. destruct e as [|e]; [done|].
  simpl. simpl in Hp. by destruct p.
Qed.

Lemma join_nonempty (args : list string) : Path.join args ≠ "".
Proof.
  unfold Path.join. destruct (Path.join_args None args); [apply normalize_nonempty | done].
Qed.

Lemma upload_key_rawKey (req : post_request) : upload_key req = rawKey (post_body req).
Proof. apply or_empty_r. Qed.

Lemma upload_dir_relative (req : post_request) :
  Path.isAbsolute (upload_key req) = false → Path.isAbsolute (upload_dir req) = false.
Proof.
  intros Hk. unfold upload_dir. case_bool_decide; [done|].
  destruct (Js.truthy (upload_key req)); [by apply dirname_relative | done].
Qed.

(** [storage.destination], step by step. *)
Lemma storage_destination_steps (req : post_request) (t : Fs.tree) :
  storage_destination cwd dir req t =
  match resolveSafePath cwd (publicRoot cwd dir) [post_bucket req; upload_dir req] with
  | Err e => (t, Err e)
  | Ok destDir =>
      match Fs.mkdir_recursive t destDir with
      | inl t1 => (t1, Ok destDir)
      | inr e => (t, Err (IoError e))
      end
  end.
Proof.
  unfold storage_destination, upload_dir. rewrite upload_key_rawKey.
  unfold bind, lift, ret, fs_mkdir_recursive, fs_update.
  destruct (resolveSafePath _ _ _) as [destDir|e]; [|done].
  by destruct (Fs.mkdir_recursive t destDir).
Qed.

(** [resolveSafePath] looks at its segments through the components
    they resolve to. *)
Lemma resolveSafePath_same_pieces (R s1 s2 : list string) :
  Forall plain R →
  resolved_pieces R (Path.join s1) = resolved_pieces R (Path.join s2) →
  resolveSafePath cwd (abs_path R) s1 = resolveSafePath cwd (abs_path R) s2.
Proof.
  intros HR E.
  destruct (resolveSafePath_pieces cwd R s1 HR) as [Hok1 Herr1].
  destruct (resolveSafePath_pieces cwd R s2 HR) as [Hok2 Herr2].
  cbv zeta in *. rewrite E in Hok1, Herr1.
  destruct (decide (R `prefix_of` resolved_pieces R (Path.join s2))) as [Hp|Hp].
  - by rewrite Hok1, Hok2.
  - by rewrite Herr1, Herr2.
Qed.

(** A name joined to a relative directory first, or given as one more
    segment: the same components. *)
Lemma key_in_pieces (R : list string) (b fd name : string) :
  Path.isAbsolute fd = false → name ≠ "" →
  resolved_pieces R (Path.join [b; key_in fd name])
  = resolved_pieces R (Path.join [b; fd; name]).
Proof.
  intros Hfd Hname. unfold key_in.
  destruct (Js.truthy fd) eqn:Hfdne.
  2:{ apply truthy_false in Hfdne as ->. reflexivity. }
  apply truthy_true in Hfdne.
  assert (HK : Path.join [fd; name] = Path.normalize (fd +:+ "/" +:+ name)).
  { rewrite join_cons by done. simpl. rewrite (proj2 (truthy_true name) Hname).
    by rewrite str_app_nil_r. }
  assert (Hrel : Path.isAbsolute (fd +:+ "/" +:+ name) = false)
    by (by rewrite isAbsolute_app).
  assert (Hne : fd +:+ "/" +:+ name ≠ "") by (by intros [? _]%str_app_eq_nil).
  assert (HKpieces : ∀ S, fold_left (nstep false) (Path.split (Path.join [fd; name])) S
                          = fold_left (nstep false) (Path.split (fd +:+ "/" +:+ name)) S).
  { intros S. rewrite HK, pieces_normalize by done. rewrite Hrel. cbn [negb].
    apply renormalize. }
  destruct (decide (b = "")) as [->|Hb].
  - assert (E1 : Path.join [""; Path.join [fd; name]]
                 = Path.normalize (Path.join [fd; name])).
    { unfold Path.join at 1. simpl.
      by rewrite (proj2 (truthy_true (Path.join [fd; name])) (join_nonempty _)). }
    assert (E2 : Path.join [""; fd; name] = Path.join [fd; name]) by reflexivity.
    rewrite E1, E2. rewrite resolved_pieces_normalize by apply join_nonempty.
    reflexivity.
  - pose proof (join_nonempty [fd; name]) as HKne.
    set (K := Path.join [fd; name]) in *. clearbody K.
    rewrite !join_cons by done. simpl.
    rewrite (proj2 (truthy_true fd) Hfdne), (proj2 (truthy_true name) Hname).
    rewrite (proj2 (truthy_true K) HKne).
    rewrite !str_app_nil_r.
    rewrite !resolved_pieces_normalize by (by intros [? _]%str_app_eq_nil).
    rewrite !isAbsolute_app by done. f_equal.
    rewrite (split_app_sep b K).
    rewrite (split_app_sep b (fd +:+ "/" +:+ name)).
    rewrite !fold_left_app. apply HKpieces.
Qed.

End StagingPaths.

Section StagingAndHandler.

Variables cwd dir : string.

(** An entry of the directory that [storage.destination] resolves:
    the handler resolves it to that entry. *)
Lemma dir_entry_path (R : list string) (b fd name d : string) :
  Forall plain R → Path.isAbsolute fd = false → plain name →
  resolveSafePath cwd (abs_path R) [b; fd] = Ok d →
  ∃ C, Forall plain C ∧ d = abs_path C ∧
       Path.join [d; name] = abs_path (C ++ [name]) ∧
       resolveSafePath cwd (abs_path R) [b; key_in fd name] = Ok (Path.join [d; name]).
Proof.
  intros HR Hfd Hname Hd. pose proof Hname as (Hne & _).
  apply resolveSafePath_Ok_pieces in Hd as [-> Hpre]; [|done].
  pose proof (resolved_pieces_plain R (Path.join [b; fd]) HR) as HC.
  exists (resolved_pieces R (Path.join [b; fd])).
  rewrite join_abs_path by done. split_and!; [done | done | done |].
  rewrite (resolveSafePath_same_pieces cwd R _ ([b; fd] ++ [name]) HR)
    by (by apply key_in_pieces).
  destruct (resolveSafePath_pieces cwd R ([b; fd] ++ [name]) HR) as [Hok _].
  cbv zeta in Hok. rewrite resolved_pieces_snoc in Hok by done.
  apply Hok. by apply prefix_app_r.
Qed.

Lemma upload_names_with_file (req : post_request) (file : uploaded_file) :
  upload_dir (with_file req file) = upload_dir req ∧
  upload_saved_name (with_file req file) = filename file ∧
  upload_original_name (with_file req file) = originalname file.
Proof. done. Qed.

(** X7.  Staging and the handler agree on the paths.  When the logical
    key does not begin with a separator and [storage.destination] has
    answered with the directory [destDir], the handler resolves the
    staged file (whose name is a name, as [storage.filename] gives it)
    to [path.join(destDir, filename)], where multer's disk storage
    wrote it, and the final object to the entry of the same directory
    named by the fingerprint and the extension; [destDir] is a
    directory below the public root or the root itself. *)
Theorem staging_matches_handler (req : post_request) (t t1 : Fs.tree)
    (destDir : string) (file : uploaded_file) :
  Path.isAbsolute dir = true →
  Path.isAbsolute (upload_key req) = false →
  storage_destination cwd dir req t = (t1, Ok destDir) →
  plain (filename file) →
  staged_path cwd dir (with_file req file) = Ok (Path.join [destDir; filename file])
  ∧ Path.dirname (Path.join [destDir; filename file]) = destDir
  ∧ (∀ c, let hashedName := fingerprint c +:+ upload_ext (with_file req file) in
          final_path cwd dir (with_file req file) (fingerprint c)
            = Ok (Path.join [destDir; hashedName]) ∧
          Path.dirname (Path.join [destDir; hashedName]) = destDir)
  ∧ above (publicRoot cwd dir) destDir
  ∧ Fs.lookup_node t1 destDir = Some Fs.Dir.
Proof.
  intros Hdir Hkey Hdest Hname.
  rewrite storage_destination_steps in Hdest.
  destruct (resolveSafePath _ _ _) as [d|e] eqn:Hres; [|by simplify_eq].
  destruct (Fs.mkdir_recursive t d) as [t'|e] eqn:Hmk; [|by simplify_eq].
  injection Hdest as <- <-.
  pose proof (publicRoot_canonical cwd dir Hdir) as Hroot.
  pose proof (resolveSafePath_above cwd _ _ _ Hroot Hres) as Habove.
  destruct Hroot as (R & HR & HRoot). rewrite HRoot in Hres.
  pose proof (upload_dir_relative req Hkey) as Hfd.
  unfold staged_path, final_path, final_key. rewrite HRoot.
  destruct (upload_names_with_file req file) as (-> & -> & _).
  change (post_bucket (with_file req file)) with (post_bucket req).
  split_and!.
  - by destruct (dir_entry_path R _ _ _ _ HR Hfd Hname Hres) as (C & _ & _ & _ & ->).
  - destruct (dir_entry_path R _ _ _ _ HR Hfd Hname Hres) as (C & HC & -> & -> & _).
    by apply dirname_abs_path.
  - intros c.
    assert (Hhashed : plain (fingerprint c +:+ upload_ext (with_file req file)))
      by apply hashed_name_plain.
    destruct (dir_entry_path R _ _ _ _ HR Hfd Hhashed Hres) as (C & HC & -> & -> & ->).
    split; [done | by apply dirname_abs_path].
  - by rewrite <- HRoot.
  - by apply mkdir_recursive_inl in Hmk as [? _].
Qed.

End StagingAndHandler.

Lemma staging_matches_handler_witness :
  let req := PostRequest "docs" (Some {[ "key" := "a/b/file.txt" ]}) None in
  let file := UploadedFile "file.txt" "tmp1.txt" 5 in
  staged_path app_dir app_dir (with_file req file)
    = Ok "/srv/app/public/docs/a/b/tmp1.txt" ∧
  final_path app_dir app_dir (with_file req file) (fingerprint (bytes_of_string "hello"))
    = Ok hello_final.
Proof.
  intros req file.
  assert (Hname : plain (filename file)) by (repeat split; done).
  assert (Hdest : storage_destination app_dir app_dir req tree0
                  = (fst (storage_destination app_dir app_dir req tree0),
                     Ok "/srv/app/public/docs/a/b")).
  { assert (H : snd (storage_destination app_dir app_dir req tree0)
                = Ok "/srv/app/public/docs/a/b") by by_evaluation.
    destruct (storage_destination app_dir app_dir req tree0). simpl in H. by subst. }
  destruct (staging_matches_handler app_dir app_dir req tree0 _ _ file
              eq_refl eq_refl Hdest Hname) as (H1 & _ & H3 & _).
  split; [exact H1|].
  destruct (H3 (bytes_of_string "hello")) as [H _].
  rewrite H. by_evaluation.
Defined.

(** A key that begins with a separator and climbs: the handler looks
    for the staged file in another directory than the one
    [storage.destination] made. *)
Example absolute_key_stages_elsewhere :
  let req := PostRequest "docs" (Some {[ "key" := "/../x/f.txt" ]}) None in
  let file := UploadedFile "f.txt" "tmp1.txt" 5 in
  snd (storage_destination app_dir app_dir req tree0) = Ok "/srv/app/public/x" ∧
  staged_path app_dir app_dir (with_file req file)
    = Ok "/srv/app/public/docs/x/tmp1.txt".
Proof. split; by_evaluation. Qed.

(* ===================================================================== *)
(** * A hashed upload from the file part to the object *)
(* ===================================================================== *)

Section StagedUpload.

Variables cwd dir : string.

Lemma storage_handleFile_steps (randomBytes : list Fs.byte) (req : post_request)
    (orig : string) (stream : list (list Fs.byte)) (t : Fs.tree) :
  storage_handleFile cwd dir randomBytes req orig stream t =
  match storage_destination cwd dir req t with
  | (t1, Err e) => (t1, Err e)
  | (t1, Ok destination) =>
      let filename := storage_filename randomBytes req orig in
      match Fs.pipe_to_file t1 (Path.join [destination; filename]) stream with
      | inl t2 =>
          (t2, Ok (UploadedFile orig filename (Z.of_nat (length (concat stream)))))
      | inr e => (t1, Err (IoError e))
      end
  end.
Proof.
  unfold storage_handleFile, bind. 
  destruct (storage_destination cwd dir req t) as [t1 [destination|e]]; [|done].
  unfold fs_update, ret. cbv zeta.
  by destruct (Fs.pipe_to_file t1 _ stream).
Qed.


End StagedUpload.


(* ===================================================================== *)
(** * What staging does to the tree *)
(* ===================================================================== *)

Section StagingOutcomes.

Variables cwd dir : string.


(** X10.  Staging changes nothing outside the public root.  Whatever
    the request, when multer's disk storage has run for a file part,
    with 16 random bytes for the name, every path that is not strictly
    below the public root holds what it held before, and the tree is
    still one the server runs on; when the part was stored, the record
    left in [req.file] carries the file name the client sent, the name
    [storage.filename] gave and the number of bytes written. *)
Theorem staging_stays_inside (randomBytes : list Fs.byte) (req : post_request)
    (orig : string) (stream : list (list Fs.byte)) (t t1 : Fs.tree)
    (res : result uploaded_file) :
  Path.isAbsolute dir = true →
  served (publicRoot cwd dir) t →
  length randomBytes = 16%nat →
  storage_handleFile cwd dir randomBytes req orig stream t = (t1, res) →
  served (publicRoot cwd dir) t1
  ∧ (∀ q, ¬ inside (publicRoot cwd dir) q → t1 !! q = t !! q)
  ∧ (∀ file, res = Ok file →
       originalname file = orig ∧
       filename file = storage_filename randomBytes req orig ∧
       size file = Z.of_nat (length (concat stream))).
Proof.
  intros Hdir Hserved Hlen. rewrite storage_handleFile_steps, storage_destination_steps.
  destruct (resolveSafePath _ _ _) as [d|e] eqn:Hres; [|by intros [= <- <-]].
  pose proof (resolveSafePath_above cwd _ _ _ (publicRoot_canonical cwd dir Hdir) Hres)
    as Habove.
  destruct (Fs.mkdir_recursive t d) as [tm|e] eqn:Hmk; [|by intros [= <- <-]].
  destruct (mkdir_recursive_served _ _ _ _ Hserved Habove Hmk) as [[Hok Hroot] Hout].
  destruct (mkdir_recursive_inl _ _ _ Hmk) as (Hd & _).
  cbv zeta. set (name := storage_filename randomBytes req orig).
  assert (Hname : plain name).
  { apply storage_filename_plain. by destruct randomBytes. }
  destruct Habove as (R & C & Hpl & HRoot & ->).
  rewrite join_abs_path by done.
  assert (Hpl' : Forall plain (R ++ C ++ [name])).
  { rewrite app_assoc. apply Forall_app. split; [done | by constructor]. }
  assert (Hin : inside (publicRoot cwd dir) (abs_path ((R ++ C) ++ [name]))).
  { rewrite HRoot, <- app_assoc. apply inside_snoc; [done | by destruct C]. }
  rewrite pipe_to_file_in_dir by (by rewrite dirname_abs_path).
  destruct (Fs.lookup_node tm (abs_path ((R ++ C) ++ [name]))) as [[c|]|] eqn:Hlk;
    intros [= <- <-]; try done.
  all: split; [split|split; [|by intros file [= <-]]].
  all: try (apply tree_ok_insert_file;
            [done | by rewrite dirname_abs_path | by rewrite Hlk]).
  all: try (rewrite lookup_node_insert_ne; [done|]; intros E; by rewrite E, Hroot in Hlk).
  all: intros q Hq; rewrite lookup_insert_ne; [by apply Hout|]; intros <-; by apply Hq.
Qed.

End StagingOutcomes.


Lemma staging_stays_inside_witness :
  let req := PostRequest "docs" (Some {[ "key" := "a/b/file.txt" ]}) None in
  let staged := storage_handleFile app_dir app_dir (repeat Byte.x2a 16) req
                  "file.txt" [bytes_of_string "hello"] tree0 in
  fst staged !! "/srv/app/main.mjs" = tree0 !! "/srv/app/main.mjs".
Proof.
  intros req staged.
  destruct (staging_stays_inside app_dir app_dir (repeat Byte.x2a 16) req "file.txt"
              [bytes_of_string "hello"] tree0 (fst staged) (snd staged)
              eq_refl served_tree0 eq_refl)
    as (_ & Hout & _).
  - subst staged. by destruct (storage_handleFile _ _ _ _ _ _ _).
  - apply Hout, main_mjs_outside.
Defined.

(* ===================================================================== *)
(** * Buckets and roots *)
(* ===================================================================== *)

Section Buckets.

Variables cwd dir : string.

Local Abbreviation nstep := Path.normalize_step.

Lemma join_pair (a k : string) :
  a ≠ "" → k ≠ "" → Path.join [a; k] = Path.normalize (a +:+ "/" +:+ k).
Proof.
  intros Ha Hk. rewrite join_cons by done. simpl.
  by rewrite (proj2 (truthy_true k) Hk), str_app_nil_r.
Qed.

(** A step up after a name cancels it. *)
Lemma climb_pieces (R : list string) (a k : string) :
  plain a → k ≠ "" → Path.isAbsolute k = false →
  resolved_pieces R (Path.join [a; "../" +:+ k]) = resolved_pieces R (Path.join [k]).
Proof.
  intros Ha Hk Hrel. pose proof Ha as (Hane & Ha1 & Ha2 & Hns).
  rewrite join_pair by done.
  assert (E : Path.join [k] = Path.normalize k).
  { unfold Path.join. simpl. by rewrite (proj2 (truthy_true k) Hk). }
  rewrite E. rewrite !resolved_pieces_normalize; [|done|by intros [? _]%str_app_eq_nil].
  rewrite isAbsolute_app by done.
  destruct (plain_head a Ha) as (ch & a' & Heq & Hch).
  assert (Habs : Path.isAbsolute a = false).
  { rewrite Heq. simpl. unfold Path.is_sep. by apply bool_decide_false. }
  rewrite Habs, Hrel. f_equal.
  change ("../" +:+ k) with (".." +:+ "/" +:+ k).
  rewrite !split_app_sep, !fold_left_app.
  rewrite (split_no_sep a Hns). change (Path.split "..") with [".."].
  cbn [fold_left]. rewrite (normalize_step_push false _ a) by done.
  by rewrite normalize_step_up, bool_decide_false.
Qed.

(** X11.  The bucket is no boundary.  A direct write to bucket [a] with
    the key [../b/x] is the direct write to bucket [b] with the key
    [x]: [resolveSafePath] gives both the same path, the tree after is
    the same and so are the status and the path in the answer.  What is
    checked is that the path stays below the public root, not that it
    stays in the bucket. *)
Theorem bucket_is_no_boundary (a b x : string) (stream : list (list Fs.byte))
    (t : Fs.tree) :
  Path.isAbsolute dir = true →
  plain a → plain b → x ≠ "" →
  let climbing := PutRequest a (Some ("../" +:+ b +:+ "/" +:+ x)) stream in
  let direct := PutRequest b (Some x) stream in
  resolveSafePath cwd (publicRoot cwd dir) [a; "../" +:+ b +:+ "/" +:+ x]
    = resolveSafePath cwd (publicRoot cwd dir) [b; x]
  ∧ fst (put_handler cwd dir climbing t) = fst (put_handler cwd dir direct t)
  ∧ status (snd (put_handler cwd dir climbing t))
    = status (snd (put_handler cwd dir direct t))
  ∧ member (snd (put_handler cwd dir climbing t)) "path"
    = member (snd (put_handler cwd dir direct t)) "path".
Proof.
  intros Hdir Ha Hb Hx climbing direct.
  destruct (publicRoot_canonical cwd dir Hdir) as (R & HR & HRoot).
  pose proof Hb as (Hbne & _).
  destruct (plain_head b Hb) as (ch & b' & Hbeq & Hch).
  assert (Hrel : Path.isAbsolute (b +:+ "/" +:+ x) = false).
  { rewrite isAbsolute_app by done. rewrite Hbeq. simpl. unfold Path.is_sep.
    by apply bool_decide_false. }
  assert (Hne : b +:+ "/" +:+ x ≠ "") by (by intros [? _]%str_app_eq_nil).
  assert (Hres : resolveSafePath cwd (publicRoot cwd dir) [a; "../" +:+ b +:+ "/" +:+ x]
                 = resolveSafePath cwd (publicRoot cwd dir) [b; x]).
  { rewrite HRoot. apply resolveSafePath_same_pieces; [done|].
    rewrite (climb_pieces R a (b +:+ "/" +:+ x)) by done.
    f_equal. rewrite join_pair by done. unfold Path.join. simpl.
    by rewrite (proj2 (truthy_true _) Hne). }
  split; [exact Hres|].
  rewrite !put_handler_steps. subst climbing direct. cbn [put_key put_bucket put_stream].
  rewrite Hres. destruct x as [|c0 x]; [done|].
  destruct (resolveSafePath cwd (publicRoot cwd dir) [b; String c0 x])
    as [outPath|e]; [|done].
  destruct (Fs.mkdir_recursive t (Path.dirname outPath)) as [t1|e]; [|done].
  by destruct (Fs.pipe_to_file t1 outPath stream).
Qed.

End Buckets.

Lemma bucket_is_no_boundary_witness :
  fst (put_handler app_dir app_dir
         (PutRequest "alice" (Some "../bob/notes.txt") [bytes_of_string "x"]) tree0)
  = fst (put_handler app_dir app_dir
           (PutRequest "bob" (Some "notes.txt") [bytes_of_string "x"]) tree0).
Proof.
  assert (Ha : plain "alice") by (repeat split; done).
  assert (Hb : plain "bob") by (repeat split; done).
  assert (Hx : "notes.txt" ≠ "") by done.
  exact (proj1 (proj2 (bucket_is_no_boundary app_dir app_dir "alice" "bob" "notes.txt"
                         [bytes_of_string "x"] tree0 eq_refl Ha Hb Hx))).
Defined.

Section Roots.

Variable cwd : string.

Lemma join_args_empty (segments : list string) :
  Forall (λ s, s = "") segments → Path.join segments = ".".
Proof.
  intros H. unfold Path.join.
  assert (E : Path.join_args None segments = None); [|by rewrite E].
  induction H as [|s segments -> _ IH]; [done|]. exact IH.
Qed.

(** X12.  [resolveSafePath] and its root.  Under a normalized absolute
    root, no segments, or empty ones only, resolve to the root itself.
    The check needs such a root: with the empty string as root every
    path is accepted, and with any other relative root every path is
    rejected, since the resolved path is absolute and never begins with
    the root. *)
Theorem resolveSafePath_root_forms (segments : list string) :
  Path.isAbsolute cwd = true →
  (∀ rootDir, canonical rootDir → Forall (λ s, s = "") segments →
     resolveSafePath cwd rootDir segments = Ok rootDir)
  ∧ resolveSafePath cwd "" segments = Ok (Path.resolve cwd [""; Path.join segments])
  ∧ (∀ rootDir, rootDir ≠ "" → Path.isAbsolute rootDir = false →
       resolveSafePath cwd rootDir segments = Err InvalidPathError).
Proof.
  intros Hcwd. split_and!.
  - intros rootDir (R & HR & ->) Hsegs.
    destruct (resolveSafePath_pieces cwd R segments HR) as [Hok _]. cbv zeta in Hok.
    rewrite join_args_empty in Hok by done.
    assert (E : resolved_pieces R "." = R).
    { unfold resolved_pieces. simpl. apply reverse_involutive. }
    rewrite E in Hok. by apply Hok.
  - rewrite resolveSafePath_test. cbv zeta.
    destruct (resolve_canonical cwd [""; Path.join segments] (or_introl Hcwd))
      as (C & _ & ->).
    assert (E : Js.startsWith (abs_path C +:+ Path.sep)
                  (if Js.endsWith "" Path.sep then "" else "" +:+ Path.sep) = true).
    { unfold abs_path. rewrite str_app_cons. simpl. destruct (_ +:+ _); done. }
    by rewrite E.
  - intros rootDir Hne Hrel. rewrite resolveSafePath_test. cbv zeta.
    destruct (resolve_canonical cwd [rootDir; Path.join segments] (or_introl Hcwd))
      as (C & _ & ->).
    destruct rootDir as [|c r]; [done|]. simpl in Hrel.
    assert (Hc : c ≠ "/"%char).
    { intros ->. done. }
    assert (E : Js.startsWith (abs_path C +:+ Path.sep)
                  (if Js.endsWith (String c r) Path.sep
                   then String c r else String c r +:+ Path.sep) = false).
    { unfold abs_path. destruct (Js.endsWith (String c r) Path.sep);
        rewrite ?str_app_cons; simpl; by rewrite bool_decide_false. }
    by rewrite E.
Qed.

End Roots.

Lemma resolveSafePath_root_forms_witness :
  resolveSafePath "/srv/app" "" [".."; ".."; "etc/passwd"] = Ok "/etc/passwd" ∧
  resolveSafePath "/srv/app" "public" ["docs"; "a.txt"] = Err InvalidPathError.
Proof.
  destruct (resolveSafePath_root_forms "/srv/app" [".."; ".."; "etc/passwd"] eq_refl)
    as (_ & H2 & _).
  destruct (resolveSafePath_root_forms "/srv/app" ["docs"; "a.txt"] eq_refl)
    as (_ & _ & H3).
  split; [exact H2 | apply H3; done].
Defined.

(* ===================================================================== *)
(** * Start *)
(* ===================================================================== *)

Section Start.

Variables cwd : string.

(** X13.  The public root.  For a program file with a normalized
    absolute path, the public root is the entry [public] of the
    directory of the file, [path.join(__dirname, "public")], whatever
    the working directory: it is a normalized absolute path, its
    directory part is the directory of the file, and it is not [/]. *)
Theorem publicRoot_shape (__filename : string) :
  canonical __filename → __filename ≠ "/" →
  let __dirname := Path.dirname __filename in
  publicRoot cwd __dirname = Path.join [__dirname; "public"]
  ∧ canonical (publicRoot cwd __dirname)
  ∧ Path.dirname (publicRoot cwd __dirname) = __dirname
  ∧ leaf (publicRoot cwd __dirname) = "public"
  ∧ publicRoot cwd __dirname ≠ "/".
Proof.
  intros (F & HF & ->) Hne. cbv zeta.
  destruct F as [|f D _] using rev_ind; [done|].
  apply Forall_app in HF as [HD Hf]. apply Forall_cons in Hf as [Hf _].
  rewrite dirname_abs_path by done.
  assert (Hpublic : plain "public") by (repeat split; done).
  assert (E : publicRoot cwd (abs_path D) = abs_path (D ++ ["public"])).
  { unfold publicRoot. rewrite resolve_from_root by done.
    change (Path.isAbsolute "public") with false. cbv iota.
    change (Path.split "public") with ["public"]. cbn [fold_left].
    rewrite normalize_step_push by done.
    by rewrite reverse_cons, reverse_involutive. }
  rewrite E, join_abs_path by done.
  assert (Hpl : Forall plain (D ++ ["public"])).
  { apply Forall_app. split; [done | by constructor]. }
  split_and!.
  - done.
  - by exists (D ++ ["public"]).
  - by apply dirname_abs_path.
  - by apply leaf_abs_path_snoc.
  - by apply abs_path_snoc_ne_root.
Qed.

Variable dir : string.

(** X14.  The start.  [fs.mkdirSync(publicRoot, { recursive: true })]
    on a tree whose entries lie in directories comes through exactly
    when no regular file is above the public root or in its place.
    Then the tree is one the server runs on, what was made are
    directories on the way to the root, and no file has changed; when
    the root is a directory already, nothing changes.  When it fails,
    the tree is as it was. *)
Theorem startup_outcomes (t t' : Fs.tree) (res : result unit) :
  Path.isAbsolute dir = true →
  tree_ok t →
  startup cwd dir t = (t', res) →
  (res = Ok tt ↔
     ∀ q c, above q (publicRoot cwd dir) → Fs.lookup_node t q ≠ Some (Fs.File c))
  ∧ (res = Ok tt →
       served (publicRoot cwd dir) t' ∧
       (∀ q x, t' !! q = Some (Fs.File x) ↔ t !! q = Some (Fs.File x)) ∧
       (∀ q, t' !! q ≠ t !! q →
          above q (publicRoot cwd dir) ∧ t !! q = None ∧ t' !! q = Some Fs.Dir))
  ∧ (Fs.lookup_node t (publicRoot cwd dir) = Some Fs.Dir → t' = t ∧ res = Ok tt)
  ∧ (∀ e, res = Err e → t' = t).
Proof.
  intros Hdir Hok. unfold startup, fs_mkdir_recursive, fs_update.
  destruct (publicRoot_canonical cwd dir Hdir) as (R & HR & ->).
  pose proof (mkdir_recursive_abs t R Hok HR) as Hiff.
  assert (Hfree : (∃ t1, Fs.mkdir_recursive t (abs_path R) = inl t1)
                  ↔ ∀ q c, above q (abs_path R) → Fs.lookup_node t q ≠ Some (Fs.File c)).
  { rewrite Hiff. split.
    - intros H q c Hq. apply above_prefix in Hq as (C' & HC' & ->); [|done].
      by apply H.
    - intros H C' c HC'. apply H. apply above_prefix; [done|]. by exists C'. }
  destruct (Fs.mkdir_recursive t (abs_path R)) as [t1|e] eqn:Hmk.
  - intros [= <- <-].
    destruct (mkdir_recursive_inl _ _ _ Hmk) as (Hd & Hkeep & Hfiles).
    split_and!.
    + split; [intros _; apply Hfree; by exists t1 | done].
    + intros _. split_and!.
      * split; [by eapply mkdir_recursive_ok | done].
      * intros q x. split; [apply Hfiles | apply (mkdir_recursive_keeps _ _ _ Hmk)].
      * intros q Hq.
        assert (Hroot : Fs.lookup_node t (abs_path []) = Some Fs.Dir) by done.
        destruct (mkdir_p_below _ _ t t1 [] R HR Hroot Hmk q Hq)
          as (C' & _ & HC' & -> & H1 & H2).
        split_and!; [|done|done]. apply above_prefix; [done|]. by exists C'.
    + intros Hroot. rewrite mkdir_recursive_existing in Hmk by done.
      by injection Hmk as <-.
    + done.
  - intros [= <- <-]. split_and!.
    + split; [done|]. intros H. apply Hfree in H as [t1 Ht1]. done.
    + done.
    + intros Hroot. by rewrite mkdir_recursive_existing in Hmk.
    + done.
Qed.

End Start.

Lemma publicRoot_shape_witness :
  publicRoot "/home/alice" (Path.dirname "/srv/app/main.mjs") = "/srv/app/public".
Proof.
  assert (Hfile : canonical "/srv/app/main.mjs").
  { exists ["srv"; "app"; "main.mjs"]. split; [apply plain_literals | done]. }
  assert (Hne : "/srv/app/main.mjs" ≠ "/") by done.
  exact (proj1 (publicRoot_shape "/home/alice" "/srv/app/main.mjs" Hfile Hne)).
Defined.

Lemma startup_outcomes_witness :
  served (publicRoot app_dir app_dir) (fst (startup app_dir app_dir ∅)).
Proof.
  destruct (startup_outcomes app_dir app_dir ∅
              (fst (startup app_dir app_dir ∅)) (snd (startup app_dir app_dir ∅))
              eq_refl tree_ok_empty)
    as (_ & H & _).
  - by destruct (startup _ _ _).
  - apply H. by_evaluation.
Defined.

(* ===================================================================== *)
(** * Objects are not sealed *)
(* ===================================================================== *)

Section Overwrite.

Variables cwd dir : string.

Lemma key_in_nonempty (d name : string) : name ≠ "" → key_in d name ≠ "".
Proof.
  intros Hname. unfold key_in. destruct (Js.truthy d); [apply join_nonempty | done].
Qed.

(** The handler of an upload keeps the entries in directories. *)
Lemma post_handler_tree_ok (req : post_request) (t t' : Fs.tree) (r : response) :
  Path.isAbsolute dir = true → tree_ok t →
  post_handler cwd dir req t = (t', r) → status r = 200 → tree_ok t'.
Proof.
  intros Hdir Hok Hpost Hs.
  destruct (post_handler_200 cwd dir _ _ _ _ Hpost Hs)
    as (tempPath & c & finalPath & _ & _ & Htemp & Hfin & Hfinalize & _).
  pose proof (resolveSafePath_above cwd _ _ _ (publicRoot_canonical cwd dir Hdir) Hfin)
    as Habove.
  destruct (above_canonical _ _ Habove) as [_ Hcan].
  destruct (Fs.lookup_node t finalPath) as [old|] eqn:Hfinal.
  - rewrite (finalize_existing t tempPath finalPath c old) in Hfinalize by done.
    injection Hfinalize as <-. by eapply tree_ok_delete_file.
  - rewrite (finalize_canonical t tempPath finalPath c) in Hfinalize by done.
    destruct (Fs.mkdir_recursive t (Path.dirname finalPath)) as [t1|e] eqn:Hmk;
      [|discriminate].
    injection Hfinalize as <-.
    destruct (mkdir_recursive_inl _ _ _ Hmk) as (Hd1 & Hkeep1 & _).
    destruct (mkdir_dirname_keeps t t1 finalPath Hcan Hmk) as [_ Hsame].
    apply tree_ok_rename_file; [by eapply mkdir_recursive_ok | by apply Hkeep1
                                | congruence | done |].
    by rewrite Hsame, Hfinal.
Qed.

(** X15.  A stored object can be replaced by a direct write.  After an
    upload that was answered with 200, a direct write to the same
    bucket with the key of the answer resolves to the path of the
    answer; when a regular file is there, as after any upload that
    found nothing in its place, the write is answered with 200 and the
    file named by the fingerprint holds the bytes of the write.
    Nothing compares them with the fingerprint in the name. *)
Theorem put_replaces_hashed_object (req : post_request) (stream : list (list Fs.byte))
    (t t1 t2 : Fs.tree) (r1 r2 : response) (key : string) :
  Path.isAbsolute dir = true →
  tree_ok t →
  post_handler cwd dir req t = (t1, r1) →
  status r1 = 200 →
  member r1 "key" = Some (JString key) →
  put_handler cwd dir (PutRequest (post_bucket req) (Some key) stream) t1 = (t2, r2) →
  ∃ finalPath c,
    member r1 "path" = Some (JString finalPath)
    ∧ member r1 "sha256" = Some (JString (fingerprint c))
    ∧ leaf key = fingerprint c +:+ upload_ext req
    ∧ resolveSafePath cwd (publicRoot cwd dir) [post_bucket req; key] = Ok finalPath
    ∧ (Fs.lookup_node t finalPath = None →
         Fs.lookup_node t1 finalPath = Some (Fs.File c))
    ∧ (∀ x, Fs.lookup_node t1 finalPath = Some (Fs.File x) →
         status r2 = 200 ∧
         member r2 "path" = Some (JString finalPath) ∧
         t2 = <[finalPath := Fs.File (concat stream)]> t1 ∧
         t2 !! finalPath = Some (Fs.File (concat stream))).
Proof.
  intros Hdir Hok Hpost Hs Hkey Hput.
  pose proof (post_handler_tree_ok _ _ _ _ Hdir Hok Hpost Hs) as Hok1.
  destruct (post_handler_200 cwd dir _ _ _ _ Hpost Hs)
    as (tempPath & c & finalPath & _ & _ & Htemp & Hfin & Hfinalize & ->).
  injection Hkey as <-.
  exists finalPath, c.
  pose proof (resolveSafePath_above cwd _ _ _ (publicRoot_canonical cwd dir Hdir) Hfin)
    as Habove.
  destruct (above_canonical _ _ Habove) as [_ Hcan].
  split_and!; [done | done | | done | |].
  - unfold final_key, upload_ext. apply leaf_key_in, hashed_name_plain.
  - intros Hfinal.
    rewrite (finalize_canonical t tempPath finalPath c) in Hfinalize by done.
    destruct (Fs.mkdir_recursive t (Path.dirname finalPath)) as [tm|e]; [|discriminate].
    injection Hfinalize as <-. apply lookup_node_insert_eq.
    intros ->. by rewrite lookup_node_root in Hfinal.
  - intros x Hx. apply lookup_node_File in Hx as Hx'. destruct Hx' as [Hne Hx'].
    rewrite put_handler_steps in Hput. cbn [put_key put_bucket put_stream] in Hput.
    assert (Hk : final_key req (fingerprint c) ≠ "").
    { apply key_in_nonempty. by destruct (hashed_name_plain c (upload_ext_source req)). }
    destruct (final_key req (fingerprint c)) as [|k0 k] eqn:Hfk; [done|].
    rewrite <- Hfk in Hput. unfold final_path in Hfin. rewrite Hfin in Hput.
    rewrite mkdir_recursive_existing in Hput by (by apply (Hok1 _ _ Hx')).
    rewrite pipe_to_file_in_dir, Hx in Hput by (by apply (Hok1 _ _ Hx')).
    injection Hput as <- <-.
    split_and!; [done | done | done | by rewrite lookup_insert_eq].
Qed.

End Overwrite.

Lemma put_replaces_hashed_object_witness :
  let t := hello_staged ["tmp1.txt"] in
  let t1 := fst (post_handler app_dir app_dir (hello_request "tmp1.txt") t) in
  let put := PutRequest "docs" (Some ("a/b/" +:+ hello_sha +:+ ".txt"))
               [bytes_of_string "other"] in
  fst (put_handler app_dir app_dir put t1) !! hello_final
  = Some (Fs.File (bytes_of_string "other")).
Proof.
  intros t t1 put.
  assert (Hok : tree_ok t) by (apply tree_okb_ok; by_evaluation).
  destruct (put_replaces_hashed_object app_dir app_dir (hello_request "tmp1.txt")
              [bytes_of_string "other"] t t1
              (fst (put_handler app_dir app_dir put t1))
              (snd (post_handler app_dir app_dir (hello_request "tmp1.txt") t))
              (snd (put_handler app_dir app_dir put t1))
              ("a/b/" +:+ hello_sha +:+ ".txt") eq_refl Hok)
    as (finalPath & c & Hpath & _ & _ & _ & _ & Hput).
  - subst t1. by destruct (post_handler _ _ _ _).
  - by_evaluation.
  - by_evaluation.
  - by destruct (put_handler _ _ _ _).
  - assert (E : finalPath = hello_final).
    { vm_compute in Hpath. injection Hpath as <-. reflexivity. }
    subst finalPath.
    assert (Hx : Fs.lookup_node t1 hello_final = Some (Fs.File (bytes_of_string "hello")))
      by by_evaluation.
    exact (proj2 (proj2 (proj2 (Hput _ Hx)))).
Defined.

(* ===================================================================== *)
(** * The key and the file part *)
(* ===================================================================== *)

Section KeyAfterFile.

Variables cwd dir : string.


End KeyAfterFile.


(* ===================================================================== *)
(** * One object for each directory and extension *)
(* ===================================================================== *)

Section DistinctObjects.

Variables cwd dir : string.

Lemma str_app_inj_length (a b x y : string) :
  String.length a = String.length b → a +:+ x = b +:+ y → a = b ∧ x = y.
Proof.
  revert b. induction a as [|c a IH]; intros [|d b] Hlen E; simpl in Hlen; try lia.
  - by rewrite !str_app_nil_l in E.
  - rewrite !str_app_cons in E. injection E as -> E.
    destruct (IH b ltac:(lia) E) as [-> ->]. done.
Qed.

(** The final path in components: the directory of the key resolved
    from the bucket, then the hashed name. *)
Lemma final_path_pieces (R : list string) (req : post_request) (sha p : string) :
  Forall plain R → publicRoot cwd dir = abs_path R →
  Path.isAbsolute (upload_dir req) = false →
  plain (sha +:+ upload_ext req) →
  final_path cwd dir req sha = Ok p →
  p = abs_path (resolved_pieces R (Path.join [post_bucket req; upload_dir req])
                ++ [sha +:+ upload_ext req]).
Proof.
  intros HR HRoot Hfd Hname Hp. pose proof Hname as (Hne & _).
  unfold final_path, final_key in Hp. rewrite HRoot in Hp.
  rewrite (resolveSafePath_same_pieces cwd R _
             ([post_bucket req; upload_dir req] ++ [sha +:+ upload_ext req]) HR) in Hp
    by (by apply key_in_pieces).
  apply resolveSafePath_Ok_pieces in Hp as [-> _]; [|done].
  by rewrite resolved_pieces_snoc.
Qed.

(** X17.  One object for each bucket, directory and extension.  Two
    uploads of the same bytes to the same bucket and the same directory
    whose extensions differ are stored under two final paths, in the
    same directory, with the same fingerprint in their names: what is
    shared between uploads is the file of one content under one
    extension, not the content. *)
Theorem distinct_extension_distinct_object (req1 req2 : post_request)
    (c : list Fs.byte) (p1 p2 : string) :
  Path.isAbsolute dir = true →
  post_bucket req1 = post_bucket req2 →
  upload_dir req1 = upload_dir req2 →
  Path.isAbsolute (upload_dir req1) = false →
  upload_ext req1 ≠ upload_ext req2 →
  final_path cwd dir req1 (fingerprint c) = Ok p1 →
  final_path cwd dir req2 (fingerprint c) = Ok p2 →
  p1 ≠ p2
  ∧ Path.dirname p1 = Path.dirname p2
  ∧ leaf p1 = fingerprint c +:+ upload_ext req1
  ∧ leaf p2 = fingerprint c +:+ upload_ext req2.
Proof.
  intros Hdir Hb Hd Hfd Hext H1 H2.
  destruct (publicRoot_canonical cwd dir Hdir) as (R & HR & HRoot).
  assert (Hn1 : plain (fingerprint c +:+ upload_ext req1)) by apply hashed_name_plain.
  assert (Hn2 : plain (fingerprint c +:+ upload_ext req2)) by apply hashed_name_plain.
  apply (final_path_pieces R) in H1; [|done..].
  apply (final_path_pieces R) in H2; [|done|done|by rewrite <- Hd|done].
  rewrite <- Hb, <- Hd in H2.
  pose proof (resolved_pieces_plain R
                (Path.join [post_bucket req1; upload_dir req1]) HR) as HC.
  set (C := resolved_pieces R (Path.join [post_bucket req1; upload_dir req1])) in *.
  subst p1 p2. split_and!.
  - intros E. apply abs_path_inj in E.
    + apply app_inj_tail in E as [_ E].
      apply str_app_inj_length in E as [_ E]; done.
    + apply Forall_app. split; [done | by constructor].
    + apply Forall_app. split; [done | by constructor].
  - by rewrite !dirname_abs_path.
  - by apply leaf_abs_path_snoc.
  - by apply leaf_abs_path_snoc.
Qed.

End DistinctObjects.

Lemma distinct_extension_distinct_object_witness :
  let req1 := PostRequest "docs" (Some {[ "key" := "a/b/file.txt" ]})
                (Some (UploadedFile "photo.png" "tmp1.txt" 5)) in
  let req2 := hello_request "tmp2.txt" in
  leaf ("/srv/app/public/docs/a/b/" +:+ hello_sha +:+ ".png")
    = fingerprint (bytes_of_string "hello") +:+ ".png" ∧
  leaf hello_final = fingerprint (bytes_of_string "hello") +:+ ".txt".
Proof.
  intros req1 req2.
  refine (proj2 (proj2 (distinct_extension_distinct_object app_dir app_dir req1 req2
                   (bytes_of_string "hello") _ _ eq_refl eq_refl eq_refl eq_refl _ _ _))).
  - distinct.
  - by_evaluation.
  - by_evaluation.
Defined.

(* ===================================================================== *)
(** * The answer names the stored file *)
(* ===================================================================== *)

Section CleanPaths.

Local Abbreviation nstep := Path.normalize_step.

Lemma replace_backslashes_id (s : string) :
  no_backslash s = true → Js.replace_backslashes s = s.
Proof.
  induction s as [|c s IH]; [done|]. simpl. intros [Hc Hs]%andb_true_iff.
  apply negb_true_iff in Hc. rewrite Hc, IH; done.
Qed.

Lemma no_backslash_app (s t : string) :
  no_backslash (s +:+ t) = no_backslash s && no_backslash t.
Proof.
  induction s as [|c s IH]; [done|]. rewrite str_app_cons. simpl.
  by rewrite IH, andb_assoc.
Qed.

Lemma no_backslash_join_sep (L : list string) :
  Forall clean L → no_backslash (Path.join_sep L) = true.
Proof.
  induction L as [|x L IH]; intros HL; [done|].
  apply Forall_cons in HL as [[_ Hx] HL]. destruct L as [|y L]; [done|].
  change (Path.join_sep (x :: y :: L)) with (x +:+ "/" +:+ Path.join_sep (y :: L)).
  rewrite !no_backslash_app, Hx, IH by done. done.
Qed.

Lemma lower_hex_no_backslash (s : string) :
  all_chars is_lower_hex s = true → no_backslash s = true.
Proof.
  induction s as [|c s IH]; [done|]. simpl. intros [Hc Hs]%andb_true_iff.
  rewrite IH by done. rewrite andb_true_r. apply negb_true_iff, bool_decide_false.
  intros ->. done.
Qed.

Lemma clean_plain (L : list string) : Forall clean L → Forall plain L.
Proof. intros H. eapply Forall_impl; [exact H|]. by intros x [? _]. Qed.

Lemma join_sep_app (L1 L2 : list string) :
  L1 ≠ [] → L2 ≠ [] →
  Path.join_sep (L1 ++ L2) = Path.join_sep L1 +:+ "/" +:+ Path.join_sep L2.
Proof.
  intros H1 H2. induction L1 as [|x L1 IH]; [done|].
  destruct L1 as [|y L1].
  - simpl. by destruct L2.
  - change (Path.join_sep ((x :: y :: L1) ++ L2))
      with (x +:+ "/" +:+ Path.join_sep ((y :: L1) ++ L2)).
    rewrite IH by done.
    change (Path.join_sep (x :: y :: L1)) with (x +:+ "/" +:+ Path.join_sep (y :: L1)).
    by rewrite !str_app_assoc.
Qed.

Lemma abs_path_app (R L : list string) :
  R ≠ [] → L ≠ [] → abs_path (R ++ L) = abs_path R +:+ "/" +:+ Path.join_sep L.
Proof.
  intros HR HL. unfold abs_path. rewrite join_sep_app by done.
  by rewrite !str_app_assoc.
Qed.

Lemma join_sep_plain_nonempty (L : list string) :
  Forall plain L → L ≠ [] → Path.join_sep L ≠ "".
Proof.
  intros HL Hne. destruct L as [|x L]; [done|].
  apply Forall_cons in HL as [(Hx & _) _]. by apply join_sep_cons_nonempty.
Qed.

(** A bucket and a key of names, resolved from the root: the root, the
    bucket, the names. *)
Lemma resolved_pieces_plain_key (R : list string) (b : string) (K : list string) :
  plain b → Forall plain K → K ≠ [] →
  resolved_pieces R (Path.join [b; Path.join_sep K]) = R ++ b :: K.
Proof.
  intros Hb HK Hne. pose proof Hb as (Hbne & _ & _ & Hbns).
  pose proof (join_sep_plain_nonempty K HK Hne) as Hk.
  rewrite join_pair by done.
  rewrite resolved_pieces_normalize by (by intros [? _]%str_app_eq_nil).
  rewrite isAbsolute_app by done.
  destruct (plain_head b Hb) as (ch & b' & Hbeq & Hch).
  assert (Habs : Path.isAbsolute b = false).
  { rewrite Hbeq. simpl. unfold Path.is_sep. by apply bool_decide_false. }
  rewrite Habs, split_app_sep, (split_no_sep b Hbns).
  rewrite split_join_sep; [|done|].
  2:{ eapply Forall_impl; [exact HK|]. intros x Hx. by apply plain_no_sep. }
  rewrite fold_normalize_push by (by constructor).
  rewrite reverse_app, reverse_involutive. by rewrite reverse_involutive.
Qed.

Lemma endsWith_join_sep (L : list string) :
  Forall plain L → Js.endsWith (Path.join_sep L) "/" = false.
Proof.
  intros HL. destruct L as [|x L _] using rev_ind; [done|].
  apply Forall_app in HL as [HL Hx]. apply Forall_cons in Hx as [(Hx & _ & _ & Hns) _].
  destruct L as [|y L]; [by apply no_sep_not_endsWith|].
  rewrite join_sep_app by done. simpl.
  rewrite (endsWith_sep_app_r _ ("/" +:+ x)) by done.
  rewrite (endsWith_sep_app_r "/" x) by done.
  by apply no_sep_not_endsWith.
Qed.

(** A relative path of names is its own normal form. *)
Lemma normalize_plain_path (L : list string) :
  Forall plain L → L ≠ [] → Path.normalize (Path.join_sep L) = Path.join_sep L.
Proof.
  intros HL Hne. pose proof (join_sep_plain_nonempty L HL Hne) as Hp.
  unfold Path.normalize. rewrite bool_decide_false by done.
  assert (Habs : Path.isAbsolute (Path.join_sep L) = false).
  { destruct L as [|x L]; [done|]. apply Forall_cons in HL as [(Hx & _ & _ & Hns) _].
    by apply join_sep_cons_relative. }
  rewrite Habs. cbn [negb]. unfold Path.sep. rewrite endsWith_join_sep by done.
  unfold Path.normalizeString, Path.normalize_segments.
  rewrite split_join_sep; [|done|].
  2:{ eapply Forall_impl; [exact HL|]. intros x Hx. by apply plain_no_sep. }
  rewrite fold_normalize_push by done. rewrite app_nil_r, reverse_involutive.
  by rewrite bool_decide_false.
Qed.

Lemma dirname_name (f : string) :
  f ≠ "" → no_sep f = true → Path.dirname f = ".".
Proof.
  intros Hf Hns. unfold Path.dirname. rewrite bool_decide_false by done.
  assert (H : ∀ k ms, (k < String.length f)%nat → Path.dirname_loop f k ms = None).
  { induction k as [|k IH]; intros ms Hk; [done|].
    cbn [Path.dirname_loop].
    destruct (get_lt f (S k) Hk) as [c Hc]. rewrite Hc.
    rewrite (get_no_sep f (S k) c Hns Hc). apply IH. lia. }
  rewrite H by (destruct f; [done | simpl; lia]).
  destruct f as [|c f]; [done|]. simpl in Hns.
  apply andb_true_iff in Hns as [Hc _]. simpl. by apply negb_true_iff in Hc as ->.
Qed.

End CleanPaths.

Section AnswerNamesFile.

Variables cwd dir : string.

Lemma publicRoot_snoc :
  Path.isAbsolute dir = true →
  ∃ D, Forall plain (D ++ ["public"]) ∧ publicRoot cwd dir = abs_path (D ++ ["public"]).
Proof.
  intros Hdir.
  assert (Hne : dir ≠ "") by (by intros ->).
  exists (Path.normalize_segments false (Path.split dir)).
  assert (HD : Forall plain (Path.normalize_segments false (Path.split dir)))
    by apply normalize_segments_plain, split_all_no_sep.
  assert (Hpublic : plain "public") by (repeat split; done).
  split; [apply Forall_app; split; [done | by constructor]|].
  unfold publicRoot, Path.resolve. change (reverse [dir; "public"]) with ["public"; dir].
  cbn [Path.resolve_loop]. rewrite (bool_decide_false ("public" = "")) by done.
  change (Path.isAbsolute "public") with false. cbv iota.
  rewrite bool_decide_false by done. rewrite Hdir. cbn [negb].
  unfold Path.normalizeString, abs_path. f_equal. f_equal.
  unfold Path.normalize_segments.
  rewrite !split_app_sep, !fold_left_app.
  change (Path.split "public") with ["public"]. change (Path.split "") with [""].
  cbn [fold_left]. rewrite (normalize_step_push false _ "public") by done.
  rewrite normalize_step_skipped by (by left). by rewrite reverse_cons.
Qed.

(** A bucket and a key of names under the public root. *)
Lemma resolveSafePath_plain_key (b : string) (K : list string) (p : string) :
  Path.isAbsolute dir = true →
  plain b → Forall plain K → K ≠ [] →
  resolveSafePath cwd (publicRoot cwd dir) [b; Path.join_sep K] = Ok p →
  p = publicRoot cwd dir +:+ "/" +:+ b +:+ "/" +:+ Path.join_sep K.
Proof.
  intros Hdir Hb HK Hne Hp.
  destruct (publicRoot_snoc Hdir) as (D & HD & HRoot). rewrite HRoot in *.
  apply resolveSafePath_Ok_pieces in Hp as [-> _]; [|done].
  rewrite resolved_pieces_plain_key by done.
  rewrite abs_path_app; [|by destruct D|done].
  destruct K as [|k K]; [done|]. done.
Qed.

(** X18.  The answer to a direct write names the file written.  For a
    bucket that is a name and a key made of names, none with a
    backslash, a direct write answered with 200 gives the URL
    [/public] followed by [/bucket/key] and the path that is the public
    root followed by the same [/bucket/key]; the file at that path
    holds the bytes of the request. *)
Theorem put_answer_names_file (bucket : string) (K : list string)
    (stream : list (list Fs.byte)) (t t' : Fs.tree) (r : response) :
  Path.isAbsolute dir = true →
  clean bucket → Forall clean K → K ≠ [] →
  put_handler cwd dir (PutRequest bucket (Some (Path.join_sep K)) stream) t = (t', r) →
  status r = 200 →
  let s := "/" +:+ bucket +:+ "/" +:+ Path.join_sep K in
  member r "url" = Some (JString ("/public" +:+ s))
  ∧ member r "path" = Some (JString (publicRoot cwd dir +:+ s))
  ∧ t' !! (publicRoot cwd dir +:+ s) = Some (Fs.File (concat stream)).
Proof.
  intros Hdir [Hb Hbb] HK Hne Hput Hs s.
  destruct (put_handler_200 cwd dir _ _ _ _ Hput Hs)
    as (key & outPath & t1 & Hkey & _ & Hres & _ & Hpipe & ->).
  cbn [put_key put_bucket put_stream] in *. injection Hkey as <-.
  apply resolveSafePath_plain_key in Hres; [|done|done|by apply clean_plain|done].
  apply pipe_to_file_inl in Hpipe as (-> & _).
  fold s in Hres. subst outPath.
  split_and!; [|done|by rewrite lookup_insert_eq].
  unfold put_success, member. cbn [body assoc put_bucket]. simpl.
  rewrite replace_backslashes_id; [done|].
  rewrite !no_backslash_app, Hbb, no_backslash_join_sep by done. done.
Qed.

Lemma upload_dir_plain_key (req : post_request) (Dd : list string) (f : string) :
  Forall plain (Dd ++ [f]) →
  rawKey (post_body req) = Path.join_sep (Dd ++ [f]) →
  upload_dir req = Path.join_sep Dd.
Proof.
  intros Hpl Hkey. pose proof Hpl as Hpl'.
  apply Forall_app in Hpl' as [HD Hf]. apply Forall_cons in Hf as [Hf _].
  pose proof Hf as (Hfne & _ & _ & Hfns).
  unfold upload_dir. rewrite upload_key_rawKey, Hkey.
  rewrite (proj2 (truthy_true _) (join_sep_plain_nonempty _ Hpl ltac:(by destruct Dd))).
  destruct Dd as [|d Dd].
  - simpl. by rewrite dirname_name, bool_decide_true.
  - rewrite join_sep_app by done. simpl (Path.join_sep [f]).
    pose proof (join_sep_plain_nonempty (d :: Dd) HD ltac:(done)) as Hne.
    assert (Hrel : Path.isAbsolute (Path.join_sep (d :: Dd)) = false).
    { apply Forall_cons in HD as [(Hd & _ & _ & Hns) _]. by apply join_sep_cons_relative. }
    rewrite dirname_entry; [|done| |done|done].
    2:{ intros E. by rewrite E in Hrel. }
    rewrite bool_decide_false; [done|].
    destruct Dd as [|e Dd].
    + simpl. apply Forall_cons in HD as [(_ & Hd & _) _]. done.
    + change (Path.join_sep (d :: e :: Dd))
        with (d +:+ "/" +:+ Path.join_sep (e :: Dd)).
      apply Forall_cons in HD as [(Hd & _ & _ & _) _].
      destruct d as [|c0 d]; [done|]. rewrite str_app_cons. intros [= -> E].
      by apply str_app_eq_nil in E as [_ ?].
Qed.

Lemma key_in_plain (Dd : list string) (name : string) :
  Forall plain (Dd ++ [name]) →
  key_in (Path.join_sep Dd) name = Path.join_sep (Dd ++ [name]).
Proof.
  intros Hpl. pose proof Hpl as Hpl'.
  apply Forall_app in Hpl' as [HD Hn]. apply Forall_cons in Hn as [(Hne & _) _].
  unfold key_in. destruct Dd as [|d Dd]; [done|].
  pose proof (join_sep_plain_nonempty (d :: Dd) HD ltac:(done)) as HDne.
  rewrite (proj2 (truthy_true _) HDne), join_pair by done.
  assert (E : Path.join_sep ((d :: Dd) ++ [name])
               = Path.join_sep (d :: Dd) +:+ "/" +:+ name)
    by (by rewrite join_sep_app).
  rewrite <- E. by apply normalize_plain_path.
Qed.

(** X19.  The answer to a hashed upload names the stored object.  For
    a bucket that is a name and a logical key that is empty or made of
    names, without backslash in them or in the extension, an upload
    answered with 200 gives the URL [/public] followed by
    [/bucket/dir/name] and the path that is the public root followed by
    the same [/bucket/dir/name], where [dir] is the directory part of
    the key (none for an empty key or a key of one name) and [name] the
    fingerprint followed by the extension; when nothing was at that
    path, the file there holds the bytes whose fingerprint is in the
    name. *)
Theorem post_answer_names_object (req : post_request) (Dd : list string)
    (t t' : Fs.tree) (r : response) :
  Path.isAbsolute dir = true →
  clean (post_bucket req) → Forall clean Dd →
  (Dd = [] ∧ rawKey (post_body req) = "") ∨
  (∃ f, clean f ∧ rawKey (post_body req) = Path.join_sep (Dd ++ [f])) →
  no_backslash (upload_ext req) = true →
  post_handler cwd dir req t = (t', r) →
  status r = 200 →
  ∃ c,
    let name := fingerprint c +:+ upload_ext req in
    let s := "/" +:+ post_bucket req +:+ "/" +:+ Path.join_sep (Dd ++ [name]) in
    member r "sha256" = Some (JString (fingerprint c))
    ∧ member r "key" = Some (JString (Path.join_sep (Dd ++ [name])))
    ∧ member r "url" = Some (JString ("/public" +:+ s))
    ∧ member r "path" = Some (JString (publicRoot cwd dir +:+ s))
    ∧ (Fs.lookup_node t (publicRoot cwd dir +:+ s) = None →
         t' !! (publicRoot cwd dir +:+ s) = Some (Fs.File c)).
Proof.
  intros Hdir [Hb Hbb] HDc Hkey Hext Hpost Hs.
  destruct (post_handler_200 cwd dir _ _ _ _ Hpost Hs)
    as (tempPath & c & finalPath & _ & _ & Htemp & Hfin & Hfinalize & ->).
  exists c. cbv zeta.
  set (name := fingerprint c +:+ upload_ext req).
  assert (Hname : plain name) by apply hashed_name_plain.
  assert (Hnameb : no_backslash name = true).
  { unfold name. rewrite no_backslash_app, Hext, andb_true_r.
    apply lower_hex_no_backslash, regs_hex_lower. }
  pose proof (clean_plain _ HDc) as HDp.
  assert (HplN : Forall plain (Dd ++ [name])).
  { apply Forall_app. split; [done | by constructor]. }
  assert (HclN : Forall clean (Dd ++ [name])).
  { apply Forall_app. split; [done | by constructor]. }
  assert (Hud : upload_dir req = Path.join_sep Dd).
  { destruct Hkey as [[-> Hk]|(f & [Hf _] & Hk)].
    - unfold upload_dir. by rewrite upload_key_rawKey, Hk.
    - apply (upload_dir_plain_key req Dd f); [|done].
      apply Forall_app. split; [done | by constructor]. }
  assert (Hfk : final_key req (fingerprint c) = Path.join_sep (Dd ++ [name])).
  { unfold final_key. rewrite Hud. by apply key_in_plain. }
  unfold final_path in Hfin. rewrite Hfk in Hfin.
  pose proof (resolveSafePath_above cwd _ _ _ (publicRoot_canonical cwd dir Hdir) Hfin)
    as Habove.
  destruct (above_canonical _ _ Habove) as [_ Hcan].
  apply resolveSafePath_plain_key in Hfin as Hpath;
    [|done|done|done|by destruct Dd].
  set (s := "/" +:+ post_bucket req +:+ "/" +:+ Path.join_sep (Dd ++ [name])) in *.
  subst finalPath.
  split_and!; [done | by unfold post_success, member; cbn [body assoc]; rewrite Hfk
               | | done |].
  - unfold post_success, member. cbn [body assoc]. simpl. rewrite Hfk.
    rewrite replace_backslashes_id; [done|].
    rewrite !no_backslash_app, Hbb, no_backslash_join_sep by done. done.
  - intros Hnone.
    rewrite (finalize_canonical t tempPath _ c) in Hfinalize by done.
    destruct (Fs.mkdir_recursive t _) as [tm|e]; [|discriminate].
    injection Hfinalize as <-. by rewrite lookup_insert_eq.
Qed.

End AnswerNamesFile.

Lemma put_answer_names_file_witness :
  let req := PutRequest "docs" (Some "notes/a.txt") [bytes_of_string "first"] in
  member (snd (put_handler app_dir app_dir req tree0)) "url"
    = Some (JString "/public/docs/notes/a.txt") ∧
  fst (put_handler app_dir app_dir req tree0) !! "/srv/app/public/docs/notes/a.txt"
    = Some (Fs.File (bytes_of_string "first")).
Proof.
  intros req.
  assert (Hb : clean "docs") by (repeat split; done).
  assert (HK : Forall clean ["notes"; "a.txt"]) by (repeat constructor; done).
  destruct (put_answer_names_file app_dir app_dir "docs" ["notes"; "a.txt"]
              [bytes_of_string "first"] tree0
              (fst (put_handler app_dir app_dir req tree0))
              (snd (put_handler app_dir app_dir req tree0))
              eq_refl Hb HK ltac:(done))
    as (H1 & _ & H3).
  - by destruct (put_handler _ _ _ _).
  - by_evaluation.
  - split; [exact H1 | exact H3].
Defined.

Lemma post_answer_names_object_witness :
  let t := hello_staged ["tmp1.txt"] in
  let r := snd (post_handler app_dir app_dir (hello_request "tmp1.txt") t) in
  ∃ c, member r "sha256" = Some (JString (fingerprint c)) ∧
       member r "url"
       = Some (JString ("/public/docs/a/b/" +:+ fingerprint c +:+ ".txt")).
Proof.
  intros t r.
  assert (Hb : clean "docs") by (repeat split; done).
  assert (HD : Forall clean ["a"; "b"]) by (repeat constructor; done).
  assert (Hf : clean "file.txt") by (repeat split; done).
  destruct (post_answer_names_object app_dir app_dir (hello_request "tmp1.txt")
              ["a"; "b"] t
              (fst (post_handler app_dir app_dir (hello_request "tmp1.txt") t)) r
              eq_refl Hb HD
              (or_intror (ex_intro _ "file.txt" (conj Hf eq_refl))) eq_refl)
    as (c & H1 & _ & H3 & _).
  - subst r. by destruct (post_handler _ _ _ _).
  - by_evaluation.
  - exists c. split; [exact H1 | exact H3].
Defined.

(** A key with a backslash: the file is written under the name with
    the backslash, and the URL of the answer has a slash there. *)
Example backslash_key_url_differs :
  let req := PutRequest "docs" (Some "a\b.txt") [bytes_of_string "x"] in
  let r := snd (put_handler app_dir app_dir req tree0) in
  status r = 200 ∧
  member r "path" = Some (JString "/srv/app/public/docs/a\b.txt") ∧
  member r "url" = Some (JString "/public/docs/a/b.txt").
Proof. vm_compute. split_and!; reflexivity. Qed.

(* ===================================================================== *)
(** * Uploads overwrite nothing *)
(* ===================================================================== *)

Section NeverOverwrites.

Variables cwd dir : string.

(** X20.  The handler of a hashed upload overwrites nothing.  Whatever
    the request, the tree and the answer: every regular file of the
    tree other than the staged file of the request is there afterwards
    with the same bytes, and every regular file there afterwards either
    was there with the same bytes or is the staged file of the request
    under its content address. *)
Theorem post_never_overwrites (req : post_request) (t t' : Fs.tree) (r : response) :
  post_handler cwd dir req t = (t', r) →
  (∀ q x, t !! q = Some (Fs.File x) → staged_path cwd dir req ≠ Ok q →
          t' !! q = Some (Fs.File x))
  ∧ (∀ q x, t' !! q = Some (Fs.File x) →
            t !! q = Some (Fs.File x) ∨
            ∃ tempPath, staged_path cwd dir req = Ok tempPath ∧
                        Fs.lookup_node t tempPath = Some (Fs.File x) ∧
                        final_path cwd dir req (fingerprint x) = Ok q).
Proof.
  rewrite post_handler_steps.
  destruct (negb _); [intros [= <- <-]; by split; [|left]|].
  destruct (staged_path cwd dir req) as [tempPath|e] eqn:Hst;
    [|intros [= <- <-]; by split; [|left]].
  destruct (Fs.lookup_node t tempPath) as [[c|]|] eqn:Htemp.
  3:{ rewrite computeFileSha256Hex_missing by done.
      intros [= <- <-]; by split; [|left]. }
  2:{ rewrite (computeFileSha256Hex_directory t tempPath Htemp).
      intros [= <- <-]; by split; [|left]. }
  rewrite (computeFileSha256Hex_file t tempPath c Htemp).
  destruct (final_path cwd dir req (fingerprint c)) as [finalPath|e] eqn:Hfin;
    [|intros [= <- <-]; by split; [|left]].
  destruct (Fs.lookup_node t finalPath) as [old|] eqn:Hfinal.
  - rewrite (finalize_existing t tempPath finalPath c old) by done.
    intros [= <- <-]. split.
    + intros q x Hq Hne. rewrite lookup_delete_ne; [done|]. congruence.
    + intros q x Hq. left.
      destruct (decide (q = tempPath)) as [->|Hne];
        [by rewrite lookup_delete_eq in Hq | by rewrite lookup_delete_ne in Hq].
  - rewrite finalize_missing by done.
    destruct (Fs.mkdir_recursive t (Path.dirname finalPath)) as [t1|e] eqn:Hmk;
      [|intros [= <- <-]; by split; [|left]].
    destruct (mkdir_recursive_inl _ _ _ Hmk) as (Hd1 & Hkeep1 & Hfiles1).
    pose proof (mkdir_recursive_keeps _ _ _ Hmk) as Hraw.
    assert (Hne : tempPath ≠ finalPath) by congruence.
    rewrite (rename_file t1 tempPath finalPath c); [|by apply Hkeep1|done|done].
    apply lookup_node_None in Hfinal as [Hroot Hnone].
    destruct (Fs.lookup_node t1 finalPath) as [[c1|]|] eqn:Hlk1; intros [= <- <-].
    + rewrite lookup_node_ne in Hlk1 by done. apply Hfiles1 in Hlk1. congruence.
    + split; [intros q x Hq _; by apply Hraw | intros q x Hq; left; by apply Hfiles1].
    + split.
      * intros q x Hq Hqt.
        rewrite lookup_insert_ne by congruence.
        rewrite lookup_delete_ne by congruence. by apply Hraw.
      * intros q x Hq. destruct (decide (q = finalPath)) as [->|Hqf].
        -- rewrite lookup_insert_eq in Hq. injection Hq as <-. right. by exists tempPath.
        -- rewrite lookup_insert_ne in Hq by done. left.
           destruct (decide (q = tempPath)) as [->|Hqt];
             [by rewrite lookup_delete_eq in Hq|].
           rewrite lookup_delete_ne in Hq by done. by apply Hfiles1.
Qed.

End NeverOverwrites.

Lemma post_never_overwrites_witness :
  let t := <[hello_final := Fs.File (bytes_of_string "older")]> (hello_staged ["tmp1.txt"]) in
  fst (post_handler app_dir app_dir (hello_request "tmp1.txt") t) !! hello_final
  = Some (Fs.File (bytes_of_string "older")).
Proof.
  intros t.
  destruct (post_never_overwrites app_dir app_dir (hello_request "tmp1.txt") t
              (fst (post_handler app_dir app_dir (hello_request "tmp1.txt") t))
              (snd (post_handler app_dir app_dir (hello_request "tmp1.txt") t)))
    as [Hkeep _].
  - by destruct (post_handler _ _ _ _).
  - apply Hkeep; [by_evaluation | distinct].
Defined.

Section OneFile.

Variables cwd dir : string.

(** X21.  A direct write touches one file.  Whatever the request, the
    tree and the answer: at every path other than the one the bucket
    and the key resolve to, the regular files after the request are
    the regular files before it, with the same bytes; and the file at
    that path changes only when the answer is 200. *)
Theorem put_touches_one_file (req : put_request) (t t' : Fs.tree) (r : response) :
  put_handler cwd dir req t = (t', r) →
  (∀ q x,
     (∀ key, put_key req = Some key →
             resolveSafePath cwd (publicRoot cwd dir) [put_bucket req; key] ≠ Ok q) →
     t' !! q = Some (Fs.File x) ↔ t !! q = Some (Fs.File x))
  ∧ (status r ≠ 200 → ∀ q x, t' !! q = Some (Fs.File x) ↔ t !! q = Some (Fs.File x)).
Proof.
  rewrite put_handler_steps.
  destruct (put_key req) as [[|a key]|]; try (by intros [= <- <-]).
  destruct (resolveSafePath _ _ _) as [outPath|e] eqn:Hres; [|by intros [= <- <-]].
  destruct (Fs.mkdir_recursive t (Path.dirname outPath)) as [t1|e] eqn:Hmk;
    [|by intros [= <- <-]].
  destruct (mkdir_recursive_inl _ _ _ Hmk) as (Hd1 & _ & Hfiles1).
  pose proof (mkdir_recursive_keeps _ _ _ Hmk) as Hraw.
  assert (Hsame : ∀ q x, t1 !! q = Some (Fs.File x) ↔ t !! q = Some (Fs.File x)).
  { intros q x. split; [apply Hfiles1 | apply Hraw]. }
  destruct (Fs.pipe_to_file t1 outPath (put_stream req)) as [t2|e] eqn:Hpipe;
    intros [= <- <-]; [|by split].
  apply pipe_to_file_inl in Hpipe as (-> & _).
  split; [|done].
  intros q x Hq. rewrite lookup_insert_ne; [apply Hsame|].
  intros <-. by apply (Hq (String a key)).
Qed.

End OneFile.

Lemma put_touches_one_file_witness :
  let t := hello_staged ["tmp1.txt"] in
  let req := PutRequest "docs" (Some "a/b/other.txt") [bytes_of_string "x"] in
  fst (put_handler app_dir app_dir req t) !! "/srv/app/public/docs/a/b/tmp1.txt"
    = Some (Fs.File (bytes_of_string "hello")).
Proof.
  intros t req.
  destruct (put_touches_one_file app_dir app_dir req t
              (fst (put_handler app_dir app_dir req t))
              (snd (put_handler app_dir app_dir req t)))
    as [Hframe _].
  - by destruct (put_handler _ _ _ _).
  - apply Hframe; [|by_evaluation].
    intros key [= <-]. distinct.
Defined.
